(** * morsels: integer roots, prime sieves and squarefree counting

    A shallow embedding of the Python code of the three notebooks
    ([Integer Roots and Perfect Powers], [Prime Sieves],
    [Counting Squarefree Numbers]) and the proofs of the properties their
    specification states.

    Conventions of the embedding.
    - A Python [int] is a [Z]; [//] on a non-zero divisor is [Z.div] (both
      floor), [%] is [Z.modulo], [**] with a non-negative exponent is [Z.pow].
    - A call that can raise returns a [result]: [Ok v], or [Raise e] for the
      exception [e] that escapes the call.
    - A [while] loop is a [Fixpoint] on a fuel argument; running dry is the
      separate outcome [OutOfFuel], which the theorems show unreachable on
      the inputs they are about.
    - A numpy array is a list; a slice assignment touches the positions
      [start, start + step, ...] below the length. *)

From Stdlib Require Import ZArith List Lia Bool Znumtheory Sorted Permutation.
From stdpp Require Import gmap sorting.
Import ListNotations.
Open Scope Z_scope.

(** ** Outcomes of a call *)

Inductive exn : Type :=
| ValueError
| IndexError
| ZeroDivisionError
| KeyError.

Inductive result (A : Type) : Type :=
| Ok (a : A)
| Raise (e : exn)
| OutOfFuel.

Arguments Ok {A} a.

Arguments Raise {A} e.

Arguments OutOfFuel {A}.

Definition rbind {A B : Type} (c : result A) (k : A -> result B) : result B :=
  match c with
  | Ok a => k a
  | Raise e => Raise e
  | OutOfFuel => OutOfFuel
  end.

Notation "'do' x <~ c ; k" := (rbind c (fun x => k))
  (at level 10, x name, c at level 100, k at level 200).

(** [a // b]: Python raises [ZeroDivisionError] on a zero divisor. *)
Definition floordiv (a b : Z) : result Z :=
  if b =? 0 then Raise ZeroDivisionError else Ok (a / b).

(** [int.bit_length()]: the number of bits of [|n|], 0 for 0. *)
Definition bit_length (n : Z) : Z :=
  if n =? 0 then 0 else Z.log2 (Z.abs n) + 1.

(** ** Integer Roots and Perfect Powers *)

(** The body of [newton]'s [while True]: [y = (x + n//x) // 2], then either
    [x = y] and another round, or [break]. *)
Fixpoint newton_loop (fuel : nat) (n x : Z) : result Z :=
  match fuel with
  | O => OutOfFuel
  | S fuel' =>
      do q <~ floordiv n x ;
      let y := (x + q) / 2 in
      if y <? x then newton_loop fuel' n y else Ok x
  end.

(** Rounds granted to a loop whose variable starts at [x] and goes down. *)
Definition fuel_from (x : Z) : nat := S (S (Z.to_nat x)).

Definition newton (n : Z) : result Z :=
  let x := 2 ^ ((bit_length n + 1) / 2) in
  newton_loop (fuel_from x) n x.

(** The [while lo < hi] loop shared by [binary] and [integer_sqrt]. *)
Fixpoint binary_loop (fuel : nat) (n hi lo : Z) : result Z :=
  match fuel with
  | O => OutOfFuel
  | S fuel' =>
      if lo <? hi then
        let hi' := (hi + lo) / 2 in
        do lo' <~ floordiv n hi' ;
        binary_loop fuel' n hi' lo'
      else Ok hi
  end.

Definition binary (n : Z) : result Z :=
  let hi := 2 ^ ((bit_length n + 1) / 2) in
  do lo <~ floordiv n hi ;
  binary_loop (fuel_from hi) n hi lo.

Definition integer_sqrt (n : Z) : result Z :=
  if n <? 0 then Raise ValueError
  else if n <=? 1 then Ok n
  else
    let hi := 2 ^ ((bit_length n + 1) / 2) in
    do lo <~ floordiv n hi ;
    binary_loop (fuel_from hi) n hi lo.

Definition is_square (n : Z) : result bool :=
  do r <~ integer_sqrt n ; Ok (r * r =? n).

(** One round of the k-th root iteration, as the loop body computes it once
    the division is known to be defined. *)
Definition newton_step (n k x : Z) : Z :=
  ((k - 1) * x + n / x ^ (k - 1)) / k.

Fixpoint kth_root_loop (fuel : nat) (n k x : Z) : result Z :=
  match fuel with
  | O => OutOfFuel
  | S fuel' =>
      do q <~ floordiv n (x ^ (k - 1)) ;
      let y := ((k - 1) * x + q) / k in
      if y <? x then kth_root_loop fuel' n k y else Ok x
  end.

(** The first value of [x] in [integer_kth_root]. *)
Definition kth_root_start (n k : Z) : Z := 2 ^ (bit_length n / k + 1).

Definition integer_kth_root (n k : Z) : result Z :=
  if n <? 0 then Raise ValueError
  else if k <? 1 then Raise ValueError
  else if n <=? 1 then Ok n
  else
    let x := kth_root_start n k in
    kth_root_loop (fuel_from x) n k x.

Definition is_kth_power (n k : Z) : result bool :=
  do r <~ integer_kth_root n k ; Ok (r ^ k =? n).

(** ** Python lists, ranges and numpy arrays *)

Definition len {A : Type} (l : list A) : Z := Z.of_nat (length l).

(** [range(a, b)]. *)
Definition range (a b : Z) : list Z :=
  map (fun i => a + Z.of_nat i) (seq 0 (Z.to_nat (b - a))).

(** [range(a, b, s)] for a step [s] other than 0 (every step in the
    notebooks is one of the literals 2, -1 and the block size). *)
Definition range_step (a b s : Z) : list Z :=
  let count := if 0 <? s then (b - a + s - 1) / s else (a - b - s - 1) / (- s) in
  map (fun i => a + s * Z.of_nat i) (seq 0 (Z.to_nat count)).

(** [for x in xs: body], threading the variables the body assigns. *)
Fixpoint for_each {S A : Type} (xs : list A) (body : A -> S -> result S) (s : S)
  : result S :=
  match xs with
  | [] => Ok s
  | x :: xs' =>
      match body x s with
      | Ok s' => for_each xs' body s'
      | Raise e => Raise e
      | OutOfFuel => OutOfFuel
      end
  end.

(** A scalar index into a sequence of [n] items: a negative one counts from
    the end, anything outside [-n, n) is an [IndexError]. *)
Definition norm_index (n i : Z) : result Z :=
  if (0 <=? i) && (i <? n) then Ok i
  else if (- n <=? i) && (i <? 0) then Ok (i + n)
  else Raise IndexError.

Fixpoint update_from {A : Type} (sel : Z -> bool) (f : A -> A) (i : Z) (l : list A)
  : list A :=
  match l with
  | [] => []
  | x :: r => (if sel i then f x else x) :: update_from sel f (i + 1) r
  end.

(** [l[i]]. *)
Definition getitem {A : Type} (d : A) (l : list A) (i : Z) : result A :=
  do j <~ norm_index (len l) i ; Ok (nth (Z.to_nat j) l d).

(** [l[i] = v]. *)
Definition setitem {A : Type} (l : list A) (i : Z) (v : A) : result (list A) :=
  do j <~ norm_index (len l) i ; Ok (update_from (Z.eqb j) (fun _ => v) 0 l).

(** The positions that [start::step] addresses in an array of [n] items: for
    a positive step [s, s + step, ...] from the clipped start [s]; for a
    negative one [s, s + step, ...] down to 0. *)
Definition in_slice (n start step i : Z) : bool :=
  if 0 <? step then
    let s := if start <? 0 then Z.max 0 (start + n) else start in
    (s <=? i) && ((i - s) mod step =? 0)
  else
    let s := if start <? 0 then start + n else Z.min start (n - 1) in
    (0 <=? s) && (i <=? s) && ((s - i) mod (- step) =? 0).

(** [l[start::step] = f(l[start::step])], elementwise. *)
Definition slice_update {A : Type} (l : list A) (start step : Z) (f : A -> A)
  : result (list A) :=
  if step =? 0 then Raise ValueError
  else Ok (update_from (in_slice (len l) start step) f 0 l).

(** [l[start::step] = v]. *)
Definition slice_assign {A : Type} (l : list A) (start step : Z) (v : A)
  : result (list A) :=
  slice_update l start step (fun _ => v).

(** [np.ones(n, dtype=bool)]; numpy refuses a negative dimension with a
    [ValueError]. *)
Definition np_ones (n : Z) : result (list bool) :=
  if n <? 0 then Raise ValueError else Ok (repeat true (Z.to_nat n)).

Fixpoint flatnonzero_from (i : Z) (l : list bool) : list Z :=
  match l with
  | [] => []
  | b :: r =>
      if b then i :: flatnonzero_from (i + 1) r else flatnonzero_from (i + 1) r
  end.

(** [np.flatnonzero(block)], also [np.where(block)[0]]. *)
Definition flatnonzero (l : list bool) : list Z := flatnonzero_from 0 l.

(** [np.count_nonzero(block)]. *)
Definition count_nonzero (l : list bool) : Z := len (flatnonzero l).

(** ** Prime Sieves *)

Definition eratosthenes (n : Z) : result (list Z) :=
  do block <~ np_ones (n + 1) ;
  do block <~ setitem block 0 false ;
  do block <~ setitem block 1 false ;
  do s <~ integer_sqrt n ;
  do block <~ for_each (range 2 (s + 1)) (fun k block =>
      do bk <~ getitem false block k ;
      if bk then slice_assign block (k * k) k false else Ok block) block ;
  Ok (flatnonzero block).

Definition eratosthenes2 (n : Z) : result (list Z) :=
  let block_size := (n + 1) / 2 in
  do block <~ np_ones block_size ;
  do block <~ setitem block 0 false ;
  do s <~ integer_sqrt n ;
  do block <~ for_each (range_step 3 (s + 1) 2) (fun k block =>
      do bk <~ getitem false block (k / 2) ;
      if bk then slice_assign block (k * k / 2) k false else Ok block) block ;
  Ok (2 :: map (fun i => 2 * i + 1) (flatnonzero block)).

(** The variables [c, k, t, block] that the loop of [luo] carries. *)
Record luo_state : Type := LuoState {
  luo_c : Z;
  luo_k : Z;
  luo_t : Z;
  luo_block : list bool
}.

Definition luo_body (i : Z) (st : luo_state) : result luo_state :=
  let k := 3 - luo_k st in
  let c := luo_c st + 4 * k * i in
  let t := luo_t st + 4 * k in
  do bi <~ getitem false (luo_block st) i ;
  if bi then
    let b := c + 2 * i * (3 - k) + 1 in
    do block <~ slice_assign (luo_block st) c t false ;
    do block <~ slice_assign block b t false ;
    Ok (LuoState c k t block)
  else Ok (LuoState c k t (luo_block st)).

Definition luo (n : Z) : result (list Z) :=
  let block_size := (n + 1) / 3 + (if n mod 6 =? 1 then 1 else 0) in
  do block <~ np_ones block_size ;
  do block <~ setitem block 0 false ;
  do s <~ integer_sqrt n ;
  do st <~ for_each (range 1 (s / 3 + 1)) luo_body (LuoState 0 1 2 block) ;
  Ok (2 :: 3 :: map (fun i => Z.lor (3 * i + 1) 1) (flatnonzero (luo_block st))).

(** [a % b]. *)
Definition pymod (a b : Z) : result Z :=
  if b =? 0 then Raise ZeroDivisionError else Ok (a mod b).

(** One block of [sieve_interval]: the numbers [start, start + size) that no
    small prime divides. numpy forms [start + nonzero] in 64-bit integers;
    the model adds in [Z], which is the same sum as long as the values stay
    below [2^63]. *)
Definition sieve_block (small_primes : list Z) (start size : Z) : result (list Z) :=
  do block <~ np_ones size ;
  do block <~ for_each small_primes (fun p block =>
      do q <~ floordiv start p ;
      do r <~ pymod start p ;
      let multiple := (q + (if 0 <? r then 1 else 0)) * p in
      slice_assign block (multiple - start) p false) block ;
  Ok (map (fun i => start + i) (flatnonzero block)).

(** [list(sieve_interval(a, b))] with the block size as a parameter: the
    values the generator yields, in order. *)
Definition sieve_interval_with (block_size a b : Z) : result (list Z) :=
  do sqrt <~ integer_sqrt b ;
  do small_primes <~ luo sqrt ;
  let first := List.filter (fun p => (a <=? p) && (p <? b)) small_primes in
  do rest <~ for_each (range_step (Z.max (sqrt + 1) a) b block_size)
      (fun start yielded =>
        do ps <~ sieve_block small_primes start (Z.min block_size (b - start)) ;
        Ok (yielded ++ ps)) [] ;
  Ok (first ++ rest).

Definition sieve_interval (a b : Z) : result (list Z) :=
  sieve_interval_with (10 ^ 6) a b.

(** ** Counting Squarefree Numbers *)

(** [primes] of the counting notebook: the sieve of Eratosthenes with the
    loop bound [integer_sqrt(n + 1)]. *)
Definition primes (n : Z) : result (list Z) :=
  do block <~ np_ones (n + 1) ;
  do block <~ setitem block 0 false ;
  do block <~ setitem block 1 false ;
  do s <~ integer_sqrt (n + 1) ;
  do block <~ for_each (range 2 (s + 1)) (fun p block =>
      do bp <~ getitem false block p ;
      if bp then slice_assign block (p * p) p false else Ok block) block ;
  Ok (flatnonzero block).

Definition Q_sieve (n : Z) : result Z :=
  do block <~ np_ones (n + 1) ;
  do block <~ setitem block 0 false ;
  do s <~ integer_sqrt n ;
  let bound := s + 1 in
  do ps <~ primes bound ;
  do block <~ for_each ps (fun p block =>
      slice_assign block (p * p) (p * p) false) block ;
  Ok (count_nonzero block).

Definition Q_segmented_block (prime_squares : list Z) (start size : Z) : result Z :=
  do block <~ np_ones size ;
  do block <~ for_each prime_squares (fun p2 block =>
      do q <~ floordiv start p2 ;
      do r <~ pymod start p2 ;
      let multiple := (q + (if 0 <? r then 1 else 0)) * p2 in
      slice_assign block (multiple - start) p2 false) block ;
  Ok (count_nonzero block).

Definition Q_segmented (n : Z) : result Z :=
  do s <~ integer_sqrt n ;
  do ps <~ primes (s + 1) ;
  let prime_squares := map (fun p => p ^ 2) ps in
  let block_size := 2 ^ 20 in
  for_each (range_step 1 (n + 1) block_size) (fun start count =>
    do c <~ Q_segmented_block prime_squares start (Z.min block_size (n - start + 1)) ;
    Ok (count + c)) 0.

(** The memo dictionary of [Q_memo]: the default argument [cache={1: 1}] is
    one object, created when the function is defined and shared by every
    call that leaves [cache] out, the recursive ones included. A call
    therefore takes the dictionary as it stands and leaves the dictionary it
    has extended, also when an exception escapes it. *)
Definition memo_initial : gmap Z Z := {[ 1 := 1 ]}.

(** [sum(f(a) for a in args)], the calls made in order on the shared
    dictionary. *)
Fixpoint sum_calls (f : Z -> gmap Z Z -> result Z * gmap Z Z) (args : list Z)
    (acc : Z) (cache : gmap Z Z) : result Z * gmap Z Z :=
  match args with
  | [] => (Ok acc, cache)
  | a :: rest =>
      match f a cache with
      | (Ok v, cache') => sum_calls f rest (acc + v) cache'
      | (Raise e, cache') => (Raise e, cache')
      | (OutOfFuel, cache') => (OutOfFuel, cache')
      end
  end.

(** [Q_memo(x)] on the shared dictionary; the fuel bounds the recursion
    depth. *)
Fixpoint Q_memo_rec (fuel : nat) (x : Z) (cache : gmap Z Z) : result Z * gmap Z Z :=
  match fuel with
  | O => (OutOfFuel, cache)
  | S fuel' =>
      match cache !! x with
      | Some v => (Ok v, cache)
      | None =>
          match integer_sqrt x with
          | Ok s =>
              match sum_calls (Q_memo_rec fuel')
                      (map (fun k => x / k ^ 2) (range 2 (s + 1))) 0 cache with
              | (Ok total, cache') => (Ok (x - total), <[ x := x - total ]> cache')
              | (Raise e, cache') => (Raise e, cache')
              | (OutOfFuel, cache') => (OutOfFuel, cache')
              end
          | Raise e => (Raise e, cache)
          | OutOfFuel => (OutOfFuel, cache)
          end
      end
  end.

Definition Q_memo (x : Z) (cache : gmap Z Z) : result Z * gmap Z Z :=
  Q_memo_rec (fuel_from x) x cache.

(** [cache[k]]. *)
Definition dict_get (cache : gmap Z Z) (k : Z) : result Z :=
  match cache !! k with
  | Some v => Ok v
  | None => Raise KeyError
  end.

(** The [while] loop of [Q_dp] that collects [x//k**2] while it still
    decreases. *)
Fixpoint Q_dp_values (fuel : nat) (x k : Z) (V : list Z) : result (list Z) :=
  match fuel with
  | O => OutOfFuel
  | S fuel' =>
      if x / (k + 1) ^ 2 <? x / k ^ 2
      then Q_dp_values fuel' x (k + 1) (V ++ [x / k ^ 2])
      else Ok V
  end.

(** The list [V] of [Q_dp] as it stands after [V += range(V[-1] - 1, -1, -1)]. *)
Definition Q_dp_V (x : Z) : result (list Z) :=
  do V <~ Q_dp_values (fuel_from x) x 1 [] ;
  do v <~ getitem 0 V (-1) ;
  Ok (V ++ range_step (v - 1) (-1) (-1)).

(** [cache[k] -= cache[k//l**2]]. *)
Definition Q_dp_correct (k l : Z) (cache : gmap Z Z) : result (gmap Z Z) :=
  do a <~ dict_get cache k ;
  do b <~ dict_get cache (k / l ^ 2) ;
  Ok (<[ k := a - b ]> cache).

(** The body of [for k in sorted(V)]. *)
Definition Q_dp_finalize (k : Z) (cache : gmap Z Z) : result (gmap Z Z) :=
  do s <~ integer_sqrt k ;
  for_each (range 2 (s + 1)) (Q_dp_correct k) cache.

(** [{i: i for i in V}]. *)
Definition Q_dp_seed (V : list Z) : gmap Z Z :=
  fold_left (fun c i => <[ i := i ]> c) V ∅.

Definition Q_dp (x : Z) : result Z :=
  if (x =? 0) || (x =? 1) then Ok x
  else
    do V <~ Q_dp_V x ;
    do cache <~ for_each (merge_sort Z.le V) Q_dp_finalize (Q_dp_seed V) ;
    dict_get cache x.

(** numpy keeps the array of [Q_moebius] in 64-bit signed integers (the
    dtype it infers for a list of Python integers that fit): arithmetic on
    its items wraps. For [n >= 2**63] numpy infers another dtype, which this
    model does not cover. *)
Definition wrap64 (v : Z) : Z := (v + 2 ^ 63) mod 2 ^ 64 - 2 ^ 63.

Definition sum_list (l : list Z) : Z := fold_right Z.add 0 l.

Definition Q_moebius (n : Z) : result Z :=
  do s <~ integer_sqrt n ;
  let bound := s + 1 in
  let block := map (fun d => n / d ^ 2) (range 1 bound) in
  do ps <~ primes bound ;
  do block <~ for_each ps (fun p block =>
      do block <~ slice_update block (p - 1) p (fun v => wrap64 (v * -1)) ;
      slice_assign block (p * p - 1) (p * p) 0) block ;
  Ok (wrap64 (sum_list block)).

(** ** Prime Sieves: the odd-only segmented sieve *)

(** One block of [sieve_interval2]: entry [i] stands for the odd number
    [start + 1 + 2 i]. In [-(start + 1 + p)//2 % p] the unary minus binds
    first, then [//] and [%] from the left. numpy forms
    [2*nonzero + (start + 1)] in 64-bit integers; the model adds in [Z],
    which is the same sum as long as the values stay below [2^63]. *)
Definition sieve_block2 (small_primes : list Z) (start size : Z) : result (list Z) :=
  do block <~ np_ones size ;
  do block <~ for_each small_primes (fun p block =>
      do offset <~ pymod ((- (start + 1 + p)) / 2) p ;
      slice_assign block offset p false) block ;
  Ok (map (fun i => 2 * i + (start + 1)) (flatnonzero block)).

(** [list(sieve_interval2(a, b))] with the block size as a parameter: the
    values the generator yields, in order. [luo(sqrt)[1:]] drops the first
    item of the list. *)
Definition sieve_interval2_with (block_size a b : Z) : result (list Z) :=
  do sqrt <~ integer_sqrt b ;
  do all_primes <~ luo sqrt ;
  let small_primes := skipn 1 all_primes in
  let two := if a <=? 2 then [2] else [] in
  let first := List.filter (fun p => (a <=? p) && (p <? b)) small_primes in
  let bb := b + b mod 2 in
  let aa := Z.max (sqrt + 1) a in
  let aa := aa - aa mod 2 in
  do rest <~ for_each (range_step aa bb (2 * block_size))
      (fun start yielded =>
        do ps <~ sieve_block2 small_primes start
                   (Z.min block_size ((bb - start) / 2)) ;
        Ok (yielded ++ ps)) [] ;
  Ok (two ++ first ++ rest).

Definition sieve_interval2 (a b : Z) : result (list Z) :=
  sieve_interval2_with (10 ^ 6) a b.

(** ** Counting Squarefree Numbers: the brute-force count *)

(** [d[k]] on a dictionary: a missing key is a [KeyError]. *)
Definition dict_item {V : Type} (d : gmap Z V) (k : Z) : result V :=
  match d !! k with
  | Some v => Ok v
  | None => Raise KeyError
  end.

(** [{k: v for k in ks}]. *)
Definition dict_from_keys {V : Type} (ks : list Z) (v : V) : gmap Z V :=
  fold_left (fun d k => <[ k := v ]> d) ks ∅.

(** The two variables [block] and [factors] of [factorizations]. *)
Record factor_state : Type := FactorState {
  fs_block : list Z;
  fs_factors : gmap Z (gmap Z Z)
}.

(** [while block[multiple] % d == 0: block[multiple] //= d;
    factors[multiple][d] += 1]. The inner dictionaries are objects of
    their own, one per key, so the update of [factors[multiple]] in place is
    the update of that one entry. *)
Fixpoint divide_out (fuel : nat) (d multiple : Z) (st : factor_state)
  : result factor_state :=
  match fuel with
  | O => OutOfFuel
  | S fuel' =>
      do v <~ getitem 0 (fs_block st) multiple ;
      do r <~ pymod v d ;
      if r =? 0 then
        do q <~ floordiv v d ;
        do block <~ setitem (fs_block st) multiple q ;
        do f <~ dict_item (fs_factors st) multiple ;
        do e <~ dict_item f d ;
        divide_out fuel' d multiple
          (FactorState block (<[ multiple := <[ d := e + 1 ]> f ]> (fs_factors st)))
      else Ok st
  end.

(** The body of [for multiple in range(d, n, d)]; the value in
    [block[multiple]] is at most [multiple] and goes down in the loop. *)
Definition factor_multiple (d multiple : Z) (st : factor_state) : result factor_state :=
  do f <~ dict_item (fs_factors st) multiple ;
  divide_out (fuel_from multiple) d multiple
    (FactorState (fs_block st) (<[ multiple := <[ d := 0 ]> f ]> (fs_factors st))).

(** The body of [for d in range(2, n)]. *)
Definition factor_round (n d : Z) (st : factor_state) : result factor_state :=
  do v <~ getitem 0 (fs_block st) d ;
  if v =? 1 then Ok st
  else for_each (range_step d n d) (factor_multiple d) st.

Definition factorizations (n : Z) : result (gmap Z (gmap Z Z)) :=
  let block := range 0 n in
  let factors := dict_from_keys (range 1 n) (∅ : gmap Z Z) in
  let factors := <[ 1 := {[ 1 := 1 ]} ]> factors in
  do st <~ for_each (range 2 n) (factor_round n) (FactorState block factors) ;
  Ok (fs_factors st).

(** [d.values()], in some order; what is computed from it below does not
    depend on the order. *)
Definition dict_values {V : Type} (d : gmap Z V) : list V :=
  map snd (map_to_list d).

Definition is_squarefree (factorization : gmap Z Z) : bool :=
  forallb (fun e => e =? 1) (dict_values factorization).

(** [sum(is_squarefree(f) for f in factorizations(n + 1).values())]: each
    [True] counts 1. *)
Definition Q_factorizations (n : Z) : result Z :=
  do fs <~ factorizations (n + 1) ;
  Ok (sum_list (map (fun f => Z.b2z (is_squarefree f)) (dict_values fs))).

(** The product the notebook checks each factorization with:
    [product *= p**e] over the items. *)
Definition factorization_product (factorization : gmap Z Z) : Z :=
  map_fold (fun p e product => product * p ^ e) 1 factorization.

Definition divisors (n : Z) : result (gmap Z (list Z)) :=
  let divs := dict_from_keys (range 1 n) [1] in
  for_each (range 2 n) (fun d divs =>
    for_each (range_step d n d) (fun multiple divs =>
      do l <~ dict_item divs multiple ;
      Ok (<[ multiple := l ++ [d] ]> divs)) divs) divs.

(** ** Specifications, invariants and proof tools *)

(** The iterates of a run of the k-th root loop after [x]: each is the
    Newton round of the one before and is smaller than it. *)
Fixpoint newton_run (n k x : Z) (xs : list Z) : Prop :=
  match xs with
  | [] => True
  | y :: rest => y = newton_step n k x /\ y < x /\ newton_run n k y rest
  end.

(** The start value as the specification words it, [2^ceil(bitlen(n)/k)]. *)
Definition spec_root_start (n k : Z) : Z := 2 ^ ((bit_length n + k - 1) / k).

(** [bit l i]: the item [i] of a boolean array, for an index in range. *)
Definition bit (l : list bool) (i : Z) : bool := nth (Z.to_nat i) l false.

(** Primality by trial division, the oracle the sieves are compared with. *)
Definition is_prime (n : Z) : bool :=
  (2 <=? n) && forallb (fun d => negb (n mod d =? 0)) (range 2 n).

(** The primes [p] with [a <= p < b], in increasing order. *)
Definition primes_in (a b : Z) : list Z := List.filter is_prime (range a b).

(** The body of the loop of [eratosthenes] and of [primes]. *)
Definition sieve_body (k : Z) (block : list bool) : result (list bool) :=
  do bk <~ getitem false block k ;
  if bk then slice_assign block (k * k) k false else Ok block.

(** The flags after the rounds [2..j]: a number is still flagged when it is
    at least 2 and no prime up to [j] divides it from its square on. *)
Definition sieved (j n : Z) (block : list bool) : Prop :=
  len block = n + 1 /\
  forall i, 0 <= i <= n ->
    (bit block i = true <->
     2 <= i /\ forall p, Z.prime p -> p <= j -> p * p <= i -> ~ (p | i)).

(** [zsum f a b] is the sum of [f i] over [a <= i < b]. *)
Definition zsum (f : Z -> Z) (a b : Z) : Z := sum_list (map f (range a b)).

(** The indicator of a test. *)
Definition ind (b : bool) : Z := if b then 1 else 0.

(** A positive integer that no square greater than 1 divides. *)
Definition squarefree (m : Z) : Prop := 0 < m /\ forall d, 1 < d -> ~ (d * d | m).

(** The same, by trial division. *)
Definition squarefreeb (m : Z) : bool :=
  (0 <? m) && forallb (fun d => negb (m mod (d * d) =? 0)) (range 2 (m + 1)).

(** [Q(x)]: the number of squarefree integers in [1, x]. *)
Definition squarefree_count (x : Z) : Z :=
  len (List.filter squarefreeb (range 1 (x + 1))).

(** The flags of [Q_sieve] after the primes [ps]. *)
Definition square_sieved (ps : list Z) (n : Z) (block : list bool) : Prop :=
  len block = n + 1 /\
  forall i, 0 <= i <= n ->
    (bit block i = true <-> 1 <= i /\ forall p, In p ps -> ~ (p * p | i)).

(** What one prime [p] of the loop does to the entry of index [d - 1]: it
    zeroes it when [p^2] divides [d], flips its sign when only [p] does. *)
Definition mu_factor (p d : Z) : Z :=
  if d mod (p * p) =? 0 then 0 else if d mod p =? 0 then -1 else 1.

(** The weight the primes [ps] have put on [d]. *)
Definition mu_sieve (ps : list Z) (d : Z) : Z :=
  fold_right (fun p acc => acc * mu_factor p d) 1 ps.

(** The term of [d] in the sum over the squares dividing [m]. *)
Definition mu_term (ps : list Z) (m d : Z) : Z :=
  if m mod (d * d) =? 0 then mu_sieve ps d else 0.

(** What the proofs need of the primes the loop runs through. *)
Definition primes_upto (ps : list Z) (s : Z) : Prop :=
  List.NoDup ps /\ (forall p, In p ps -> Z.prime p) /\
  (forall q, Z.prime q -> q <= s -> In q ps).

(** The entries after the primes [pre]: entry [d - 1] holds [n // d^2] times
    the weight of [d]. *)
Definition moebius_state (n s : Z) (pre : list Z) (block : list Z) : Prop :=
  len block = s /\
  forall d, 1 <= d <= s ->
    nth (Z.to_nat (d - 1)) block 0 = n / (d * d) * mu_sieve pre d.

(** What every state of the shared dictionary satisfies: its keys are
    non-negative and each holds the count for its key. *)
Definition cache_ok (c : gmap Z Z) : Prop :=
  forall k v, c !! k = Some v -> 0 <= k /\ v = squarefree_count k.

(** The states of the shared dictionary that calls of [Q_memo] can leave. *)
Inductive memo_reachable : gmap Z Z -> Prop :=
| reach_initial : memo_reachable memo_initial
| reach_call (x : Z) (c : gmap Z Z) :
    memo_reachable c -> memo_reachable (snd (Q_memo x c)).

(** What [Q_dp_V x] is made of: the quotients [x // j^2] for [j < K], which
    decrease strictly, then every integer below the last of them. *)
Definition dp_shape (x K : Z) (V : list Z) : Prop :=
  2 <= K /\
  (forall j, 1 <= j < K -> x / (j + 1) ^ 2 < x / j ^ 2) /\
  V = map (fun j => x / j ^ 2) (range 1 K)
        ++ range_step (x / (K - 1) ^ 2 - 1) (-1) (-1).

(** The dictionary after the keys [done] of the pass: a key already visited
    holds its count, a key of [V] not yet visited holds itself. *)
Definition dp_state (V done : list Z) (c : gmap Z Z) : Prop :=
  (forall v, In v done -> c !! v = Some (squarefree_count v)) /\
  (forall v, In v V -> ~ In v done -> c !! v = Some v).

(** Linear arithmetic with the quotients and remainders of [//] and [%]. *)
Ltac mod_lia := Z.div_mod_to_equations; lia.

(** The number that index [i] of [luo]'s array stands for: 1, 5, 7, 11, ...,
    the numbers prime to 6. *)
Definition wheel (i : Z) : Z := Z.lor (3 * i + 1) 1.

(** The flags after round [i]: index [j] is still flagged when no prime up
    to [wheel i] divides [wheel j] from its square on. *)
Definition luo_flags (size i : Z) (block : list bool) : Prop :=
  len block = size /\
  forall j, 0 <= j < size ->
    (bit block j = true <->
     1 <= j /\
     forall q, Z.prime q -> q <= wheel i -> q * q <= wheel j -> ~ (q | wheel j)).

(** The whole state after round [i]. *)
Definition luo_inv (size i : Z) (st : luo_state) : Prop :=
  luo_k st = 1 + i mod 2 /\ luo_t st = 2 * wheel i /\
  3 * luo_c st + 1 = wheel i * wheel i /\ luo_c st mod 2 = 0 /\
  luo_flags size i (luo_block st).

(** What a block keeps: the numbers that no prime of the list divides. *)
Definition unsieved (ps : list Z) (x : Z) : bool :=
  forallb (fun p => negb (x mod p =? 0)) ps.

(** The flags of a block after the primes [pre]. *)
Definition block_flags (start size : Z) (pre : list Z) (block : list bool) : Prop :=
  len block = size /\
  forall j, 0 <= j < size -> bit block j = unsieved pre (start + j).

(** The flags after the rounds up to [K]: index [j], which stands for the
    odd number [2 j + 1], is still flagged when no prime up to [K] divides
    that number from its square on. *)
Definition odd_flags (size K : Z) (block : list bool) : Prop :=
  len block = size /\
  forall j, 0 <= j < size ->
    (bit block j = true <->
     1 <= j /\
     forall q, Z.prime q -> q <= K -> q * q <= 2 * j + 1 -> ~ (q | 2 * j + 1)).

(** The flags of a block of [sieve_interval2] after the primes [pre]. *)
Definition block_flags2 (start size : Z) (pre : list Z) (block : list bool) : Prop :=
  len block = size /\
  forall j, 0 <= j < size -> bit block j = unsieved pre (2 * j + (start + 1)).

(** What [block[k]] and [factors[k]] hold once the rounds [d < D] are over:
    [r] is what is left of [k], with prime factors from [D] on only, and [f]
    maps the primes below [D] that divide [k] to their exact exponents. *)
Definition entry_ok (D k r : Z) (f : gmap Z Z) : Prop :=
  1 <= r /\ r * factorization_product f = k /\
  (forall q, Z.prime q -> (q | r) -> D <= q) /\
  (forall p, is_Some (f !! p) <-> Z.prime p /\ p < D /\ (p | k)) /\
  (forall p e, f !! p = Some e -> 1 <= e /\ (p ^ e | k) /\ ~ (p ^ (e + 1) | k)).

(** The state in round [D]: the entries [done] are through the round, the
    others are as they were before it. Key 1 holds [{1: 1}] throughout, and
    there are no keys but 1 and [2, ..., n - 1]. *)
Definition factor_inv (n D : Z) (done : Z -> bool) (st : factor_state) : Prop :=
  len (fs_block st) = n /\
  fs_factors st !! 1 = Some {[ 1 := 1 ]} /\
  (forall k, k < 1 \/ (n <= k /\ k <> 1) -> fs_factors st !! k = None) /\
  (forall k, 2 <= k < n -> exists f, fs_factors st !! k = Some f /\
     entry_ok (if done k then D + 1 else D) k (nth (Z.to_nat k) (fs_block st) 0) f).

(** The factorization [f] of [k]: its keys are the primes that divide [k],
    each with its exact exponent. *)
Definition factorization_of (k : Z) (f : gmap Z Z) : Prop :=
  (forall p, is_Some (f !! p) <-> Z.prime p /\ (p | k)) /\
  (forall p e, f !! p = Some e -> 1 <= e /\ (p ^ e | k) /\ ~ (p ^ (e + 1) | k)) /\
  factorization_product f = k.

(** The positive divisors of [k] below [D], in increasing order. *)
Definition divisors_below (k D : Z) : list Z :=
  List.filter (fun d => k mod d =? 0) (range 1 D).

(** The dictionary in round [D]: the lists of the keys [done] have [D]
    appended already. *)
Definition div_inv (n D : Z) (done : Z -> bool) (divs : gmap Z (list Z)) : Prop :=
  forall k, divs !! k =
    if (1 <=? k) && (k <? n)
    then Some (divisors_below k D ++ (if done k then [D] else []))
    else None.

(** * Properties of the embedded code *)

(** * Integer roots *)

Lemma floordiv_ok (a b : Z) : b <> 0 -> floordiv a b = Ok (a / b).
Proof. intros H. unfold floordiv. destruct (Z.eqb_spec b 0); [lia | reflexivity]. Qed.

Lemma bit_length_bounds (n : Z) :
  0 < n -> 0 < bit_length n /\ 2 ^ (bit_length n - 1) <= n < 2 ^ bit_length n.
Proof.
  intros Hn. unfold bit_length.
  destruct (Z.eqb_spec n 0) as [->|_]; [lia|].
  rewrite Z.abs_eq by lia.
  pose proof (Z.log2_spec n Hn) as [Hlo Hhi].
  pose proof (Z.log2_nonneg n).
  replace (Z.log2 n + 1 - 1) with (Z.log2 n) by lia.
  replace (Z.log2 n + 1) with (Z.succ (Z.log2 n)) by lia.
  repeat split; lia.
Qed.

(** The tangent of [t ^ (j+1)] at [x] lies below the curve: the inequality
    behind every Newton round. *)
Lemma tangent_below (j : nat) (x z : Z) :
  0 <= x -> 0 <= z ->
  ((Z.of_nat j + 1) * z - Z.of_nat j * x) * x ^ Z.of_nat j <= z ^ (Z.of_nat j + 1).
Proof.
  intros Hx Hz. induction j as [|j IH].
  - simpl. lia.
  - rewrite Nat2Z.inj_succ. unfold Z.succ.
    set (J := Z.of_nat j) in *. assert (0 <= J) by (unfold J; lia).
    rewrite (Z.pow_add_r x J 1), (Z.pow_add_r z (J + 1) 1) by lia.
    rewrite !Z.pow_1_r.
    assert (Hp : 0 <= x ^ J) by (apply Z.pow_nonneg; lia).
    assert (Hq : 0 <= z ^ (J + 1)) by (apply Z.pow_nonneg; lia).
    set (P := x ^ J) in *. set (R := z ^ (J + 1)) in *.
    assert (H1 : z * (((J + 1) * z - J * x) * P) <= z * R)
      by (apply Z.mul_le_mono_nonneg_l; lia).
    assert (H2 : 0 <= (J + 1) * ((z - x) * (z - x)) * P).
    { apply Z.mul_nonneg_nonneg; [|lia]. apply Z.mul_nonneg_nonneg; [lia|].
      apply Z.square_nonneg. }
    nia.
Qed.

Lemma tangent_below_Z (k x z : Z) :
  1 <= k -> 0 <= x -> 0 <= z ->
  (k * z - (k - 1) * x) * x ^ (k - 1) <= z ^ k.
Proof.
  intros Hk Hx Hz.
  pose proof (tangent_below (Z.to_nat (k - 1)) x z Hx Hz) as H.
  rewrite Z2Nat.id in H by lia.
  replace (k - 1 + 1) with k in H by lia. exact H.
Qed.

(** A Newton round from [x > 0] lands on a value whose successor is still
    above the root. *)
Lemma newton_step_above (n k x : Z) :
  0 <= n -> 1 <= k -> 0 < x -> n < (newton_step n k x + 1) ^ k.
Proof.
  intros Hn Hk Hx. unfold newton_step.
  assert (HP : 0 < x ^ (k - 1)) by (apply Z.pow_pos_nonneg; lia).
  set (P := x ^ (k - 1)) in *.
  set (q := n / P).
  assert (Hq : 0 <= q) by (apply Z.div_pos; lia).
  assert (Hnq : n < (q + 1) * P).
  { pose proof (Z.mod_pos_bound n P HP). pose proof (Z.div_mod n P ltac:(lia)).
    fold q in H0. nia. }
  set (y := ((k - 1) * x + q) / k).
  assert (Hy : (k - 1) * x + q < k * (y + 1)).
  { pose proof (Z.mod_pos_bound ((k - 1) * x + q) k ltac:(lia)).
    pose proof (Z.div_mod ((k - 1) * x + q) k ltac:(lia)). fold y in H0. lia. }
  assert (Hy0 : 0 <= y) by (apply Z.div_pos; nia).
  pose proof (tangent_below_Z k x (y + 1) Hk ltac:(lia) ltac:(lia)) as HT.
  fold P in HT.
  assert ((q + 1) * P <= (k * (y + 1) - (k - 1) * x) * P)
    by (apply Z.mul_le_mono_nonneg_r; lia).
  lia.
Qed.

(** When the round does not go down, [x] is at most the root. *)
Lemma newton_step_stop (n k x : Z) :
  0 <= n -> 1 <= k -> 0 < x -> x <= newton_step n k x -> x ^ k <= n.
Proof.
  intros Hn Hk Hx. unfold newton_step.
  assert (HP : 0 < x ^ (k - 1)) by (apply Z.pow_pos_nonneg; lia).
  replace (x ^ k) with (x * x ^ (k - 1)).
  2:{ replace k with (1 + (k - 1)) at 2 by lia.
      rewrite Z.pow_add_r by lia. rewrite Z.pow_1_r. reflexivity. }
  set (P := x ^ (k - 1)) in *.
  set (q := n / P). intros Hle.
  assert (Hqx : x <= q).
  { destruct (Z_lt_le_dec q x) as [Hlt|]; [|lia]. exfalso.
    assert (((k - 1) * x + q) / k < x); [|lia].
    apply Z.div_lt_upper_bound; lia. }
  pose proof (Z.mod_pos_bound n P HP). pose proof (Z.div_mod n P ltac:(lia)).
  fold q in H0. nia.
Qed.

Lemma pow_succ_gt_1 (y k : Z) : 1 <= k -> 0 <= y -> 1 < (y + 1) ^ k -> 0 < y.
Proof.
  intros Hk Hy H. destruct (Z.eq_dec y 0) as [->|]; [|lia].
  simpl in H. rewrite Z.pow_1_l in H by lia. lia.
Qed.

Lemma newton_step_nonneg (n k x : Z) :
  0 <= n -> 1 <= k -> 0 < x -> 0 <= newton_step n k x.
Proof.
  intros Hn Hk Hx. unfold newton_step.
  assert (0 < x ^ (k - 1)) by (apply Z.pow_pos_nonneg; lia).
  assert (0 <= n / x ^ (k - 1)) by (apply Z.div_pos; lia).
  apply Z.div_pos; nia.
Qed.

Lemma kth_root_loop_unfold (fuel : nat) (n k x : Z) :
  1 <= k -> 0 < x ->
  kth_root_loop (S fuel) n k x =
    if newton_step n k x <? x then kth_root_loop fuel n k (newton_step n k x)
    else Ok x.
Proof.
  intros Hk Hx. simpl.
  assert (0 < x ^ (k - 1)) by (apply Z.pow_pos_nonneg; lia).
  rewrite floordiv_ok by lia. reflexivity.
Qed.

(** The loop of [integer_kth_root] from any positive [x] above the root. *)
Lemma kth_root_loop_spec (fuel : nat) (n k x : Z) :
  1 <= n -> 1 <= k -> 0 < x -> n < (x + 1) ^ k -> (Z.to_nat x < fuel)%nat ->
  exists m, kth_root_loop fuel n k x = Ok m /\ 0 < m <= x /\ m ^ k <= n < (m + 1) ^ k.
Proof.
  revert x. induction fuel as [|fuel IH]; intros x Hn Hk Hx Hup Hfuel; [lia|].
  rewrite kth_root_loop_unfold by lia.
  destruct (Z.ltb_spec (newton_step n k x) x) as [Hlt|Hge].
  - pose proof (newton_step_above n k x ltac:(lia) Hk Hx) as Hab.
    pose proof (newton_step_nonneg n k x ltac:(lia) Hk Hx) as Hnn.
    assert (0 < newton_step n k x) by (apply (pow_succ_gt_1 _ k); lia).
    destruct (IH (newton_step n k x)) as (m & Hm & Hmx & Hspec); try lia.
    exists m. repeat split; try tauto; lia.
  - exists x. repeat split; try lia.
    apply newton_step_stop; lia.
Qed.

Lemma kth_root_start_above (n k : Z) :
  1 <= n -> 1 <= k -> 0 < kth_root_start n k /\ n < kth_root_start n k ^ k.
Proof.
  intros Hn Hk. unfold kth_root_start.
  destruct (bit_length_bounds n ltac:(lia)) as (Hb & _ & Hhi).
  set (b := bit_length n) in *.
  assert (0 <= b / k) by (apply Z.div_pos; lia).
  split; [apply Z.pow_pos_nonneg; lia|].
  rewrite <- Z.pow_mul_r by lia.
  eapply Z.lt_le_trans; [exact Hhi|].
  apply Z.pow_le_mono_r; [lia|].
  pose proof (Z.mod_pos_bound b k ltac:(lia)). pose proof (Z.div_mod b k ltac:(lia)).
  nia.
Qed.

Lemma pow_lt_succ (x k : Z) : 1 <= k -> 0 < x -> x ^ k < (x + 1) ^ k.
Proof. intros Hk Hx. apply Z.pow_lt_mono_l; lia. Qed.

(** The floor k-th root is unique. *)
Lemma floor_root_unique (n k m m' : Z) :
  1 <= k -> 0 <= m -> 0 <= m' ->
  m ^ k <= n < (m + 1) ^ k -> m' ^ k <= n < (m' + 1) ^ k -> m = m'.
Proof.
  intros Hk Hm Hm' [H1 H2] [H3 H4].
  destruct (Z_lt_le_dec m m') as [Hlt|Hle].
  - assert ((m + 1) ^ k <= m' ^ k) by (apply Z.pow_le_mono_l; lia). lia.
  - destruct (Z_lt_le_dec m' m) as [Hlt|Hle']; [|lia].
    assert ((m' + 1) ^ k <= m ^ k) by (apply Z.pow_le_mono_l; lia). lia.
Qed.

Lemma integer_kth_root_spec (n k : Z) :
  0 <= n -> 1 <= k ->
  exists m, integer_kth_root n k = Ok m /\ 0 <= m /\ m ^ k <= n < (m + 1) ^ k.
Proof.
  intros Hn Hk. unfold integer_kth_root.
  destruct (Z.ltb_spec n 0); [lia|]. destruct (Z.ltb_spec k 1); [lia|].
  destruct (Z.leb_spec n 1) as [Hsmall|Hbig].
  - exists n. split; [reflexivity|]. split; [lia|].
    assert (n = 0 \/ n = 1) as [-> | ->] by lia.
    + rewrite Z.pow_0_l by lia. simpl. rewrite Z.pow_1_l by lia. lia.
    + rewrite Z.pow_1_l by lia. split; [lia|].
      replace 1 with (1 ^ k) at 1 by (apply Z.pow_1_l; lia).
      apply Z.pow_lt_mono_l; lia.
  - destruct (kth_root_start_above n k ltac:(lia) Hk) as [Hpos Hab].
    set (x := kth_root_start n k) in *.
    assert (Hab' : n < (x + 1) ^ k)
      by (eapply Z.lt_trans; [exact Hab | apply pow_lt_succ; lia]).
    assert (Hfuel : (Z.to_nat x < fuel_from x)%nat) by (unfold fuel_from; lia).
    destruct (kth_root_loop_spec (fuel_from x) n k x ltac:(lia) Hk Hpos Hab' Hfuel)
      as (m & Hm & Hmx & Hspec).
    exists m. repeat split; try tauto; lia.
Qed.

(** ** Square roots: [newton], [binary], [integer_sqrt] *)

Lemma newton_step_2 (n x : Z) : newton_step n 2 x = (x + n / x) / 2.
Proof.
  unfold newton_step. change (2 - 1) with 1.
  rewrite Z.pow_1_r, Z.mul_1_l. reflexivity.
Qed.

Lemma newton_loop_kth (fuel : nat) (n x : Z) :
  newton_loop fuel n x = kth_root_loop fuel n 2 x.
Proof.
  revert x. induction fuel as [|fuel IH]; intros x; [reflexivity|].
  simpl. change (2 - 1) with 1. rewrite Z.pow_1_r, Z.mul_1_l.
  destruct (floordiv n x); simpl; try reflexivity.
  destruct ((x + a) / 2 <? x); [apply IH | reflexivity].
Qed.

Lemma sqrt_start_above (n : Z) :
  1 <= n ->
  0 < 2 ^ ((bit_length n + 1) / 2) /\ n < (2 ^ ((bit_length n + 1) / 2)) ^ 2.
Proof.
  intros Hn.
  destruct (bit_length_bounds n ltac:(lia)) as (Hb & _ & Hhi).
  set (b := bit_length n) in *.
  assert (0 <= (b + 1) / 2) by (apply Z.div_pos; lia).
  split; [apply Z.pow_pos_nonneg; lia|].
  rewrite <- Z.pow_mul_r by lia.
  eapply Z.lt_le_trans; [exact Hhi|].
  apply Z.pow_le_mono_r; [lia|].
  pose proof (Z.mod_pos_bound (b + 1) 2 ltac:(lia)).
  pose proof (Z.div_mod (b + 1) 2 ltac:(lia)). lia.
Qed.

Lemma newton_spec (n : Z) :
  1 <= n -> exists m, newton n = Ok m /\ 0 < m /\ m ^ 2 <= n < (m + 1) ^ 2.
Proof.
  intros Hn. unfold newton. rewrite newton_loop_kth.
  destruct (sqrt_start_above n Hn) as [Hpos Hab].
  set (x := 2 ^ ((bit_length n + 1) / 2)) in *.
  assert (Hab' : n < (x + 1) ^ 2)
    by (eapply Z.lt_trans; [exact Hab | apply pow_lt_succ; lia]).
  assert (Hfuel : (Z.to_nat x < fuel_from x)%nat) by (unfold fuel_from; lia).
  destruct (kth_root_loop_spec (fuel_from x) n 2 x ltac:(lia) ltac:(lia) Hpos Hab' Hfuel)
    as (m & Hm & Hmx & Hspec).
  exists m. repeat split; try tauto; lia.
Qed.

(** The loop of [binary] and [integer_sqrt], entered with [lo = n // hi]. *)
Lemma binary_loop_spec (fuel : nat) (n hi : Z) :
  1 <= n -> 0 < hi -> n < (hi + 1) ^ 2 -> (Z.to_nat hi < fuel)%nat ->
  exists m, binary_loop fuel n hi (n / hi) = Ok m /\ 0 < m <= hi /\
            m ^ 2 <= n < (m + 1) ^ 2.
Proof.
  revert hi. induction fuel as [|fuel IH]; intros hi Hn Hhi Hup Hfuel; [lia|].
  simpl.
  assert (Hcond : (n / hi <? hi) = (newton_step n 2 hi <? hi)).
  { rewrite newton_step_2.
    destruct (Z.ltb_spec (n / hi) hi) as [Hlt|Hge];
      destruct (Z.ltb_spec ((hi + n / hi) / 2) hi) as [Hlt'|Hge']; try reflexivity.
    - exfalso. assert ((hi + n / hi) / 2 < hi); [|lia].
      apply Z.div_lt_upper_bound; lia.
    - exfalso. assert (hi <= (hi + n / hi) / 2); [|lia].
      apply Z.div_le_lower_bound; lia. }
  rewrite Hcond. rewrite <- newton_step_2.
  destruct (Z.ltb_spec (newton_step n 2 hi) hi) as [Hlt|Hge].
  - pose proof (newton_step_above n 2 hi ltac:(lia) ltac:(lia) Hhi) as Hab.
    pose proof (newton_step_nonneg n 2 hi ltac:(lia) ltac:(lia) Hhi) as Hnn.
    assert (0 < newton_step n 2 hi) by (apply (pow_succ_gt_1 _ 2); lia).
    rewrite floordiv_ok by lia. simpl.
    destruct (IH (newton_step n 2 hi)) as (m & Hm & Hmx & Hspec); try lia.
    exists m. repeat split; try tauto; lia.
  - exists hi. repeat split; try lia.
    apply newton_step_stop; lia.
Qed.

Lemma binary_spec (n : Z) :
  1 <= n -> exists m, binary n = Ok m /\ 0 < m /\ m ^ 2 <= n < (m + 1) ^ 2.
Proof.
  intros Hn. unfold binary.
  destruct (sqrt_start_above n Hn) as [Hpos Hab].
  set (hi := 2 ^ ((bit_length n + 1) / 2)) in *.
  rewrite floordiv_ok by lia. simpl.
  assert (Hab' : n < (hi + 1) ^ 2)
    by (eapply Z.lt_trans; [exact Hab | apply pow_lt_succ; lia]).
  assert (Hfuel : (Z.to_nat hi < fuel_from hi)%nat) by (unfold fuel_from; lia).
  destruct (binary_loop_spec (fuel_from hi) n hi Hn Hpos Hab' Hfuel)
    as (m & Hm & Hmx & Hspec).
  exists m. repeat split; try tauto; lia.
Qed.

Lemma integer_sqrt_spec (n : Z) :
  0 <= n -> exists m, integer_sqrt n = Ok m /\ 0 <= m /\ m ^ 2 <= n < (m + 1) ^ 2.
Proof.
  intros Hn. unfold integer_sqrt.
  destruct (Z.ltb_spec n 0); [lia|].
  destruct (Z.leb_spec n 1) as [Hsmall|Hbig].
  - exists n. split; [reflexivity|]. nia.
  - destruct (binary_spec n ltac:(lia)) as (m & Hm & Hpos & Hspec).
    exists m. split; [exact Hm|]. split; [lia | exact Hspec].
Qed.

(** [integer_sqrt] is [Z.sqrt] on the non-negative integers. *)
Lemma integer_sqrt_Zsqrt (n : Z) : 0 <= n -> integer_sqrt n = Ok (Z.sqrt n).
Proof.
  intros Hn. destruct (integer_sqrt_spec n Hn) as (m & Hm & Hpos & Hspec).
  rewrite Hm. f_equal. symmetry. apply Z.sqrt_unique. nia.
Qed.

Lemma integer_sqrt_negative (n : Z) : n < 0 -> integer_sqrt n = Raise ValueError.
Proof. intros Hn. unfold integer_sqrt. destruct (Z.ltb_spec n 0); [reflexivity|lia]. Qed.

Lemma last_cons_default {A : Type} (xs : list A) (y d : A) :
  List.last (y :: xs) d = List.last xs y.
Proof.
  revert y d. induction xs as [|a r IH]; intros y d; [reflexivity|].
  change (List.last (y :: a :: r) d) with (List.last (a :: r) d).
  rewrite (IH a d), (IH a y). reflexivity.
Qed.

Lemma kth_root_loop_run (fuel : nat) (n k x : Z) :
  1 <= n -> 1 <= k -> 0 < x -> n < (x + 1) ^ k -> (Z.to_nat x < fuel)%nat ->
  exists xs, newton_run n k x xs /\
             kth_root_loop fuel n k x = Ok (List.last xs x) /\
             List.last xs x <= newton_step n k (List.last xs x).
Proof.
  revert x. induction fuel as [|fuel IH]; intros x Hn Hk Hx Hup Hfuel; [lia|].
  rewrite kth_root_loop_unfold by lia.
  destruct (Z.ltb_spec (newton_step n k x) x) as [Hlt|Hge].
  - pose proof (newton_step_above n k x ltac:(lia) Hk Hx) as Hab.
    pose proof (newton_step_nonneg n k x ltac:(lia) Hk Hx) as Hnn.
    assert (0 < newton_step n k x) by (apply (pow_succ_gt_1 _ k); lia).
    destruct (IH (newton_step n k x)) as (xs & Hrun & Hres & Hstop); try lia.
    exists (newton_step n k x :: xs).
    pose proof (last_cons_default xs (newton_step n k x) x) as Hlast.
    rewrite Hlast. simpl. repeat split; auto.
  - exists []. simpl. repeat split; auto.
Qed.

Lemma below_start (n k r : Z) :
  1 <= n -> 1 <= k -> 0 <= r -> r ^ k <= n -> r < kth_root_start n k.
Proof.
  intros Hn Hk Hr Hrk.
  destruct (kth_root_start_above n k Hn Hk) as [Hpos Hab].
  destruct (Z_lt_le_dec r (kth_root_start n k)) as [|Hle]; [assumption|].
  assert (kth_root_start n k ^ k <= r ^ k) by (apply Z.pow_le_mono_l; lia). lia.
Qed.

Lemma kth_root_start_vs_spec (n k : Z) :
  1 <= n -> 1 <= k ->
  kth_root_start n k =
    if bit_length n mod k =? 0 then 2 * spec_root_start n k else spec_root_start n k.
Proof.
  intros Hn Hk. unfold kth_root_start, spec_root_start.
  destruct (bit_length_bounds n ltac:(lia)) as (Hb & _).
  set (b := bit_length n) in *.
  pose proof (Z.mod_pos_bound b k ltac:(lia)) as Hr.
  pose proof (Z.div_mod b k ltac:(lia)) as Hqr.
  assert (0 <= b / k) by (apply Z.div_pos; lia).
  destruct (Z.eqb_spec (b mod k) 0) as [H0|Hne].
  - assert ((b + k - 1) / k = b / k) as ->.
    { symmetry. apply (Z.div_unique _ _ _ (k - 1)); lia. }
    rewrite Z.pow_add_r by lia. lia.
  - assert ((b + k - 1) / k = b / k + 1) as ->; [|reflexivity].
    symmetry. apply (Z.div_unique _ _ _ (b mod k - 1)); lia.
Qed.

(** C3. For every [n >= 0] and [k >= 1], [integer_kth_root n k] returns a
    value [m] with [m^k <= n < (m+1)^k], the only non-negative integer with
    that property, and [integer_sqrt n] returns the floor square root; the
    arithmetic is on unbounded integers throughout. *)
Theorem integer_root_is_floor_root (n k : Z) :
  0 <= n -> 1 <= k ->
  (exists m, integer_kth_root n k = Ok m /\ m ^ k <= n < (m + 1) ^ k /\
             forall m', 0 <= m' -> m' ^ k <= n < (m' + 1) ^ k -> m' = m) /\
  (exists s, integer_sqrt n = Ok s /\ s ^ 2 <= n < (s + 1) ^ 2).
Proof.
  intros Hn Hk. split.
  - destruct (integer_kth_root_spec n k Hn Hk) as (m & Hm & Hpos & Hspec).
    exists m. split; [exact Hm|]. split; [exact Hspec|].
    intros m' Hm' Hspec'. apply (floor_root_unique n k); auto.
  - destruct (integer_sqrt_spec n Hn) as (s & Hs & _ & Hspec). eauto.
Qed.

Lemma integer_root_is_floor_root_witness :
  (exists m, integer_kth_root 100 3 = Ok m /\ m ^ 3 <= 100 < (m + 1) ^ 3 /\
             forall m', 0 <= m' -> m' ^ 3 <= 100 < (m' + 1) ^ 3 -> m' = m) /\
  (exists s, integer_sqrt 100 = Ok s /\ s ^ 2 <= 100 < (s + 1) ^ 2).
Proof. apply (integer_root_is_floor_root 100 3); lia. Defined.

(** C6, as the code has it. For every [n >= 1] the Newton formulation, the
    binary-search formulation and [integer_sqrt] return the same value, the
    floor square root of [n]. *)
Theorem sqrt_formulations_agree (n : Z) :
  1 <= n ->
  exists m, newton n = Ok m /\ binary n = Ok m /\ integer_sqrt n = Ok m /\
            m ^ 2 <= n < (m + 1) ^ 2.
Proof.
  intros Hn.
  destruct (newton_spec n Hn) as (m & Hm & Hpos & Hspec).
  destruct (binary_spec n Hn) as (m1 & Hm1 & Hpos1 & Hspec1).
  destruct (integer_sqrt_spec n ltac:(lia)) as (m2 & Hm2 & Hpos2 & Hspec2).
  assert (m1 = m) by (apply (floor_root_unique n 2); auto; lia).
  assert (m2 = m) by (apply (floor_root_unique n 2); auto; lia).
  subst. exists m. auto.
Qed.

Lemma sqrt_formulations_agree_witness :
  exists m, newton 10 = Ok m /\ binary 10 = Ok m /\ integer_sqrt 10 = Ok m /\
            m ^ 2 <= 10 < (m + 1) ^ 2.
Proof. apply (sqrt_formulations_agree 10); lia. Defined.

(** C6 fails at [n = 0], an input of the contract: [newton] and [binary]
    divide by zero there, [integer_sqrt] returns 0. *)
Lemma sqrt_formulations_differ_at_0 :
  newton 0 = Raise ZeroDivisionError /\ binary 0 = Raise ZeroDivisionError /\
  integer_sqrt 0 = Ok 0 /\ newton 0 <> integer_sqrt 0.
Proof. repeat split; try reflexivity. discriminate. Qed.

(** C8, as the code has it. For [n >= 2] and [k >= 2] the iteration starts
    at [2^(bitlen(n)//k + 1)] (twice the specification's
    [2^ceil(bitlen(n)/k)] when [k] divides the bit length, equal to it
    otherwise), which is above every [r] with [r^k <= n]; the later iterates
    [xs] are each the Newton round of the one before and smaller than it;
    the value returned is the last of them, the first whose round does not
    go down. *)
Theorem integer_kth_root_iteration (n k : Z) :
  2 <= n -> 2 <= k ->
  kth_root_start n k = 2 ^ (bit_length n / k + 1) /\
  kth_root_start n k =
    (if bit_length n mod k =? 0 then 2 * spec_root_start n k
     else spec_root_start n k) /\
  (forall r, 0 <= r -> r ^ k <= n -> r < kth_root_start n k) /\
  exists xs, newton_run n k (kth_root_start n k) xs /\
             integer_kth_root n k = Ok (List.last xs (kth_root_start n k)) /\
             List.last xs (kth_root_start n k)
               <= newton_step n k (List.last xs (kth_root_start n k)).
Proof.
  intros Hn Hk. split; [reflexivity|].
  split; [apply kth_root_start_vs_spec; lia|].
  split; [intros r Hr Hrk; apply below_start; auto; lia|].
  unfold integer_kth_root.
  destruct (Z.ltb_spec n 0); [lia|]. destruct (Z.ltb_spec k 1); [lia|].
  destruct (Z.leb_spec n 1); [lia|].
  destruct (kth_root_start_above n k ltac:(lia) ltac:(lia)) as [Hpos Hab].
  set (x := kth_root_start n k) in *.
  apply kth_root_loop_run; try lia.
  - eapply Z.lt_trans; [exact Hab | apply pow_lt_succ; lia].
  - unfold fuel_from. lia.
Qed.

Lemma integer_kth_root_iteration_witness :
  kth_root_start 100 3 = 2 ^ (bit_length 100 / 3 + 1) /\
  kth_root_start 100 3 =
    (if bit_length 100 mod 3 =? 0 then 2 * spec_root_start 100 3
     else spec_root_start 100 3) /\
  (forall r, 0 <= r -> r ^ 3 <= 100 -> r < kth_root_start 100 3) /\
  exists xs, newton_run 100 3 (kth_root_start 100 3) xs /\
             integer_kth_root 100 3 = Ok (List.last xs (kth_root_start 100 3)) /\
             List.last xs (kth_root_start 100 3)
               <= newton_step 100 3 (List.last xs (kth_root_start 100 3)).
Proof. apply (integer_kth_root_iteration 100 3); lia. Defined.

(** C8 fails on the start value: at [n = 2], [k = 2] the loop starts at 4,
    the specification's [2^ceil(bitlen(n)/k)] is 2. *)
Lemma kth_root_start_differs_from_spec :
  kth_root_start 2 2 = 4 /\ spec_root_start 2 2 = 2 /\
  integer_kth_root 2 2 = kth_root_loop (fuel_from 4) 2 2 4.
Proof. repeat split; reflexivity. Qed.

(** * Ranges, loops and arrays *)

Lemma rbind_ok {A B : Type} (c : result A) (k : A -> result B) (a : A) :
  c = Ok a -> rbind c k = k a.
Proof. intros ->. reflexivity. Qed.

Lemma len_nonneg {A : Type} (l : list A) : 0 <= len l.
Proof. unfold len. lia. Qed.

Lemma len_app {A : Type} (l1 l2 : list A) : len (l1 ++ l2) = len l1 + len l2.
Proof. unfold len. rewrite length_app. lia. Qed.

Lemma len_map {A B : Type} (f : A -> B) (l : list A) : len (map f l) = len l.
Proof. unfold len. rewrite length_map. reflexivity. Qed.

Lemma len_repeat {A : Type} (x : A) (n : Z) : 0 <= n -> len (repeat x (Z.to_nat n)) = n.
Proof. intros H. unfold len. rewrite repeat_length. lia. Qed.

Lemma range_nil (a b : Z) : b <= a -> range a b = [].
Proof.
  intros H. unfold range. replace (Z.to_nat (b - a)) with 0%nat by lia. reflexivity.
Qed.

Lemma range_cons (a b : Z) : a < b -> range a b = a :: range (a + 1) b.
Proof.
  intros H. unfold range.
  replace (Z.to_nat (b - a)) with (S (Z.to_nat (b - (a + 1)))) by lia.
  simpl. f_equal; [lia|].
  rewrite <- seq_shift, map_map. apply map_ext. intros i. lia.
Qed.

Lemma len_range (a b : Z) : a <= b -> len (range a b) = b - a.
Proof. intros H. unfold len, range. rewrite length_map, length_seq. lia. Qed.

Lemma in_range (a b x : Z) : In x (range a b) <-> a <= x < b.
Proof.
  unfold range. rewrite in_map_iff. split.
  - intros (i & <- & Hi%in_seq). lia.
  - intros H. exists (Z.to_nat (x - a)). split; [lia|]. apply in_seq. lia.
Qed.

Lemma range_app (a b c : Z) : a <= b <= c -> range a c = range a b ++ range b c.
Proof.
  intros H. remember (Z.to_nat (b - a)) as m eqn:Hm.
  revert a H Hm. induction m as [|m IH]; intros a H Hm.
  - assert (a = b) as -> by lia. rewrite (range_nil b b) by lia. reflexivity.
  - rewrite (range_cons a c), (range_cons a b) by lia.
    simpl. f_equal. apply IH; lia.
Qed.

Lemma range_snoc (a b : Z) : a <= b -> range a (b + 1) = range a b ++ [b].
Proof.
  intros H. rewrite (range_app a b (b + 1)) by lia. f_equal.
  rewrite range_cons by lia. rewrite range_nil by lia. reflexivity.
Qed.

Lemma filter_range_ext (f g : Z -> bool) (a b : Z) :
  (forall i, a <= i < b -> f i = g i) ->
  List.filter f (range a b) = List.filter g (range a b).
Proof. intros H. apply filter_ext_in. intros i Hi%in_range. auto. Qed.

Lemma for_each_app {S A : Type} (xs ys : list A) (body : A -> S -> result S) (s : S) :
  for_each (xs ++ ys) body s = (do s' <~ for_each xs body s ; for_each ys body s').
Proof.
  revert s. induction xs as [|x xs IH]; intros s; [reflexivity|].
  simpl. destruct (body x s); simpl; auto.
Qed.

(** A loop invariant that may mention the items already visited. *)
Lemma for_each_invariant {S A : Type} (I : list A -> S -> Prop) (xs : list A)
    (body : A -> S -> result S) (s : S) :
  I [] s ->
  (forall pre x post s, xs = pre ++ x :: post -> I pre s ->
     exists s', body x s = Ok s' /\ I (pre ++ [x]) s') ->
  exists s', for_each xs body s = Ok s' /\ I xs s'.
Proof.
  revert I s. induction xs as [|x xs IH]; intros I s H0 Hstep.
  - exists s. split; [reflexivity | assumption].
  - destruct (Hstep [] x xs s eq_refl H0) as (s1 & Hb & H1).
    simpl. rewrite Hb.
    apply (IH (fun pre => I (x :: pre)) s1 H1).
    intros pre y post s2 Heq H2.
    apply (Hstep (x :: pre) y post s2); [|assumption].
    simpl. f_equal. exact Heq.
Qed.

(** ** Reading and writing items *)

Lemma length_update_from {A : Type} (sel : Z -> bool) (f : A -> A) (i : Z) (l : list A) :
  length (update_from sel f i l) = length l.
Proof. revert i. induction l as [|x l IH]; intros i; simpl; [|rewrite IH]; reflexivity. Qed.

Lemma len_update_from {A : Type} (sel : Z -> bool) (f : A -> A) (i : Z) (l : list A) :
  len (update_from sel f i l) = len l.
Proof. unfold len. rewrite length_update_from. reflexivity. Qed.

Lemma nth_update_from {A : Type} (sel : Z -> bool) (f : A -> A) (i0 : Z) (l : list A)
    (j : nat) (d : A) :
  (j < length l)%nat ->
  nth j (update_from sel f i0 l) d =
    if sel (i0 + Z.of_nat j) then f (nth j l d) else nth j l d.
Proof.
  revert i0 j. induction l as [|x l IH]; intros i0 j Hj; simpl in Hj; [lia|].
  destruct j as [|j].
  - simpl. change (Z.of_nat 0) with 0. rewrite Z.add_0_r. reflexivity.
  - change (nth (S j) (update_from sel f i0 (x :: l)) d)
      with (nth j (update_from sel f (i0 + 1) l) d).
    rewrite IH by lia.
    replace (i0 + 1 + Z.of_nat j) with (i0 + Z.of_nat (S j)) by lia.
    reflexivity.
Qed.

Lemma nth_update_from_Z {A : Type} (sel : Z -> bool) (f : A -> A) (l : list A)
    (i : Z) (d : A) :
  0 <= i < len l ->
  nth (Z.to_nat i) (update_from sel f 0 l) d =
    if sel i then f (nth (Z.to_nat i) l d) else nth (Z.to_nat i) l d.
Proof.
  intros Hi. unfold len in Hi. rewrite nth_update_from by lia.
  rewrite Z2Nat.id by lia. reflexivity.
Qed.

Lemma norm_index_in (n i : Z) : 0 <= i < n -> norm_index n i = Ok i.
Proof.
  intros H. unfold norm_index.
  destruct (Z.leb_spec 0 i); [|lia]. destruct (Z.ltb_spec i n); [|lia]. reflexivity.
Qed.

Lemma norm_index_out (n i : Z) : 0 <= n <= i -> norm_index n i = Raise IndexError.
Proof.
  intros H. unfold norm_index.
  destruct (Z.leb_spec 0 i); [|lia]. destruct (Z.ltb_spec i n); [lia|]. simpl.
  destruct (Z.leb_spec (- n) i); [|lia]. destruct (Z.ltb_spec i 0); [lia|]. reflexivity.
Qed.

Lemma getitem_in (l : list bool) (i : Z) :
  0 <= i < len l -> getitem false l i = Ok (bit l i).
Proof. intros H. unfold getitem. rewrite norm_index_in by lia. reflexivity. Qed.

Lemma setitem_in {A : Type} (l : list A) (i : Z) (v : A) :
  0 <= i < len l ->
  setitem l i v = Ok (update_from (Z.eqb i) (fun _ => v) 0 l).
Proof. intros H. unfold setitem. rewrite norm_index_in by lia. reflexivity. Qed.

Lemma bit_setitem (l : list bool) (i j : Z) (v : bool) :
  0 <= j < len l ->
  bit (update_from (Z.eqb i) (fun _ => v) 0 l) j = if i =? j then v else bit l j.
Proof. intros H. unfold bit. rewrite nth_update_from_Z by lia. reflexivity. Qed.

Lemma in_slice_pos (n start step i : Z) :
  0 < step -> 0 <= start ->
  in_slice n start step i = (start <=? i) && ((i - start) mod step =? 0).
Proof.
  intros Hs H0. unfold in_slice.
  destruct (Z.ltb_spec 0 step); [|lia]. destruct (Z.ltb_spec start 0); [lia|].
  reflexivity.
Qed.

Lemma slice_update_pos {A : Type} (l : list A) (start step : Z) (f : A -> A) :
  0 < step ->
  slice_update l start step f = Ok (update_from (in_slice (len l) start step) f 0 l).
Proof.
  intros H. unfold slice_update. destruct (Z.eqb_spec step 0); [lia|reflexivity].
Qed.

Lemma slice_assign_pos {A : Type} (l : list A) (start step : Z) (v : A) :
  0 < step ->
  slice_assign l start step v =
    Ok (update_from (in_slice (len l) start step) (fun _ => v) 0 l).
Proof. intros H. unfold slice_assign. apply slice_update_pos. exact H. Qed.

Lemma bit_slice (l : list bool) (start step j : Z) (v : bool) :
  0 < step -> 0 <= start -> 0 <= j < len l ->
  bit (update_from (in_slice (len l) start step) (fun _ => v) 0 l) j =
    if (start <=? j) && ((j - start) mod step =? 0) then v else bit l j.
Proof.
  intros Hs H0 Hj. unfold bit. rewrite nth_update_from_Z by lia.
  rewrite in_slice_pos by lia. reflexivity.
Qed.

Lemma np_ones_ok (n : Z) : 0 <= n -> np_ones n = Ok (repeat true (Z.to_nat n)).
Proof. intros H. unfold np_ones. destruct (Z.ltb_spec n 0); [lia|reflexivity]. Qed.

Lemma bit_ones (n i : Z) : 0 <= i < n -> bit (repeat true (Z.to_nat n)) i = true.
Proof.
  intros H. unfold bit. apply nth_repeat_lt. lia.
Qed.

(** ** [flatnonzero] *)

Lemma flatnonzero_from_filter (i0 : Z) (l : list bool) :
  flatnonzero_from i0 l =
    List.filter (fun i => nth (Z.to_nat (i - i0)) l false) (range i0 (i0 + len l)).
Proof.
  revert i0. induction l as [|b l IH]; intros i0.
  - simpl. rewrite range_nil; [reflexivity | unfold len; simpl; lia].
  - rewrite range_cons by (unfold len; simpl; lia).
    simpl List.filter. replace (i0 - i0) with 0 by lia. simpl nth.
    assert (Htail : flatnonzero_from (i0 + 1) l =
      List.filter (fun i => nth (Z.to_nat (i - i0)) (b :: l) false)
                  (range (i0 + 1) (i0 + len (b :: l)))).
    { rewrite IH. replace (i0 + 1 + len l) with (i0 + len (b :: l))
        by (unfold len; simpl length; lia).
      apply filter_range_ext. intros i Hi.
      replace (Z.to_nat (i - i0)) with (S (Z.to_nat (i - (i0 + 1)))) by lia.
      reflexivity. }
    simpl flatnonzero_from. destruct b; rewrite Htail; reflexivity.
Qed.

Lemma flatnonzero_filter (l : list bool) :
  flatnonzero l = List.filter (bit l) (range 0 (len l)).
Proof.
  unfold flatnonzero. rewrite flatnonzero_from_filter. simpl.
  apply filter_range_ext. intros i Hi. unfold bit. f_equal. lia.
Qed.

(** * Primes *)

Lemma is_prime_spec (n : Z) : is_prime n = true <-> Z.prime n.
Proof.
  unfold is_prime, Z.prime. rewrite andb_true_iff, forallb_forall, Z.leb_le.
  split; intros [H1 H2]; (split; [lia|]).
  - intros d Hd Hdiv. specialize (H2 d ltac:(apply in_range; lia)).
    apply Z.mod_divide in Hdiv; [|lia]. rewrite Hdiv in H2. discriminate.
  - intros d Hd%in_range. apply negb_true_iff, Z.eqb_neq. intros Hm.
    apply (H2 d ltac:(lia)). apply Z.mod_divide; lia.
Qed.

Lemma is_prime_false (n : Z) : is_prime n = false <-> ~ Z.prime n.
Proof. rewrite <- is_prime_spec. destruct (is_prime n); intuition congruence. Qed.

Lemma prime_or_not (n : Z) : Z.prime n \/ ~ Z.prime n.
Proof. rewrite <- is_prime_spec. destruct (is_prime n); auto. Qed.

Lemma not_prime_factor (m : Z) :
  2 <= m -> ~ Z.prime m -> exists d, 1 < d < m /\ (d | m).
Proof.
  intros Hm Hnp. apply not_prime_divide; [lia|]. rewrite <- prime_alt. exact Hnp.
Qed.

(** Strong induction on the non-negative integers. *)
Lemma Z_strong_ind (P : Z -> Prop) :
  (forall m, (forall d, 0 <= d < m -> P d) -> P m) -> forall m, P m.
Proof.
  intros H m.
  assert (Hall : forall n : nat, forall m, Z.to_nat m = n -> P m).
  { intros n. induction n as [n IH] using lt_wf_ind. intros m' Hm'.
    apply H. intros d Hd. apply (IH (Z.to_nat d)); [lia | reflexivity]. }
  apply (Hall (Z.to_nat m)). reflexivity.
Qed.

Lemma prime_factor (m : Z) : 2 <= m -> exists p, Z.prime p /\ (p | m).
Proof.
  induction m as [m IH] using Z_strong_ind. intros Hm.
  destruct (prime_or_not m) as [Hp|Hnp].
  - exists m. split; [assumption | apply Z.divide_refl].
  - destruct (not_prime_factor m Hm Hnp) as (d & Hd & Hdiv).
    destruct (IH d ltac:(lia) ltac:(lia)) as (p & Hp & Hpd).
    exists p. split; [assumption | eapply Z.divide_trans; eassumption].
Qed.

Lemma divide_pos_bound (p m : Z) : 0 < m -> (p | m) -> p <= m.
Proof. intros Hm Hd. apply Z.divide_pos_le; assumption. Qed.

(** A composite number has a prime factor at most its square root. *)
Lemma small_prime_factor (m : Z) :
  2 <= m -> ~ Z.prime m -> exists p, Z.prime p /\ (p | m) /\ p * p <= m.
Proof.
  intros Hm Hnp.
  destruct (not_prime_factor m Hm Hnp) as (d & Hd & [e He]).
  assert (1 < e) by nia.
  destruct (Z_le_gt_dec d e) as [Hle|Hgt].
  - destruct (prime_factor d ltac:(lia)) as (p & Hp & Hpd).
    exists p. split; [assumption|]. split.
    + eapply Z.divide_trans; [eassumption|]. exists e. lia.
    + pose proof (divide_pos_bound p d ltac:(lia) Hpd).
      pose proof (Z.prime_ge_2 p Hp). nia.
  - destruct (prime_factor e ltac:(lia)) as (p & Hp & Hpe).
    exists p. split; [assumption|]. split.
    + eapply Z.divide_trans; [eassumption|]. exists d. lia.
    + pose proof (divide_pos_bound p e ltac:(lia) Hpe).
      pose proof (Z.prime_ge_2 p Hp). nia.
Qed.

Lemma in_primes_in (a b p : Z) : In p (primes_in a b) <-> a <= p < b /\ Z.prime p.
Proof. unfold primes_in. rewrite filter_In, in_range, is_prime_spec. tauto. Qed.

Lemma primes_in_from_2 (b : Z) : 2 <= b -> primes_in 0 b = primes_in 2 b.
Proof.
  intros Hb. unfold primes_in.
  rewrite (range_app 0 2 b) by lia. rewrite List.filter_app.
  change (range 0 2) with [0; 1]. reflexivity.
Qed.

(** ** The loop of the sieve of Eratosthenes *)

Lemma range_split_inv (a b x : Z) (pre post : list Z) :
  range a b = pre ++ x :: post -> x = a + len pre /\ x < b.
Proof.
  revert a. induction pre as [|y pre IH]; intros a Heq.
  - destruct (Z_lt_le_dec a b) as [Hlt|Hge].
    + rewrite range_cons in Heq by lia. simpl in Heq. inversion Heq.
      unfold len. simpl. lia.
    + rewrite range_nil in Heq by lia. discriminate.
  - destruct (Z_lt_le_dec a b) as [Hlt|Hge].
    + rewrite range_cons in Heq by lia. simpl in Heq. inversion Heq as [[Hy Hrest]].
      destruct (IH _ Hrest) as [Hx Hb]. unfold len in *. simpl length. lia.
    + rewrite range_nil in Heq by lia. discriminate.
Qed.

Lemma mod_sub_multiple (i k : Z) : 0 < k -> (i - k * k) mod k = i mod k.
Proof.
  intros Hk. replace (i - k * k) with (i + (- k) * k) by lia.
  apply Z_mod_plus_full.
Qed.

Lemma flagged_is_prime (k n : Z) (block : list bool) :
  2 <= k <= n -> sieved (k - 1) n block -> (bit block k = true <-> Z.prime k).
Proof.
  intros Hk [Hlen Hbits]. rewrite (Hbits k ltac:(lia)). split.
  - intros [_ Hno]. destruct (prime_or_not k) as [|Hnp]; [assumption|].
    destruct (small_prime_factor k ltac:(lia) Hnp) as (p & Hp & Hpk & Hsq).
    exfalso. apply (Hno p Hp); auto.
    pose proof (Z.prime_ge_2 p Hp). nia.
  - intros Hp. split; [lia|]. intros p Hpp Hle Hsq Hdiv.
    apply (Z.divide_prime_prime p k Hpp Hp) in Hdiv. lia.
Qed.

Lemma sieve_body_spec (k n : Z) (block : list bool) :
  2 <= k <= n -> sieved (k - 1) n block ->
  exists block', sieve_body k block = Ok block' /\ sieved k n block'.
Proof.
  intros Hk Hs. pose proof (flagged_is_prime k n block Hk Hs) as Hflag.
  destruct Hs as [Hlen Hbits].
  unfold sieve_body. rewrite getitem_in by lia. simpl.
  destruct (bit block k) eqn:Hbk.
  - assert (Hp : Z.prime k) by (apply Hflag; reflexivity).
    rewrite slice_assign_pos by lia. eexists. split; [reflexivity|].
    split; [rewrite len_update_from; exact Hlen|].
    intros i Hi. rewrite bit_slice by nia. rewrite mod_sub_multiple by lia.
    destruct (Z.leb_spec (k * k) i) as [Hsq|Hsq];
      destruct (Z.eqb_spec (i mod k) 0) as [Hm|Hm]; simpl.
    + split; [discriminate|]. intros [_ Hno]. exfalso.
      apply (Hno k Hp); [lia | exact Hsq | apply Z.mod_divide; lia].
    + rewrite (Hbits i Hi). split; intros [H2 Hno]; (split; [exact H2|]);
        intros p Hpp Hle Hpsq Hdiv.
      * destruct (Z.eq_dec p k) as [->|Hne].
        -- apply Hm. apply Z.mod_divide; [lia | exact Hdiv].
        -- apply (Hno p Hpp); auto. lia.
      * apply (Hno p Hpp); auto. lia.
    + rewrite (Hbits i Hi). split; intros [H2 Hno]; (split; [exact H2|]);
        intros p Hpp Hle Hpsq Hdiv.
      * destruct (Z.eq_dec p k) as [->|Hne]; [lia|].
        apply (Hno p Hpp); auto. lia.
      * apply (Hno p Hpp); auto. lia.
    + rewrite (Hbits i Hi). split; intros [H2 Hno]; (split; [exact H2|]);
        intros p Hpp Hle Hpsq Hdiv.
      * destruct (Z.eq_dec p k) as [->|Hne]; [lia|].
        apply (Hno p Hpp); auto. lia.
      * apply (Hno p Hpp); auto. lia.
  - assert (Hnp : ~ Z.prime k) by (intros Hp; apply Hflag in Hp; congruence).
    eexists. split; [reflexivity|]. split; [exact Hlen|].
    intros i Hi. rewrite (Hbits i Hi). split; intros [H2 Hno]; (split; [exact H2|]);
      intros p Hpp Hle Hpsq Hdiv.
    + destruct (Z.eq_dec p k) as [->|Hne]; [contradiction|].
      apply (Hno p Hpp); auto. lia.
    + apply (Hno p Hpp); auto. lia.
Qed.

Lemma sieve_loop_spec (n s : Z) (block : list bool) :
  1 <= s <= n -> sieved 1 n block ->
  exists block', for_each (range 2 (s + 1)) sieve_body block = Ok block' /\
                 sieved s n block'.
Proof.
  intros Hs H1.
  destruct (for_each_invariant
              (fun pre b => sieved (1 + len pre) n b)
              (range 2 (s + 1)) sieve_body block) as (block' & Hrun & Hinv).
  - exact H1.
  - intros pre x post b Heq Hb.
    destruct (range_split_inv _ _ _ _ _ Heq) as [Hx Hlt].
    assert (Hge : 0 <= len pre) by apply len_nonneg.
    destruct (sieve_body_spec x n b ltac:(lia)) as (b' & Hb' & Hs').
    + replace (x - 1) with (1 + len pre) by lia. exact Hb.
    + exists b'. split; [exact Hb'|].
      rewrite len_app. change (len [x]) with 1.
      replace (1 + (len pre + 1)) with x by lia. exact Hs'.
  - exists block'. split; [exact Hrun|].
    rewrite len_range in Hinv by lia.
    replace (1 + (s + 1 - 2)) with s in Hinv by lia. exact Hinv.
Qed.

(** Once the rounds reach the square root of [n], the flags are primality. *)
Lemma sieved_primes (n s : Z) (block : list bool) :
  n < (s + 1) * (s + 1) -> 0 <= s -> sieved s n block ->
  len block = n + 1 /\ forall i, 0 <= i <= n -> bit block i = is_prime i.
Proof.
  intros Hs Hs0 [Hlen Hbits]. split; [exact Hlen|]. intros i Hi.
  destruct (is_prime i) eqn:Hp.
  - apply is_prime_spec in Hp. apply Hbits; [lia|].
    split; [apply Z.prime_ge_2; exact Hp|]. intros p Hpp Hle Hsq Hdiv.
    apply (Z.divide_prime_prime p i Hpp Hp) in Hdiv. subst p.
    pose proof (Z.prime_ge_2 i Hp). nia.
  - apply is_prime_false in Hp. apply not_true_is_false. intros Hb.
    apply (Hbits i Hi) in Hb. destruct Hb as [H2 Hno].
    destruct (small_prime_factor i H2 Hp) as (p & Hpp & Hdiv & Hsq).
    apply (Hno p Hpp); auto.
    pose proof (Z.prime_ge_2 p Hpp). nia.
Qed.

Lemma flatnonzero_primes (n : Z) (block : list bool) :
  1 <= n -> len block = n + 1 ->
  (forall i, 0 <= i <= n -> bit block i = is_prime i) ->
  flatnonzero block = primes_in 2 (n + 1).
Proof.
  intros Hn Hlen Hbits. rewrite flatnonzero_filter, Hlen.
  rewrite <- primes_in_from_2 by lia. unfold primes_in.
  apply filter_range_ext. intros i Hi. apply Hbits. lia.
Qed.

(** The flags as [eratosthenes] and [primes] set them up before the loop. *)
Lemma sieve_setup (n : Z) :
  1 <= n ->
  exists block,
    (do b <~ np_ones (n + 1) ; do b <~ setitem b 0 false ; setitem b 1 false)
      = Ok block /\ sieved 1 n block.
Proof.
  intros Hn. rewrite np_ones_ok by lia. simpl.
  rewrite setitem_in by (rewrite len_repeat; lia). simpl.
  rewrite setitem_in by (rewrite len_update_from, len_repeat; lia).
  eexists. split; [reflexivity|]. split.
  - rewrite !len_update_from, len_repeat; lia.
  - intros i Hi.
    rewrite bit_setitem by (rewrite len_update_from, len_repeat; lia).
    rewrite bit_setitem by (rewrite len_repeat; lia).
    rewrite bit_ones by lia.
    destruct (Z.eqb_spec 1 i); [subst; split; [discriminate | lia]|].
    destruct (Z.eqb_spec 0 i); [subst; split; [discriminate | lia]|].
    split; [|reflexivity]. intros _. split; [lia|].
    intros p Hp Hle. pose proof (Z.prime_ge_2 p Hp). lia.
Qed.

Lemma sqrt_bounds (n : Z) :
  0 <= n -> 0 <= Z.sqrt n /\ Z.sqrt n * Z.sqrt n <= n < (Z.sqrt n + 1) * (Z.sqrt n + 1).
Proof.
  intros Hn. pose proof (Z.sqrt_spec n Hn) as H. pose proof (Z.sqrt_nonneg n).
  unfold Z.succ in H. lia.
Qed.

Theorem eratosthenes_primes (n : Z) :
  1 <= n -> eratosthenes n = Ok (primes_in 2 (n + 1)).
Proof.
  intros Hn. unfold eratosthenes.
  destruct (sieve_setup n Hn) as (block & Hsetup & Hinit).
  destruct (sqrt_bounds n ltac:(lia)) as (Hs0 & Hlo & Hhi).
  assert (Hs : 1 <= Z.sqrt n <= n) by nia.
  destruct (sieve_loop_spec n (Z.sqrt n) block Hs Hinit) as (block' & Hloop & Hfin).
  destruct (sieved_primes n (Z.sqrt n) block' Hhi Hs0 Hfin) as [Hlen Hbits].
  revert Hsetup. rewrite np_ones_ok by lia. simpl.
  destruct (setitem (repeat true (Z.to_nat (n + 1))) 0 false) as [b0| |]; simpl;
    try discriminate.
  intros ->. simpl. rewrite integer_sqrt_Zsqrt by lia. simpl.
  unfold sieve_body in Hloop. rewrite Hloop. simpl.
  f_equal. apply flatnonzero_primes; assumption.
Qed.

Theorem primes_spec (n : Z) : 1 <= n -> primes n = Ok (primes_in 2 (n + 1)).
Proof.
  intros Hn. unfold primes.
  destruct (sieve_setup n Hn) as (block & Hsetup & Hinit).
  destruct (sqrt_bounds (n + 1) ltac:(lia)) as (Hs0 & Hlo & Hhi).
  assert (Hs : 1 <= Z.sqrt (n + 1) <= n) by nia.
  destruct (sieve_loop_spec n (Z.sqrt (n + 1)) block Hs Hinit)
    as (block' & Hloop & Hfin).
  destruct (sieved_primes n (Z.sqrt (n + 1)) block' ltac:(lia) Hs0 Hfin)
    as [Hlen Hbits].
  revert Hsetup. rewrite np_ones_ok by lia. simpl.
  destruct (setitem (repeat true (Z.to_nat (n + 1))) 0 false) as [b0| |]; simpl;
    try discriminate.
  intros ->. simpl. rewrite integer_sqrt_Zsqrt by lia. simpl.
  unfold sieve_body in Hloop. rewrite Hloop. simpl.
  f_equal. apply flatnonzero_primes; assumption.
Qed.

(** * Finite sums over ranges *)

Lemma sum_list_app (l1 l2 : list Z) : sum_list (l1 ++ l2) = sum_list l1 + sum_list l2.
Proof. induction l1 as [|x l1 IH]; simpl; [|rewrite IH]; lia. Qed.

Lemma zsum_nil (f : Z -> Z) (a b : Z) : b <= a -> zsum f a b = 0.
Proof. intros H. unfold zsum. rewrite range_nil by lia. reflexivity. Qed.

Lemma zsum_cons (f : Z -> Z) (a b : Z) : a < b -> zsum f a b = f a + zsum f (a + 1) b.
Proof. intros H. unfold zsum. rewrite range_cons by lia. reflexivity. Qed.

Lemma zsum_snoc (f : Z -> Z) (a b : Z) : a <= b -> zsum f a (b + 1) = zsum f a b + f b.
Proof.
  intros H. unfold zsum. rewrite range_snoc by lia.
  rewrite map_app, sum_list_app. simpl. lia.
Qed.

Lemma zsum_split (f : Z -> Z) (a b c : Z) :
  a <= b <= c -> zsum f a c = zsum f a b + zsum f b c.
Proof.
  intros H. unfold zsum. rewrite (range_app a b c) by lia.
  rewrite map_app, sum_list_app. reflexivity.
Qed.

Lemma zsum_ext (f g : Z -> Z) (a b : Z) :
  (forall i, a <= i < b -> f i = g i) -> zsum f a b = zsum g a b.
Proof.
  intros H. unfold zsum. f_equal. apply map_ext_in. intros i Hi%in_range. auto.
Qed.

Lemma zsum_zero (f : Z -> Z) (a b : Z) :
  (forall i, a <= i < b -> f i = 0) -> zsum f a b = 0.
Proof.
  intros H. unfold zsum.
  assert (Hall : forall x, In x (map f (range a b)) -> x = 0).
  { intros x (i & <- & Hi%in_range)%in_map_iff. auto. }
  induction (map f (range a b)) as [|y l IH]; [reflexivity|].
  simpl. rewrite (Hall y) by (left; reflexivity).
  rewrite IH; [reflexivity|]. intros x Hx. apply Hall. right. exact Hx.
Qed.

Lemma zsum_add (f g : Z -> Z) (a b : Z) :
  zsum (fun i => f i + g i) a b = zsum f a b + zsum g a b.
Proof.
  unfold zsum. induction (range a b) as [|x l IH]; simpl; [|rewrite IH]; lia.
Qed.

Lemma zsum_opp (f : Z -> Z) (a b : Z) : zsum (fun i => - f i) a b = - zsum f a b.
Proof.
  unfold zsum. induction (range a b) as [|x l IH]; simpl; [|rewrite IH]; lia.
Qed.

Lemma zsum_mul_r (f : Z -> Z) (c a b : Z) :
  zsum (fun i => f i * c) a b = zsum f a b * c.
Proof.
  unfold zsum. induction (range a b) as [|x l IH]; simpl; [|rewrite IH]; lia.
Qed.

Lemma zsum_const_1 (a b : Z) : a <= b -> zsum (fun _ => 1) a b = b - a.
Proof.
  intros H. remember (Z.to_nat (b - a)) as m eqn:Hm.
  revert a H Hm. induction m as [|m IH]; intros a H Hm.
  - rewrite zsum_nil by lia. lia.
  - rewrite zsum_cons by lia. rewrite IH by lia. lia.
Qed.

(** The sum of a function that vanishes off [i0]. *)
Lemma zsum_single (f : Z -> Z) (a b i0 : Z) :
  a <= i0 < b -> (forall i, a <= i < b -> i <> i0 -> f i = 0) -> zsum f a b = f i0.
Proof.
  intros Hi0 Hz.
  rewrite (zsum_split f a i0 b) by lia. rewrite (zsum_cons f i0 b) by lia.
  rewrite (zsum_zero f a i0) by (intros i Hi; apply Hz; lia).
  rewrite (zsum_zero f (i0 + 1) b) by (intros i Hi; apply Hz; lia). lia.
Qed.

(** Exchanging two finite sums. *)
Lemma zsum_swap (f : Z -> Z -> Z) (a b c d : Z) :
  zsum (fun i => zsum (fun j => f i j) c d) a b =
  zsum (fun j => zsum (fun i => f i j) a b) c d.
Proof.
  assert (Haux : forall l : list Z,
    sum_list (map (fun i => zsum (fun j => f i j) c d) l) =
    zsum (fun j => sum_list (map (fun i => f i j) l)) c d).
  { induction l as [|x l IH].
    - simpl. symmetry. apply zsum_zero. reflexivity.
    - simpl. rewrite IH. rewrite <- zsum_add. reflexivity. }
  unfold zsum at 1. rewrite Haux. reflexivity.
Qed.

Lemma len_filter_sum (f : Z -> bool) (l : list Z) :
  len (List.filter f l) = sum_list (map (fun i => ind (f i)) l).
Proof.
  induction l as [|x l IH]; [reflexivity|].
  simpl. destruct (f x); unfold len in *; simpl length; simpl ind; lia.
Qed.

(** Summing over the multiples of [c] up to [x] is summing over the
    quotients. *)
Lemma zsum_stride (h : Z -> Z) (c x : Z) :
  0 < c -> 0 <= x ->
  zsum (fun m => if m mod c =? 0 then h (m / c) else 0) 1 (x + 1) =
  zsum h 1 (x / c + 1).
Proof.
  intros Hc Hx. remember (Z.to_nat x) as n eqn:Hn.
  revert x Hx Hn. induction n as [|n IH]; intros x Hx Hn.
  - assert (x = 0) as -> by lia. rewrite Z.div_0_l by lia.
    rewrite !zsum_nil by lia. reflexivity.
  - replace (x + 1) with (x - 1 + 1 + 1) by lia.
    rewrite zsum_snoc by lia. rewrite IH by lia.
    replace (x - 1 + 1) with x by lia.
    pose proof (Z.div_mod x c ltac:(lia)) as Hdm.
    pose proof (Z.mod_pos_bound x c Hc) as Hmb.
    destruct (Z.eqb_spec (x mod c) 0) as [H0|Hne].
    + assert (Hq : (x - 1) / c = x / c - 1).
      { symmetry. apply (Z.div_unique _ _ _ (c - 1)); lia. }
      rewrite Hq. replace (x / c - 1 + 1) with (x / c) by lia.
      assert (1 <= x / c) by nia.
      rewrite (zsum_snoc h 1 (x / c)) by lia. reflexivity.
    + assert (Hq : (x - 1) / c = x / c).
      { symmetry. apply (Z.div_unique _ _ _ (x mod c - 1)); lia. }
      rewrite Hq. lia.
Qed.

(** * Squarefree numbers *)

Lemma squarefreeb_spec (m : Z) : squarefreeb m = true <-> squarefree m.
Proof.
  unfold squarefreeb, squarefree. rewrite andb_true_iff, forallb_forall, Z.ltb_lt.
  split; intros [H1 H2]; (split; [lia|]).
  - intros d Hd Hdiv.
    destruct (Z_le_gt_dec d m) as [Hle|Hgt].
    + specialize (H2 d ltac:(apply in_range; lia)).
      apply Z.mod_divide in Hdiv; [|nia]. rewrite Hdiv in H2. discriminate.
    + apply Z.divide_pos_le in Hdiv; [nia | lia].
  - intros d Hd%in_range. apply negb_true_iff, Z.eqb_neq. intros Hm.
    apply (H2 d ltac:(lia)). apply Z.mod_divide; [nia | exact Hm].
Qed.

Lemma squarefreeb_false (m : Z) : squarefreeb m = false <-> ~ squarefree m.
Proof. rewrite <- squarefreeb_spec. destruct (squarefreeb m); intuition congruence. Qed.

Lemma squarefree_or_not (m : Z) : squarefree m \/ ~ squarefree m.
Proof. rewrite <- squarefreeb_spec. destruct (squarefreeb m); auto. Qed.

Lemma forallb_false_exists {A : Type} (f : A -> bool) (l : list A) :
  forallb f l = false -> exists x, In x l /\ f x = false.
Proof.
  induction l as [|x l IH]; simpl; [discriminate|].
  destruct (f x) eqn:Hfx; simpl.
  - intros H. destruct (IH H) as (y & Hy & Hfy). exists y. auto.
  - intros _. exists x. auto.
Qed.

Lemma not_squarefree_witness (m : Z) :
  0 < m -> ~ squarefree m -> exists d, 1 < d /\ (d * d | m).
Proof.
  intros Hm Hn. apply squarefreeb_false in Hn. unfold squarefreeb in Hn.
  destruct (Z.ltb_spec 0 m); [|lia]. simpl in Hn.
  destruct (forallb_false_exists _ _ Hn) as (d & Hd%in_range & Hfd).
  exists d. split; [lia|].
  apply negb_false_iff, Z.eqb_eq in Hfd. apply Z.mod_divide; [nia | exact Hfd].
Qed.

Lemma squarefree_count_sum (x : Z) :
  squarefree_count x = zsum (fun m => ind (squarefreeb m)) 1 (x + 1).
Proof. unfold squarefree_count, zsum. apply len_filter_sum. Qed.

Lemma squarefree_count_0 : squarefree_count 0 = 0.
Proof. reflexivity. Qed.

Lemma squarefree_count_nonneg (x : Z) : 0 <= squarefree_count x.
Proof. unfold squarefree_count. apply len_nonneg. Qed.

(** ** Every positive integer is a square times a squarefree number *)

Lemma square_part_exists (m : Z) :
  1 <= m -> exists k, 1 <= k /\ (k * k | m) /\ squarefree (m / (k * k)).
Proof.
  induction m as [m IH] using Z_strong_ind. intros Hm.
  destruct (squarefree_or_not m) as [Hsf|Hnsf].
  - exists 1. split; [lia|]. split; [exists m; lia|].
    change (1 * 1) with 1. rewrite Z.div_1_r. exact Hsf.
  - destruct (not_squarefree_witness m ltac:(lia) Hnsf) as (d & Hd & [e He]).
    assert (Hdd : 1 < d * d) by nia.
    assert (He1 : 1 <= e < m) by nia.
    destruct (IH e ltac:(lia) ltac:(lia)) as (k & Hk & [j Hj] & Hsf).
    exists (d * k). split; [nia|]. split.
    + exists j. rewrite He, Hj. ring.
    + replace (m / (d * k * (d * k))) with (e / (k * k)); [exact Hsf|].
      rewrite He. replace (d * k * (d * k)) with (d * d * (k * k)) by ring.
      rewrite <- (Z.div_div (e * (d * d)) (d * d) (k * k)) by nia.
      rewrite Z.div_mul by nia. reflexivity.
Qed.

Lemma coprime_squares (a b : Z) : Z.gcd a b = 1 -> Z.gcd (a * a) (b * b) = 1.
Proof.
  intros H. apply Z.coprime_mul_l; apply Z.coprime_mul_r; exact H.
Qed.

Lemma square_divides_squarefree (a j : Z) :
  1 <= a -> squarefree j -> (a * a | j) -> a = 1.
Proof.
  intros Ha [_ Hj] Hdiv. destruct (Z.eq_dec a 1) as [|Hne]; [assumption|].
  exfalso. apply (Hj a); [lia | exact Hdiv].
Qed.

Lemma square_part_unique (m k1 k2 : Z) :
  1 <= m -> 1 <= k1 -> 1 <= k2 ->
  (k1 * k1 | m) -> squarefree (m / (k1 * k1)) ->
  (k2 * k2 | m) -> squarefree (m / (k2 * k2)) -> k1 = k2.
Proof.
  intros Hm Hk1 Hk2 [j1 Hj1] Hs1 [j2 Hj2] Hs2.
  rewrite Hj1 in Hs1 at 1. rewrite Z.div_mul in Hs1 by nia.
  rewrite Hj2 in Hs2 at 1. rewrite Z.div_mul in Hs2 by nia.
  destruct (Z.gcd_divide_l k1 k2) as [a Ha]. destruct (Z.gcd_divide_r k1 k2) as [b Hb].
  remember (Z.gcd k1 k2) as g eqn:Hgdef.
  assert (Hg : 0 < g).
  { pose proof (Z.gcd_nonneg k1 k2). destruct (Z.eq_dec g 0) as [H0|]; [|lia].
    rewrite Hgdef in H0. apply Z.gcd_eq_0_l in H0. lia. }
  assert (Hab : Z.gcd a b = 1).
  { pose proof (Z.gcd_div_gcd k1 k2 g ltac:(lia) Hgdef) as H.
    assert (Hqa : k1 / g = a) by (rewrite Ha; apply Z.div_mul; lia).
    assert (Hqb : k2 / g = b) by (rewrite Hb; apply Z.div_mul; lia).
    rewrite Hqa, Hqb in H. exact H. }
  assert (Ha1 : 1 <= a) by nia. assert (Hb1 : 1 <= b) by nia.
  assert (Heq : a * a * j1 = b * b * j2).
  { apply (Z.mul_reg_l _ _ (g * g)); [nia|].
    transitivity m; [rewrite Hj1, Ha; ring | rewrite Hj2, Hb; ring]. }
  assert (a = 1).
  { apply (square_divides_squarefree a j2 Ha1 Hs2).
    apply (Z.gauss _ (b * b)); [|apply coprime_squares; exact Hab].
    exists j1. lia. }
  assert (b = 1).
  { apply (square_divides_squarefree b j1 Hb1 Hs1).
    apply (Z.gauss _ (a * a)); [|apply coprime_squares; rewrite Z.gcd_comm; exact Hab].
    exists j2. lia. }
  subst a b. lia.
Qed.

(** Exactly one [k] contributes to the sum over the squares that divide [m]. *)
Lemma square_part_sum (m s : Z) :
  1 <= m -> 0 <= s -> m < (s + 1) * (s + 1) ->
  zsum (fun k => if m mod (k * k) =? 0 then ind (squarefreeb (m / (k * k))) else 0)
       1 (s + 1) = 1.
Proof.
  intros Hm Hs Hms.
  destruct (square_part_exists m Hm) as (k0 & Hk0 & Hdiv0 & Hsf0).
  assert (Hle : k0 * k0 <= m) by (apply Z.divide_pos_le; [lia | exact Hdiv0]).
  rewrite (zsum_single _ 1 (s + 1) k0).
  - apply Z.mod_divide in Hdiv0; [|nia]. rewrite Hdiv0. simpl.
    apply squarefreeb_spec in Hsf0. rewrite Hsf0. reflexivity.
  - nia.
  - intros k Hk Hne.
    destruct (Z.eqb_spec (m mod (k * k)) 0) as [H0|]; [|reflexivity].
    destruct (squarefreeb (m / (k * k))) eqn:Hsf; [|reflexivity].
    exfalso. apply Hne.
    apply (square_part_unique m k k0); auto; try lia.
    + apply Z.mod_divide; [nia | exact H0].
    + apply squarefreeb_spec. exact Hsf.
Qed.

(** The identity behind the recursion: every integer of [1, x] has one
    largest square divisor [k^2], and those with a given [k] are counted by
    [Q(x // k^2)]. *)
Lemma squarefree_count_identity (x : Z) :
  0 <= x -> zsum (fun k => squarefree_count (x / (k * k))) 1 (Z.sqrt x + 1) = x.
Proof.
  intros Hx. destruct (sqrt_bounds x Hx) as (Hs0 & Hlo & Hhi).
  set (s := Z.sqrt x) in *.
  transitivity (zsum (fun k =>
    zsum (fun m => if m mod (k * k) =? 0 then ind (squarefreeb (m / (k * k))) else 0)
         1 (x + 1)) 1 (s + 1)).
  - apply zsum_ext. intros k Hk. rewrite squarefree_count_sum.
    symmetry. apply (zsum_stride (fun j => ind (squarefreeb j))); nia.
  - rewrite zsum_swap.
    rewrite (zsum_ext _ (fun _ => 1)).
    + rewrite zsum_const_1 by lia. lia.
    + intros m Hm. apply square_part_sum; lia.
Qed.

Lemma squarefree_count_rec (x : Z) :
  0 <= x ->
  squarefree_count x =
    x - zsum (fun k => squarefree_count (x / (k * k))) 2 (Z.sqrt x + 1).
Proof.
  intros Hx. destruct (Z.eq_dec x 0) as [->|Hne].
  - reflexivity.
  - pose proof (squarefree_count_identity x Hx) as H.
    destruct (sqrt_bounds x Hx) as (Hs0 & Hlo & Hhi).
    assert (1 <= Z.sqrt x) by nia.
    rewrite zsum_cons in H by lia. change (1 * 1) with 1 in H.
    rewrite Z.div_1_r in H. change (1 + 1) with 2 in H. lia.
Qed.

(** * The full sieve [Q_sieve] *)

Lemma mod_sub_same (i c : Z) : c <> 0 -> (i - c) mod c = i mod c.
Proof.
  intros Hc. replace (i - c) with (i + (-1) * c) by lia. apply Z_mod_plus_full.
Qed.

Lemma square_le_lt (q s i : Z) :
  0 <= q -> 0 <= s -> q * q <= i -> i < (s + 1) * (s + 1) -> q <= s.
Proof.
  intros Hq Hs Hqi His. destruct (Z_le_gt_dec q s) as [|Hgt]; [assumption|].
  assert ((s + 1) * (s + 1) <= q * q) by (apply Z.mul_le_mono_nonneg; lia). lia.
Qed.

Lemma primes_bound_spec (s : Z) : 0 <= s -> primes (s + 1) = Ok (primes_in 2 (s + 2)).
Proof.
  intros Hs. rewrite primes_spec by lia. do 2 f_equal. lia.
Qed.

Lemma prime_square_factor (d i : Z) :
  1 < d -> (d * d | i) -> exists q, Z.prime q /\ (q * q | i).
Proof.
  intros Hd Hdiv. destruct (prime_factor d ltac:(lia)) as (q & Hq & [e He]).
  exists q. split; [exact Hq|].
  eapply Z.divide_trans; [|exact Hdiv]. exists (e * e). rewrite He. ring.
Qed.

(** A number below [(s+1)^2] is squarefree when no prime up to [s + 1] has
    its square dividing it. *)
Lemma squarefree_prime_squares (i s : Z) :
  1 <= i -> 0 <= s -> i < (s + 1) * (s + 1) ->
  (squarefree i <-> forall p, In p (primes_in 2 (s + 2)) -> ~ (p * p | i)).
Proof.
  intros Hi Hs Hlt. split.
  - intros [_ Hsf] p [Hp _]%in_primes_in. apply Hsf. lia.
  - intros Hno. split; [lia|]. intros d Hd Hdiv.
    destruct (prime_square_factor d i Hd Hdiv) as (q & Hq & Hqq).
    apply (Hno q); [|exact Hqq]. apply in_primes_in. split; [|exact Hq].
    pose proof (Z.prime_ge_2 q Hq).
    pose proof (Z.divide_pos_le (q * q) i ltac:(lia) Hqq).
    pose proof (square_le_lt q s i ltac:(lia) Hs ltac:(lia) Hlt). lia.
Qed.

Lemma square_sieve_step (pre : list Z) (p n : Z) (block : list bool) :
  2 <= p -> square_sieved pre n block ->
  exists block', slice_assign block (p * p) (p * p) false = Ok block' /\
                 square_sieved (pre ++ [p]) n block'.
Proof.
  intros Hp [Hlen Hbits]. assert (Hpp : 4 <= p * p) by nia.
  rewrite slice_assign_pos by lia. eexists. split; [reflexivity|].
  split; [rewrite len_update_from; exact Hlen|].
  intros i Hi. rewrite bit_slice by lia. rewrite mod_sub_same by lia.
  destruct (Z.leb_spec (p * p) i) as [Hsq|Hsq];
    destruct (Z.eqb_spec (i mod (p * p)) 0) as [Hm|Hm]; simpl.
  - split; [discriminate|]. intros [_ Hno]. exfalso.
    apply (Hno p); [apply in_or_app; right; left; reflexivity|].
    apply Z.mod_divide; [lia | exact Hm].
  - rewrite (Hbits i Hi). split; intros [H1 Hno]; (split; [exact H1|]); intros q Hq.
    + apply in_app_or in Hq. destruct Hq as [Hq|[<-|[]]]; [apply Hno; exact Hq|].
      intros Hdiv. apply Hm. apply Z.mod_divide; [lia | exact Hdiv].
    + apply Hno. apply in_or_app. left. exact Hq.
  - rewrite (Hbits i Hi). split; intros [H1 Hno]; (split; [exact H1|]); intros q Hq.
    + apply in_app_or in Hq. destruct Hq as [Hq|[<-|[]]]; [apply Hno; exact Hq|].
      intros Hdiv. apply Z.divide_pos_le in Hdiv; lia.
    + apply Hno. apply in_or_app. left. exact Hq.
  - rewrite (Hbits i Hi). split; intros [H1 Hno]; (split; [exact H1|]); intros q Hq.
    + apply in_app_or in Hq. destruct Hq as [Hq|[<-|[]]]; [apply Hno; exact Hq|].
      intros Hdiv. apply Z.divide_pos_le in Hdiv; lia.
    + apply Hno. apply in_or_app. left. exact Hq.
Qed.

Lemma square_sieve_loop (ps : list Z) (n : Z) (block : list bool) :
  (forall p, In p ps -> 2 <= p) -> square_sieved [] n block ->
  exists block',
    for_each ps (fun p block => slice_assign block (p * p) (p * p) false) block
      = Ok block' /\ square_sieved ps n block'.
Proof.
  intros Hps H0.
  apply (for_each_invariant (fun pre b => square_sieved pre n b)); [exact H0|].
  intros pre p post b Heq Hb. apply square_sieve_step; [|exact Hb].
  apply Hps. rewrite Heq. apply in_or_app. right. left. reflexivity.
Qed.

Lemma squarefree_count_from_0 (n : Z) :
  0 <= n -> len (List.filter squarefreeb (range 0 (n + 1))) = squarefree_count n.
Proof.
  intros Hn. rewrite range_cons by lia. reflexivity.
Qed.

Theorem Q_sieve_spec (n : Z) : 0 <= n -> Q_sieve n = Ok (squarefree_count n).
Proof.
  intros Hn. unfold Q_sieve.
  rewrite np_ones_ok by lia. simpl.
  rewrite setitem_in by (rewrite len_repeat; lia). simpl.
  rewrite integer_sqrt_Zsqrt by lia. simpl.
  destruct (sqrt_bounds n Hn) as (Hs0 & Hlo & Hhi).
  rewrite primes_bound_spec by lia. simpl.
  set (block0 := update_from (Z.eqb 0) (fun _ => false) 0 (repeat true (Z.to_nat (n + 1)))).
  assert (H0 : square_sieved [] n block0).
  { split.
    - unfold block0. rewrite len_update_from, len_repeat; lia.
    - intros i Hi. unfold block0.
      rewrite bit_setitem by (rewrite len_repeat; lia). rewrite bit_ones by lia.
      destruct (Z.eqb_spec 0 i); [subst; split; [discriminate | lia]|].
      split; [|reflexivity]. intros _. split; [lia|]. intros p []. }
  destruct (square_sieve_loop (primes_in 2 (Z.sqrt n + 2)) n block0) as (b & Hb & [Hlen Hbits]).
  - intros p [Hp _]%in_primes_in. lia.
  - exact H0.
  - rewrite Hb. simpl. f_equal.
    unfold count_nonzero. rewrite flatnonzero_filter, Hlen.
    rewrite <- squarefree_count_from_0 by lia. f_equal.
    apply filter_range_ext. intros i Hi.
    destruct (Z.eq_dec i 0) as [->|Hne].
    + change (squarefreeb 0) with false. apply not_true_is_false.
      intros Hb0. apply Hbits in Hb0; lia.
    + destruct (squarefreeb i) eqn:Hsf.
      * apply squarefreeb_spec in Hsf. apply Hbits; [lia|]. split; [lia|].
        apply (squarefree_prime_squares i (Z.sqrt n)); try lia. exact Hsf.
      * apply squarefreeb_false in Hsf. apply not_true_is_false. intros Hbi.
        apply Hsf. apply Hbits in Hbi; [|lia]. destruct Hbi as [H1 Hno].
        apply (squarefree_prime_squares i (Z.sqrt n)); try lia. exact Hno.
Qed.

(** * The Moebius-weighted sieve [Q_moebius] *)

Lemma mu_factor_range (p d : Z) : -1 <= mu_factor p d <= 1.
Proof.
  unfold mu_factor. destruct (d mod (p * p) =? 0); [lia|].
  destruct (d mod p =? 0); lia.
Qed.

Lemma mu_sieve_range (ps : list Z) (d : Z) : -1 <= mu_sieve ps d <= 1.
Proof.
  induction ps as [|p ps IH]; simpl; [lia|].
  pose proof (mu_factor_range p d). nia.
Qed.

Lemma mu_sieve_snoc (ps : list Z) (p d : Z) :
  mu_sieve (ps ++ [p]) d = mu_sieve ps d * mu_factor p d.
Proof.
  unfold mu_sieve. induction ps as [|q ps IH]; simpl; [lia|].
  rewrite IH. ring.
Qed.

Lemma mu_sieve_one (ps : list Z) : (forall p, In p ps -> 2 <= p) -> mu_sieve ps 1 = 1.
Proof.
  intros Hps. induction ps as [|p ps IH]; [reflexivity|].
  simpl. rewrite IH by (intros q Hq; apply Hps; right; exact Hq).
  assert (Hp : 2 <= p) by (apply Hps; left; reflexivity).
  unfold mu_factor. rewrite (Z.mod_small 1 (p * p)) by nia.
  rewrite (Z.mod_small 1 p) by lia. reflexivity.
Qed.

Lemma divides_eqb (c d : Z) : c <> 0 -> (d mod c =? 0) = true <-> (c | d).
Proof. intros Hc. rewrite Z.eqb_eq. apply Z.mod_divide. exact Hc. Qed.

Lemma eqb_iff (a b : bool) : (a = true <-> b = true) -> a = b.
Proof. destruct a, b; intuition congruence. Qed.

Lemma prime_not_divides_prime (p q : Z) :
  Z.prime p -> Z.prime q -> p <> q -> ~ (q | p).
Proof.
  intros Hp Hq Hne Hdiv. apply (Z.divide_prime_prime q p Hq Hp) in Hdiv. lia.
Qed.

Lemma coprime_prime_power (p q : Z) :
  Z.prime p -> Z.prime q -> p <> q -> Z.gcd (p * p) q = 1.
Proof.
  intros Hp Hq Hne. rewrite Z.gcd_comm.
  apply (Z.coprime_prime_l q (p * p) Hq). intros Hdiv.
  apply (Z.divide_prime_mul p p q Hq) in Hdiv.
  pose proof (prime_not_divides_prime p q Hp Hq Hne). tauto.
Qed.

(** A prime [q] other than [p] does not change what [p] does to [e]. *)
Lemma mu_factor_other (p q e : Z) :
  Z.prime p -> Z.prime q -> p <> q -> mu_factor p (q * e) = mu_factor p e.
Proof.
  intros Hp Hq Hne. pose proof (Z.prime_ge_2 p Hp) as Hp2.
  assert (Hpp : p * p <> 0) by nia.
  unfold mu_factor.
  assert (H2 : (q * e mod (p * p) =? 0) = (e mod (p * p) =? 0)).
  { apply eqb_iff. rewrite !divides_eqb by lia. split.
    - intros Hdiv. apply (Z.gauss _ q); [exact Hdiv|].
      apply coprime_prime_power; assumption.
    - intros Hdiv. apply Z.divide_mul_r. exact Hdiv. }
  assert (H1 : (q * e mod p =? 0) = (e mod p =? 0)).
  { apply eqb_iff. rewrite !divides_eqb by lia. split.
    - intros Hdiv. apply (Z.divide_prime_mul q e p Hp) in Hdiv.
      destruct Hdiv as [Hdiv|Hdiv]; [|exact Hdiv].
      exfalso. apply (prime_not_divides_prime q p Hq Hp); [lia | exact Hdiv].
    - intros Hdiv. apply Z.divide_mul_r. exact Hdiv. }
  rewrite H2, H1. reflexivity.
Qed.

Lemma mu_factor_self (q e : Z) :
  2 <= q -> ~ (q | e) -> mu_factor q (q * e) = -1 /\ mu_factor q e = 1.
Proof.
  intros Hq Hnd. assert (Hqq : q * q <> 0) by nia. unfold mu_factor. split.
  - assert ((q * e mod (q * q) =? 0) = false) as ->.
    { apply not_true_is_false. rewrite divides_eqb by lia. intros Hdiv.
      apply Hnd. apply (Z.mul_divide_cancel_l q e q); [lia | exact Hdiv]. }
    assert ((q * e mod q =? 0) = true) as ->; [|reflexivity].
    apply divides_eqb; [lia|]. exists e. lia.
  - assert ((e mod (q * q) =? 0) = false) as ->.
    { apply not_true_is_false. rewrite divides_eqb by lia. intros [w Hw].
      apply Hnd. exists (w * q). lia. }
    assert ((e mod q =? 0) = false) as ->; [|reflexivity].
    apply not_true_is_false. rewrite divides_eqb by lia. exact Hnd.
Qed.

Lemma mu_sieve_other (ps : list Z) (q e : Z) :
  (forall p, In p ps -> Z.prime p) -> Z.prime q -> ~ In q ps ->
  mu_sieve ps (q * e) = mu_sieve ps e.
Proof.
  intros Hps Hq Hnin. induction ps as [|p ps IH]; [reflexivity|].
  simpl. rewrite IH.
  - rewrite mu_factor_other; [reflexivity | apply Hps; left; reflexivity | exact Hq |].
    intros ->. apply Hnin. left. reflexivity.
  - intros p' Hp'. apply Hps. right. exact Hp'.
  - intros Hin. apply Hnin. right. exact Hin.
Qed.

(** Multiplying by a prime of the list that does not divide [e] flips the
    weight. *)
Lemma mu_sieve_flip (ps : list Z) (q e : Z) :
  List.NoDup ps -> (forall p, In p ps -> Z.prime p) -> In q ps -> ~ (q | e) ->
  mu_sieve ps (q * e) = - mu_sieve ps e.
Proof.
  intros Hnd Hps Hin Hne. induction ps as [|p ps IH]; [destruct Hin|].
  inversion Hnd as [|p' ps' Hnotin Hnd']; subst.
  assert (Hp : Z.prime p) by (apply Hps; left; reflexivity).
  assert (Hps' : forall p', In p' ps -> Z.prime p')
    by (intros p' Hp'; apply Hps; right; exact Hp').
  simpl. destruct Hin as [->|Hin].
  - rewrite mu_sieve_other by assumption.
    destruct (mu_factor_self q e (Z.prime_ge_2 q Hp) Hne) as [-> ->]. ring.
  - rewrite IH by assumption.
    assert (Hq : Z.prime q) by (apply Hps'; exact Hin).
    rewrite mu_factor_other; [ring | exact Hp | exact Hq |].
    intros ->. contradiction.
Qed.

(** A multiple of the square of a prime of the list has weight 0. *)
Lemma mu_sieve_zero (ps : list Z) (q d : Z) :
  In q ps -> q <> 0 -> (q * q | d) -> mu_sieve ps d = 0.
Proof.
  intros Hin Hq Hdiv. induction ps as [|p ps IH]; [destruct Hin|].
  simpl. destruct Hin as [->|Hin].
  - unfold mu_factor.
    assert ((d mod (q * q) =? 0) = true) as ->; [|lia].
    apply divides_eqb; [nia | exact Hdiv].
  - rewrite IH by exact Hin. lia.
Qed.

Lemma coprime_divide_mul (a b m : Z) :
  Z.gcd a b = 1 -> (a | m) -> (b | m) -> (a * b | m).
Proof.
  intros Hg [u Hu] Hb. subst m.
  assert (Hbu : (b | u)).
  { apply (Z.gauss _ a); [|rewrite Z.gcd_comm; exact Hg].
    rewrite Z.mul_comm. exact Hb. }
  destruct Hbu as [w Hw]. exists w. subst u. ring.
Qed.

(** With [q^2 | m] and [q] not dividing [e]: [(q e)^2 | m] iff [e^2 | m]. *)
Lemma square_times_prime (q e m : Z) :
  Z.prime q -> ~ (q | e) -> (q * q | m) ->
  ((q * e * (q * e) | m) <-> (e * e | m)).
Proof.
  intros Hq Hne Hqq. split.
  - intros Hdiv. eapply Z.divide_trans; [|exact Hdiv]. exists (q * q). ring.
  - intros Hee. replace (q * e * (q * e)) with (q * q * (e * e)) by ring.
    apply coprime_divide_mul; [|exact Hqq | exact Hee].
    apply coprime_squares. apply (Z.coprime_prime_l q e Hq Hne).
Qed.

(** ** The weights add up to the squarefree indicator *)

Lemma range_NoDup (a b : Z) : List.NoDup (range a b).
Proof.
  unfold range. apply Finite.Injective_map_NoDup; [|apply List.seq_NoDup].
  intros i j H. lia.
Qed.

Lemma primes_in_upto (s : Z) : primes_upto (primes_in 2 (s + 2)) s.
Proof.
  split; [|split].
  - unfold primes_in. apply List.NoDup_filter. apply range_NoDup.
  - intros p Hp%in_primes_in. tauto.
  - intros q Hq Hle. apply in_primes_in. split; [|exact Hq].
    pose proof (Z.prime_ge_2 q Hq). lia.
Qed.

Lemma mu_sum_squarefree (ps : list Z) (m s : Z) :
  (forall p, In p ps -> Z.prime p) -> squarefree m -> 1 <= s ->
  zsum (mu_term ps m) 1 (s + 1) = 1.
Proof.
  intros Hps [Hm Hsf] Hs. rewrite (zsum_single _ 1 (s + 1) 1).
  - unfold mu_term. change (1 * 1) with 1. rewrite Z.mod_1_r. simpl.
    apply mu_sieve_one. intros p Hp. apply Z.prime_ge_2. apply Hps. exact Hp.
  - lia.
  - intros d Hd Hne. unfold mu_term.
    destruct (Z.eqb_spec (m mod (d * d)) 0) as [H0|]; [|reflexivity].
    exfalso. apply (Hsf d); [lia|]. apply Z.mod_divide; [nia | exact H0].
Qed.

Lemma mu_term_times_prime (ps : list Z) (m q e : Z) :
  List.NoDup ps -> (forall p, In p ps -> Z.prime p) -> In q ps -> (q * q | m) ->
  mu_term ps m (q * e) = if e mod q =? 0 then 0 else - mu_term ps m e.
Proof.
  intros Hnd Hps Hin Hqq.
  assert (Hq : Z.prime q) by (apply Hps; exact Hin).
  pose proof (Z.prime_ge_2 q Hq) as Hq2. unfold mu_term.
  destruct (Z.eqb_spec (e mod q) 0) as [H0|Hne].
  - rewrite (mu_sieve_zero ps q (q * e) Hin ltac:(lia)).
    + destruct (m mod (q * e * (q * e)) =? 0); reflexivity.
    + apply Z.mod_divide in H0; [|lia]. destruct H0 as [w ->]. exists w. ring.
  - assert (Hnd' : ~ (q | e)) by (intros H; apply Hne; apply Z.mod_divide; [lia | exact H]).
    rewrite (mu_sieve_flip ps q e Hnd Hps Hin Hnd').
    destruct (Z.eq_dec e 0) as [->|He0]; [exfalso; apply Hnd'; exists 0; lia|].
    assert ((m mod (q * e * (q * e)) =? 0) = (m mod (e * e) =? 0)) as ->.
    { apply eqb_iff. rewrite !divides_eqb by nia.
      apply square_times_prime; assumption. }
    destruct (m mod (e * e) =? 0); lia.
Qed.

Lemma mu_sum_not_squarefree (ps : list Z) (m s : Z) :
  primes_upto ps s -> 1 <= m -> 0 <= s -> m < (s + 1) * (s + 1) -> ~ squarefree m ->
  zsum (mu_term ps m) 1 (s + 1) = 0.
Proof.
  intros (Hnd & Hps & Hall) Hm Hs Hms Hnsf.
  destruct (not_squarefree_witness m ltac:(lia) Hnsf) as (d0 & Hd0 & Hdiv0).
  destruct (prime_square_factor d0 m Hd0 Hdiv0) as (q & Hq & Hqq).
  pose proof (Z.prime_ge_2 q Hq) as Hq2.
  pose proof (Z.divide_pos_le (q * q) m ltac:(lia) Hqq) as Hqm.
  pose proof (square_le_lt q s m ltac:(lia) Hs Hqm Hms) as Hqs.
  assert (Hin : In q ps) by (apply Hall; assumption).
  set (g := mu_term ps m).
  set (t := s / q).
  assert (Ht : 0 <= t <= s).
  { unfold t. split; [apply Z.div_pos; lia|].
    apply Z.div_le_upper_bound; [lia | nia]. }
  (* the multiples of q and the others *)
  rewrite (zsum_ext g (fun d => (if d mod q =? 0 then g d else 0)
                                + (if d mod q =? 0 then 0 else g d)))
    by (intros d _; destruct (d mod q =? 0); lia).
  rewrite zsum_add.
  (* the multiples of q, by their quotient *)
  rewrite (zsum_ext (fun d => if d mod q =? 0 then g d else 0)
                    (fun d => if d mod q =? 0 then g (q * (d / q)) else 0)).
  2:{ intros d _. destruct (Z.eqb_spec (d mod q) 0) as [H0|]; [|reflexivity].
      f_equal. apply Z_div_exact_full_2; lia. }
  rewrite (zsum_stride (fun e => g (q * e)) q s) by lia. fold t.
  rewrite (zsum_ext (fun e => g (q * e))
                    (fun e => - (if e mod q =? 0 then 0 else g e))).
  2:{ intros e _. unfold g. rewrite mu_term_times_prime by assumption.
      destruct (e mod q =? 0); lia. }
  rewrite zsum_opp.
  (* the others: none beyond s // q *)
  rewrite (zsum_split (fun d => if d mod q =? 0 then 0 else g d) 1 (t + 1) (s + 1))
    by lia.
  rewrite (zsum_zero _ (t + 1) (s + 1)); [lia|].
  intros d Hd. destruct (Z.eqb_spec (d mod q) 0) as [|Hne]; [reflexivity|].
  unfold g, mu_term.
  destruct (Z.eqb_spec (m mod (d * d)) 0) as [H0|]; [|reflexivity].
  exfalso.
  assert (Hnd' : ~ (q | d)) by (intros H; apply Hne; apply Z.mod_divide; [lia | exact H]).
  assert (Hdd : (d * d | m)) by (apply Z.mod_divide; [nia | exact H0]).
  apply (square_times_prime q d m Hq Hnd' Hqq) in Hdd.
  pose proof (Z.divide_pos_le _ m ltac:(lia) Hdd) as Hle.
  pose proof (square_le_lt (q * d) s m ltac:(nia) Hs Hle Hms) as Hqd.
  assert (d <= t); [|lia].
  unfold t. apply Z.div_le_lower_bound; lia.
Qed.

Lemma mu_sum_indicator (ps : list Z) (m s : Z) :
  primes_upto ps s -> 1 <= m -> 0 <= s -> m < (s + 1) * (s + 1) ->
  zsum (mu_term ps m) 1 (s + 1) = ind (squarefreeb m).
Proof.
  intros Hps Hm Hs Hms. destruct (squarefreeb m) eqn:Hsf.
  - apply squarefreeb_spec in Hsf. apply mu_sum_squarefree; [apply Hps | exact Hsf |].
    destruct (Z.eq_dec s 0) as [->|]; lia.
  - apply squarefreeb_false in Hsf. apply mu_sum_not_squarefree; assumption.
Qed.

Lemma zsum_const (c a b : Z) : a <= b -> zsum (fun _ => c) a b = c * (b - a).
Proof.
  intros H. rewrite (zsum_ext _ (fun _ => 1 * c)) by (intros; lia).
  rewrite zsum_mul_r, zsum_const_1 by lia. lia.
Qed.

(** [Q(x) = sum over d <= sqrt(x) of mu(d) * (x // d^2)], for the weights the
    sieve computes. *)
Lemma moebius_sum (ps : list Z) (x : Z) :
  0 <= x -> primes_upto ps (Z.sqrt x) ->
  zsum (fun d => x / (d * d) * mu_sieve ps d) 1 (Z.sqrt x + 1) = squarefree_count x.
Proof.
  intros Hx Hps. destruct (sqrt_bounds x Hx) as (Hs0 & Hlo & Hhi).
  set (s := Z.sqrt x) in *.
  rewrite squarefree_count_sum.
  rewrite (zsum_ext (fun m => ind (squarefreeb m))
                    (fun m => zsum (fun d => mu_term ps m d) 1 (s + 1))).
  2:{ intros m Hm. symmetry. apply mu_sum_indicator; auto; lia. }
  rewrite zsum_swap. apply zsum_ext. intros d Hd.
  unfold mu_term.
  rewrite (zsum_stride (fun _ => mu_sieve ps d) (d * d) x) by nia.
  assert (0 <= x / (d * d)) by (apply Z.div_pos; nia).
  rewrite zsum_const by lia. lia.
Qed.

(** ** The array of [Q_moebius] *)

Lemma wrap64_small (v : Z) : - 2 ^ 63 <= v < 2 ^ 63 -> wrap64 v = v.
Proof. intros H. unfold wrap64. rewrite Z.mod_small by lia. lia. Qed.

Lemma nth_range (a b : Z) (n : nat) (d : Z) :
  (n < Z.to_nat (b - a))%nat -> nth n (range a b) d = a + Z.of_nat n.
Proof.
  intros H. unfold range.
  rewrite (nth_indep _ d (a + Z.of_nat 0)) by (rewrite length_map, length_seq; exact H).
  rewrite (map_nth (fun i => a + Z.of_nat i)). rewrite seq_nth by exact H.
  reflexivity.
Qed.

Lemma nth_map_range (f : Z -> Z) (a b i d : Z) :
  a <= i < b -> nth (Z.to_nat (i - a)) (map f (range a b)) d = f i.
Proof.
  intros H.
  rewrite (nth_indep _ d (f 0)) by (rewrite length_map; unfold range;
    rewrite length_map, length_seq; lia).
  rewrite map_nth. rewrite nth_range by lia. f_equal. lia.
Qed.

Lemma list_as_map_range (l : list Z) (f : Z -> Z) (a b : Z) :
  a <= b -> len l = b - a ->
  (forall i, a <= i < b -> nth (Z.to_nat (i - a)) l 0 = f i) ->
  l = map f (range a b).
Proof.
  intros Hab Hlen Hnth. unfold len in Hlen.
  apply (nth_ext _ _ 0 0).
  - rewrite length_map. unfold range. rewrite length_map, length_seq. lia.
  - intros n Hn.
    replace n with (Z.to_nat (a + Z.of_nat n - a)) by lia.
    rewrite Hnth by lia. rewrite nth_map_range by lia. reflexivity.
Qed.

Lemma multiple_test (p d : Z) :
  0 < p -> 1 <= d ->
  (p - 1 <=? d - 1) && ((d - 1 - (p - 1)) mod p =? 0) = (d mod p =? 0).
Proof.
  intros Hp Hd. replace (d - 1 - (p - 1)) with (d - p) by lia.
  rewrite mod_sub_same by lia.
  destruct (Z.eqb_spec (d mod p) 0) as [H0|]; [|apply andb_false_r].
  rewrite andb_true_r. apply Z.leb_le.
  apply Z.mod_divide in H0; [|lia]. apply Z.divide_pos_le in H0; lia.
Qed.

Lemma entry_bound (n d w : Z) :
  0 <= n -> 1 <= d -> -1 <= w <= 1 -> - n <= n / (d * d) * w <= n.
Proof.
  intros Hn Hd Hw.
  assert (HD : 1 <= d * d) by nia. set (D := d * d) in *.
  assert (0 <= n / D <= n).
  { split; [apply Z.div_pos; lia|]. apply Z.div_le_upper_bound; [lia | nia]. }
  nia.
Qed.

Lemma moebius_step (n s p : Z) (pre : list Z) (block : list Z) :
  0 <= n < 2 ^ 63 -> 2 <= p -> moebius_state n s pre block ->
  exists block',
    (do b <~ slice_update block (p - 1) p (fun v => wrap64 (v * -1)) ;
     slice_assign b (p * p - 1) (p * p) 0) = Ok block' /\
    moebius_state n s (pre ++ [p]) block'.
Proof.
  intros Hn Hp [Hlen Hent]. assert (Hpp : 4 <= p * p) by nia.
  rewrite slice_update_pos by lia. simpl.
  rewrite slice_assign_pos by lia. eexists. split; [reflexivity|].
  split; [rewrite !len_update_from; exact Hlen|].
  intros d Hd. pose proof (len_nonneg block).
  rewrite nth_update_from_Z by (rewrite len_update_from; lia).
  rewrite nth_update_from_Z by lia.
  rewrite len_update_from.
  rewrite !in_slice_pos by lia.
  rewrite (multiple_test (p * p) d) by lia.
  rewrite (multiple_test p d) by lia.
  rewrite Hent by lia. rewrite mu_sieve_snoc. unfold mu_factor.
  destruct (d mod (p * p) =? 0); [ring|].
  destruct (d mod p =? 0); [|ring].
  pose proof (entry_bound n d (mu_sieve pre d) ltac:(lia) ltac:(lia)
                (mu_sieve_range pre d)).
  rewrite wrap64_small by lia. ring.
Qed.

Lemma moebius_loop (n s : Z) (ps : list Z) (block : list Z) :
  0 <= n < 2 ^ 63 -> (forall p, In p ps -> 2 <= p) -> moebius_state n s [] block ->
  exists block',
    for_each ps (fun p block =>
      do block <~ slice_update block (p - 1) p (fun v => wrap64 (v * -1)) ;
      slice_assign block (p * p - 1) (p * p) 0) block = Ok block' /\
    moebius_state n s ps block'.
Proof.
  intros Hn Hps H0.
  apply (for_each_invariant (fun pre b => moebius_state n s pre b)); [exact H0|].
  intros pre p post b Heq Hb. apply moebius_step; [exact Hn | | exact Hb].
  apply Hps. rewrite Heq. apply in_or_app. right. left. reflexivity.
Qed.

Lemma squarefree_count_le (x : Z) : 0 <= x -> squarefree_count x <= x.
Proof.
  intros Hx. unfold squarefree_count.
  transitivity (len (range 1 (x + 1))); [|rewrite len_range; lia].
  unfold len. apply inj_le. apply List.filter_length_le.
Qed.

Theorem Q_moebius_spec (n : Z) :
  0 <= n < 2 ^ 63 -> Q_moebius n = Ok (squarefree_count n).
Proof.
  intros Hn. unfold Q_moebius.
  rewrite integer_sqrt_Zsqrt by lia. simpl.
  destruct (sqrt_bounds n ltac:(lia)) as (Hs0 & Hlo & Hhi).
  pose proof (moebius_sum (primes_in 2 (Z.sqrt n + 2)) n ltac:(lia)
                (primes_in_upto (Z.sqrt n))) as Hsum.
  unfold zsum in Hsum.
  set (s := Z.sqrt n) in *.
  rewrite primes_bound_spec by lia. simpl.
  destruct (moebius_loop n s (primes_in 2 (s + 2))
              (map (fun d => n / d ^ 2) (range 1 (s + 1)))) as (b & Hb & [Hlen Hent]).
  - exact Hn.
  - intros p [Hp _]%in_primes_in. lia.
  - split.
    + rewrite len_map, len_range; lia.
    + intros d Hd. rewrite (nth_map_range (fun d => n / d ^ 2)) by lia.
      rewrite Z.pow_2_r. simpl. lia.
  - rewrite Hb. simpl. f_equal.
    rewrite (list_as_map_range b (fun d => n / (d * d) * mu_sieve (primes_in 2 (s + 2)) d)
               1 (s + 1)); try lia.
    + rewrite Hsum.
      pose proof (squarefree_count_nonneg n).
      pose proof (squarefree_count_le n ltac:(lia)).
      apply wrap64_small. lia.
    + intros i Hi. apply Hent. lia.
Qed.

(** * The memoized recursion [Q_memo] *)

Lemma cache_ok_initial : cache_ok memo_initial.
Proof.
  intros k v H. unfold memo_initial in H.
  apply lookup_singleton_Some in H. destruct H as [<- <-].
  split; [lia | reflexivity].
Qed.

Lemma cache_ok_insert (c : gmap Z Z) (x : Z) :
  0 <= x -> cache_ok c -> cache_ok (<[ x := squarefree_count x ]> c).
Proof.
  intros Hx Hc k v H. destruct (Z.eq_dec x k) as [->|Hne].
  - rewrite lookup_insert_eq in H. inversion H. auto.
  - rewrite lookup_insert_ne in H by exact Hne. apply Hc. exact H.
Qed.

Lemma sum_calls_spec (f : Z -> gmap Z Z -> result Z * gmap Z Z) (args : list Z)
    (acc : Z) (c : gmap Z Z) :
  (forall a c, In a args -> cache_ok c ->
     exists c', f a c = (Ok (squarefree_count a), c') /\ cache_ok c') ->
  cache_ok c ->
  exists c', sum_calls f args acc c =
               (Ok (acc + sum_list (map squarefree_count args)), c') /\
             cache_ok c'.
Proof.
  revert acc c. induction args as [|a args IH]; intros acc c Hf Hc.
  - exists c. simpl. rewrite Z.add_0_r. auto.
  - destruct (Hf a c (or_introl eq_refl) Hc) as (c1 & Hcall & Hc1).
    simpl. rewrite Hcall.
    destruct (IH (acc + squarefree_count a) c1) as (c2 & Hrest & Hc2).
    + intros a' c' Ha'. apply Hf. right. exact Ha'.
    + exact Hc1.
    + exists c2. rewrite Hrest. split; [|exact Hc2].
      rewrite Z.add_assoc. reflexivity.
Qed.

Lemma subproblem_smaller (x k : Z) : 1 <= x -> 2 <= k -> 0 <= x / k ^ 2 < x.
Proof.
  intros Hx Hk. rewrite Z.pow_2_r.
  assert (Hkk : 4 <= k * k) by nia. split.
  - apply Z.div_pos; lia.
  - apply Z.div_lt_upper_bound; [lia|]. nia.
Qed.

Lemma subproblem_sum (x s : Z) :
  sum_list (map squarefree_count (map (fun k => x / k ^ 2) (range 2 (s + 1)))) =
  zsum (fun k => squarefree_count (x / (k * k))) 2 (s + 1).
Proof.
  unfold zsum. rewrite map_map. f_equal. apply map_ext. intros k.
  rewrite Z.pow_2_r. reflexivity.
Qed.

(** A call on a sound dictionary returns the count and leaves a sound
    dictionary. *)
Lemma Q_memo_rec_spec (fuel : nat) (x : Z) (c : gmap Z Z) :
  0 <= x -> (Z.to_nat x < fuel)%nat -> cache_ok c ->
  exists c', Q_memo_rec fuel x c = (Ok (squarefree_count x), c') /\ cache_ok c'.
Proof.
  revert x c. induction fuel as [|fuel IH]; intros x c Hx Hfuel Hc; [lia|].
  simpl. destruct (c !! x) as [v|] eqn:Hlook.
  - destruct (Hc x v Hlook) as [_ ->]. exists c. auto.
  - rewrite integer_sqrt_Zsqrt by lia.
    destruct (sum_calls_spec (Q_memo_rec fuel)
                (map (fun k => x / k ^ 2) (range 2 (Z.sqrt x + 1))) 0 c)
      as (c1 & Hsum & Hc1).
    + intros a c0 (k & <- & Hk%in_range)%in_map_iff Hc0.
      destruct (sqrt_bounds x Hx) as (_ & Hlo & _).
      assert (1 <= x) by nia.
      pose proof (subproblem_smaller x k ltac:(lia) ltac:(lia)).
      apply IH; [lia | lia | exact Hc0].
    + exact Hc.
    + rewrite Hsum. rewrite subproblem_sum. simpl.
      rewrite <- squarefree_count_rec by lia.
      eexists. split; [reflexivity|]. apply cache_ok_insert; assumption.
Qed.

Lemma Q_memo_rec_negative (fuel : nat) (x : Z) (c : gmap Z Z) :
  x < 0 -> cache_ok c -> Q_memo_rec (S fuel) x c = (Raise ValueError, c).
Proof.
  intros Hx Hc. simpl. destruct (c !! x) as [v|] eqn:Hlook.
  - destruct (Hc x v Hlook). lia.
  - rewrite integer_sqrt_negative by lia. reflexivity.
Qed.

Lemma Q_memo_spec (x : Z) (c : gmap Z Z) :
  0 <= x -> cache_ok c ->
  exists c', Q_memo x c = (Ok (squarefree_count x), c') /\ cache_ok c'.
Proof.
  intros Hx Hc. unfold Q_memo. apply Q_memo_rec_spec; auto.
  unfold fuel_from. lia.
Qed.

Lemma Q_memo_negative (x : Z) (c : gmap Z Z) :
  x < 0 -> cache_ok c -> Q_memo x c = (Raise ValueError, c).
Proof.
  intros Hx Hc. unfold Q_memo, fuel_from. apply Q_memo_rec_negative; auto.
Qed.

Lemma Q_memo_keeps_ok (x : Z) (c : gmap Z Z) : cache_ok c -> cache_ok (snd (Q_memo x c)).
Proof.
  intros Hc. destruct (Z_lt_le_dec x 0) as [Hneg|Hpos].
  - rewrite Q_memo_negative by assumption. exact Hc.
  - destruct (Q_memo_spec x c Hpos Hc) as (c' & -> & Hc'). exact Hc'.
Qed.

Lemma memo_reachable_ok (c : gmap Z Z) : memo_reachable c -> cache_ok c.
Proof.
  induction 1 as [|x c _ IH]; [apply cache_ok_initial | apply Q_memo_keeps_ok, IH].
Qed.

Lemma Q_memo_result (x : Z) (c : gmap Z Z) :
  cache_ok c ->
  fst (Q_memo x c) = if x <? 0 then Raise ValueError else Ok (squarefree_count x).
Proof.
  intros Hc. destruct (Z.ltb_spec x 0) as [Hneg|Hpos].
  - rewrite Q_memo_negative by assumption. reflexivity.
  - destruct (Q_memo_spec x c Hpos Hc) as (c' & -> & _). reflexivity.
Qed.

(** * The bottom-up form [Q_dp] *)

(** ** The list [V] *)

Lemma Q_dp_values_spec (fuel : nat) (x k : Z) (V : list Z) :
  1 <= x -> 1 <= k -> (Z.to_nat (x / k ^ 2) < fuel)%nat ->
  exists K, k <= K /\
    Q_dp_values fuel x k V = Ok (V ++ map (fun j => x / j ^ 2) (range k K)) /\
    (forall j, k <= j < K -> x / (j + 1) ^ 2 < x / j ^ 2) /\
    x / K ^ 2 <= x / (K + 1) ^ 2.
Proof.
  revert k V. induction fuel as [|fuel IH]; intros k V Hx Hk Hfuel; [lia|].
  simpl. destruct (Z.ltb_spec (x / (k + 1) ^ 2) (x / k ^ 2)) as [Hlt|Hge].
  - assert (0 <= x / (k + 1) ^ 2) by (apply Z.div_pos; [lia | apply Z.pow_pos_nonneg; lia]).
    destruct (IH (k + 1) (V ++ [x / k ^ 2]) Hx ltac:(lia) ltac:(lia))
      as (K & HK & Hrun & Hdec & Hstop).
    exists K. split; [lia|]. split; [|split; [|exact Hstop]].
    + rewrite Hrun. rewrite (range_cons k K) by lia. simpl.
      rewrite <- app_assoc. reflexivity.
    + intros j Hj. destruct (Z.eq_dec j k) as [->|]; [exact Hlt | apply Hdec; lia].
  - exists k. split; [lia|]. split; [|split; [|exact Hge]].
    + rewrite range_nil by lia. simpl. rewrite app_nil_r. reflexivity.
    + intros j Hj. lia.
Qed.

Lemma range_step_down (L : Z) :
  range_step (L - 1) (-1) (-1) =
    map (fun i => L - 1 - Z.of_nat i) (seq 0 (Z.to_nat L)).
Proof.
  unfold range_step. simpl. change (- (-1)) with 1. rewrite Z.div_1_r.
  replace (L - 1 - -1 - -1 - 1) with L by lia.
  apply map_ext. intros i. lia.
Qed.

Lemma in_range_down (L v : Z) : In v (range_step (L - 1) (-1) (-1)) <-> 0 <= v < L.
Proof.
  rewrite range_step_down, in_map_iff. split.
  - intros (i & <- & Hi%in_seq). lia.
  - intros H. exists (Z.to_nat (L - 1 - v)). split; [lia|]. apply in_seq. lia.
Qed.

Lemma range_down_NoDup (L : Z) : List.NoDup (range_step (L - 1) (-1) (-1)).
Proof.
  rewrite range_step_down. apply Finite.Injective_map_NoDup; [|apply List.seq_NoDup].
  intros i j H. lia.
Qed.

Lemma Q_dp_V_shape (x : Z) :
  2 <= x -> exists K V, Q_dp_V x = Ok V /\ dp_shape x K V.
Proof.
  intros Hx. unfold Q_dp_V.
  destruct (Q_dp_values_spec (fuel_from x) x 1 [] ltac:(lia) ltac:(lia))
    as (K & HK & Hrun & Hdec & Hstop).
  - change (1 ^ 2) with 1. rewrite Z.div_1_r. unfold fuel_from. lia.
  - assert (HK2 : 2 <= K).
    { destruct (Z.eq_dec K 1) as [->|]; [|lia]. exfalso.
      change (1 ^ 2) with 1 in Hstop. change ((1 + 1) ^ 2) with 4 in Hstop.
      rewrite Z.div_1_r in Hstop.
      assert (x / 4 < x) by (apply Z.div_lt_upper_bound; lia). lia. }
    rewrite Hrun. simpl app. simpl rbind.
    set (V0 := map (fun j => x / j ^ 2) (range 1 K)).
    assert (Hlen : len V0 = K - 1) by (unfold V0; rewrite len_map, len_range; lia).
    unfold getitem, norm_index. rewrite Hlen.
    destruct (Z.leb_spec 0 (-1)); [lia|]. simpl.
    destruct (Z.leb_spec (- (K - 1)) (-1)); [|lia]. simpl.
    replace (-1 + (K - 1)) with (K - 1 - 1) by lia.
    assert (Hlast : nth (Z.to_nat (K - 1 - 1)) V0 0 = x / (K - 1) ^ 2)
      by (unfold V0; apply (nth_map_range (fun j => x / j ^ 2)); lia).
    rewrite Hlast.
    exists K. eexists. split; [reflexivity|].
    split; [exact HK2|]. split; [exact Hdec | reflexivity].
Qed.

Lemma in_dp_V (x K : Z) (V : list Z) (v : Z) :
  dp_shape x K V ->
  (In v V <-> (exists j, 1 <= j < K /\ v = x / j ^ 2) \/ 0 <= v < x / (K - 1) ^ 2).
Proof.
  intros (HK & Hdec & ->). rewrite in_app_iff, in_range_down, in_map_iff.
  split; (intros [H|H]; [left | right; exact H]).
  - destruct H as (j & <- & Hj%in_range). exists j. split; [lia | reflexivity].
  - destruct H as (j & Hj & ->). exists j. split; [reflexivity | apply in_range; lia].
Qed.

Lemma in_dp_V_top (x K : Z) (V : list Z) : dp_shape x K V -> In x V.
Proof.
  intros Hs. apply (in_dp_V x K V x Hs). left. exists 1.
  destruct Hs as (HK & _). split; [lia|]. change (1 ^ 2) with 1.
  rewrite Z.div_1_r. reflexivity.
Qed.

Lemma in_dp_V_nonneg (x K : Z) (V : list Z) (v : Z) :
  0 <= x -> dp_shape x K V -> In v V -> 0 <= v.
Proof.
  intros Hx Hs Hv. apply (in_dp_V x K V v Hs) in Hv.
  destruct Hv as [(j & Hj & ->)|]; [|lia].
  apply Z.div_pos; [lia | apply Z.pow_pos_nonneg; lia].
Qed.

Lemma quotient_antitone (x a b : Z) : 0 <= x -> 1 <= a <= b -> x / b ^ 2 <= x / a ^ 2.
Proof.
  intros Hx Hab. apply Z.div_le_compat_l; [lia|].
  split; [apply Z.pow_pos_nonneg; lia | apply Z.pow_le_mono_l; lia].
Qed.

(** [V] is closed under the sub-problem map [k -> k // l^2]. *)
Lemma dp_V_closed (x K : Z) (V : list Z) (v l : Z) :
  0 <= x -> dp_shape x K V -> In v V -> 1 <= l -> In (v / l ^ 2) V.
Proof.
  intros Hx Hs Hv Hl. pose proof Hs as (HK & Hdec & _).
  assert (Hll : 0 < l ^ 2) by (apply Z.pow_pos_nonneg; lia).
  apply (in_dp_V x K V _ Hs). apply (in_dp_V x K V v Hs) in Hv.
  destruct Hv as [(j & Hj & ->)|Hsmall].
  - assert (Hjj : 0 < j ^ 2) by (apply Z.pow_pos_nonneg; lia).
    rewrite Z.div_div by lia. rewrite <- Z.pow_mul_l.
    destruct (Z_lt_le_dec (j * l) K) as [Hin|Hout].
    + left. exists (j * l). split; [nia | reflexivity].
    + pose proof (quotient_antitone x (K - 1) (j * l) Hx ltac:(lia)) as Hle.
      assert (0 <= x / (j * l) ^ 2)
        by (apply Z.div_pos; [lia | apply Z.pow_pos_nonneg; nia]).
      destruct (Z.eq_dec (x / (j * l) ^ 2) (x / (K - 1) ^ 2)) as [Heq|Hne].
      * left. exists (K - 1). split; [lia | exact Heq].
      * right. lia.
  - right. split; [apply Z.div_pos; lia|].
    assert (v / l ^ 2 <= v); [|lia].
    apply Z.div_le_upper_bound; [lia|]. nia.
Qed.

Lemma dp_V_NoDup (x K : Z) (V : list Z) : 0 <= x -> dp_shape x K V -> List.NoDup V.
Proof.
  intros Hx (HK & Hdec & ->).
  assert (Hmono : forall a b, 1 <= a < b -> b < K -> x / b ^ 2 < x / a ^ 2).
  { intros a b Hab Hb.
    pose proof (quotient_antitone x (a + 1) b Hx ltac:(lia)).
    pose proof (Hdec a ltac:(lia)). lia. }
  apply List.NoDup_app.
  - apply List.NoDup_map_NoDup_ForallPairs; [|apply range_NoDup].
    intros a b Ha%in_range Hb%in_range Heq.
    destruct (Z.lt_trichotomy a b) as [Hlt|[Heq'|Hgt]]; [|exact Heq'|].
    + pose proof (Hmono a b ltac:(lia) ltac:(lia)). lia.
    + pose proof (Hmono b a ltac:(lia) ltac:(lia)). lia.
  - apply range_down_NoDup.
  - intros v (j & <- & Hj%in_range)%in_map_iff Hv%in_range_down.
    pose proof (quotient_antitone x j (K - 1) Hx ltac:(lia)). lia.
Qed.

(** ** The ascending pass *)

(** [sorted(V)]: the keys in increasing order, each once. *)
Lemma sorted_keys (V : list Z) :
  List.NoDup V ->
  StronglySorted Z.le (merge_sort Z.le V) /\
  List.NoDup (merge_sort Z.le V) /\
  forall v, In v (merge_sort Z.le V) <-> In v V.
Proof.
  intros Hnd.
  pose proof (merge_sort_Permutation Z.le V) as Hperm.
  split; [apply StronglySorted_merge_sort; typeclasses eauto|]. split.
  - eapply Permutation_NoDup; [symmetry; exact Hperm | exact Hnd].
  - intros v. split; apply Permutation_in; [exact Hperm | symmetry; exact Hperm].
Qed.

(** The keys before [k] in the pass are the keys smaller than [k]. *)
Lemma sorted_prefix (xs pre post : list Z) (k v : Z) :
  StronglySorted Z.le xs -> List.NoDup xs -> xs = pre ++ k :: post ->
  ~ In k pre /\ (In v xs -> v < k -> In v pre).
Proof.
  intros Hs Hnd ->. split.
  - intros Hin. apply NoDup_remove_2 in Hnd. apply Hnd.
    apply in_or_app. left. exact Hin.
  - intros Hv Hlt. apply in_app_or in Hv. destruct Hv as [Hv|[<-|Hv]].
    + exact Hv.
    + lia.
    + exfalso. apply StronglySorted_app_1_r in Hs.
      apply StronglySorted_inv in Hs. destruct Hs as [_ Hall].
      rewrite Forall_forall in Hall. specialize (Hall v).
      assert (k <= v); [|lia]. apply Hall.
      apply list_elem_of_In. exact Hv.
Qed.

Lemma seed_lookup (V : list Z) (c : gmap Z Z) (v : Z) :
  (In v V -> fold_left (fun c i => <[ i := i ]> c) V c !! v = Some v) /\
  (~ In v V -> fold_left (fun c i => <[ i := i ]> c) V c !! v = c !! v).
Proof.
  revert c. induction V as [|a V IH]; intros c.
  - simpl. split; [intros [] | reflexivity].
  - simpl. destruct (IH (<[ a := a ]> c)) as [IH1 IH2]. split.
    + intros [->|Hin].
      * destruct (in_dec Z.eq_dec v V) as [Hv|Hv]; [apply IH1; exact Hv|].
        rewrite IH2 by exact Hv. apply lookup_insert_eq.
      * apply IH1. exact Hin.
    + intros Hnin. rewrite IH2 by (intros H; apply Hnin; right; exact H).
      apply lookup_insert_ne. intros ->. apply Hnin. left. reflexivity.
Qed.

Lemma Q_dp_seed_lookup (V : list Z) (v : Z) :
  In v V -> Q_dp_seed V !! v = Some v.
Proof. intros H. unfold Q_dp_seed. apply seed_lookup. exact H. Qed.

(** The corrections of one key [k], on a dictionary that holds [k] itself
    under [k] and the final count under every [k // l^2]. *)
Lemma Q_dp_finalize_spec (k : Z) (c0 : gmap Z Z) :
  0 <= k -> c0 !! k = Some k ->
  (forall l, 2 <= l <= Z.sqrt k ->
     c0 !! (k / l ^ 2) = Some (squarefree_count (k / l ^ 2))) ->
  exists c, Q_dp_finalize k c0 = Ok c /\
            c !! k = Some (squarefree_count k) /\
            forall v, v <> k -> c !! v = c0 !! v.
Proof.
  intros Hk Hkk Hsub. unfold Q_dp_finalize.
  rewrite integer_sqrt_Zsqrt by lia. simpl.
  destruct (for_each_invariant
    (fun done c => c !! k = Some (k - sum_list (map (fun l => squarefree_count (k / l ^ 2)) done))
                   /\ forall v, v <> k -> c !! v = c0 !! v)
    (range 2 (Z.sqrt k + 1)) (Q_dp_correct k) c0) as (c & Hrun & Hck & Hother).
  - simpl. split; [rewrite Hkk; f_equal; lia | reflexivity].
  - intros done l post c Heq [Hck Hother].
    assert (Hl : 2 <= l <= Z.sqrt k).
    { assert (Hin : In l (range 2 (Z.sqrt k + 1)))
        by (rewrite Heq; apply in_or_app; right; left; reflexivity).
      apply in_range in Hin. lia. }
    destruct (sqrt_bounds k Hk) as (_ & Hlo & _).
    assert (Hk1 : 1 <= k) by nia.
    pose proof (subproblem_smaller k l Hk1 ltac:(lia)) as Hsm.
    unfold Q_dp_correct, dict_get. rewrite Hck. simpl.
    rewrite Hother by lia. rewrite Hsub by exact Hl. simpl.
    eexists. split; [reflexivity|]. split.
    + rewrite lookup_insert_eq. f_equal.
      rewrite map_app, sum_list_app. simpl. lia.
    + intros v Hv. rewrite lookup_insert_ne by congruence. apply Hother. exact Hv.
  - exists c. split; [exact Hrun|]. split; [|exact Hother].
    rewrite Hck. f_equal.
    rewrite (squarefree_count_rec k Hk). f_equal.
    unfold zsum. f_equal. apply map_ext. intros l. rewrite Z.pow_2_r. reflexivity.
Qed.

Lemma Q_dp_pass_prefix (x K : Z) (V done rest : list Z) :
  0 <= x -> dp_shape x K V -> merge_sort Z.le V = done ++ rest ->
  exists c, for_each done Q_dp_finalize (Q_dp_seed V) = Ok c /\ dp_state V done c.
Proof.
  intros Hx Hshape Hsplit.
  destruct (sorted_keys V (dp_V_NoDup x K V Hx Hshape)) as (Hsorted & Hnd & Hmem).
  apply (for_each_invariant (fun done c => dp_state V done c)).
  - split; [intros v [] | intros v Hv _; apply Q_dp_seed_lookup; exact Hv].
  - intros pre k post c Heq [Hdone Htodo].
    assert (Hxs : merge_sort Z.le V = pre ++ k :: (post ++ rest))
      by (rewrite Hsplit, Heq, <- app_assoc; reflexivity).
    assert (HkV : In k V)
      by (apply Hmem; rewrite Hxs; apply in_or_app; right; left; reflexivity).
    pose proof (in_dp_V_nonneg x K V k Hx Hshape HkV) as Hk0.
    destruct (sorted_prefix _ pre (post ++ rest) k k Hsorted Hnd Hxs) as [Hknew _].
    destruct (Q_dp_finalize_spec k c Hk0 (Htodo k HkV Hknew)) as (c' & Hrun & Hck & Hother).
    + intros l Hl. apply Hdone.
      destruct (sorted_prefix _ pre (post ++ rest) k (k / l ^ 2) Hsorted Hnd Hxs)
        as [_ Hpre].
      destruct (sqrt_bounds k Hk0) as (_ & Hlo & _).
      assert (Hk1 : 1 <= k) by nia.
      pose proof (subproblem_smaller k l Hk1 ltac:(lia)) as Hsm.
      apply Hpre; [|lia]. apply Hmem.
      apply (dp_V_closed x K V k l Hx Hshape HkV). lia.
    + exists c'. split; [exact Hrun|]. split.
      * intros v Hv. apply in_app_or in Hv. destruct Hv as [Hv|[<-|[]]].
        -- rewrite Hother by (intros ->; contradiction). apply Hdone. exact Hv.
        -- exact Hck.
      * intros v Hv Hnot.
        assert (v <> k) by (intros ->; apply Hnot; apply in_or_app; right; left; reflexivity).
        rewrite Hother by assumption. apply Htodo; [exact Hv|].
        intros Hin. apply Hnot. apply in_or_app. left. exact Hin.
Qed.

Lemma Q_dp_pass (x K : Z) (V : list Z) :
  0 <= x -> dp_shape x K V ->
  exists c, for_each (merge_sort Z.le V) Q_dp_finalize (Q_dp_seed V) = Ok c /\
            dp_state V (merge_sort Z.le V) c.
Proof.
  intros Hx Hshape. apply (Q_dp_pass_prefix x K V _ []); auto.
  rewrite app_nil_r. reflexivity.
Qed.


Theorem Q_dp_spec (x : Z) : 0 <= x -> Q_dp x = Ok (squarefree_count x).
Proof.
  intros Hx. unfold Q_dp.
  destruct (Z.eqb_spec x 0) as [->|H0]; [reflexivity|].
  destruct (Z.eqb_spec x 1) as [->|H1]; [reflexivity|]. simpl.
  destruct (Q_dp_V_shape x ltac:(lia)) as (K & V & HV & Hshape).
  rewrite HV. simpl.
  destruct (Q_dp_pass x K V Hx Hshape) as (c & Hrun & Hdone & _).
  rewrite Hrun. simpl. unfold dict_get.
  destruct (sorted_keys V (dp_V_NoDup x K V Hx Hshape)) as (_ & _ & Hmem).
  rewrite (Hdone x); [reflexivity|].
  apply Hmem. apply (in_dp_V_top x K V Hshape).
Qed.

(** * The wheel sieve [luo] *)

Lemma lor_1 (x : Z) : Z.lor x 1 = x + 1 - x mod 2.
Proof.
  pose proof (Z.add_lor_land x 1) as H.
  assert (Hl : Z.land x 1 = x mod 2).
  { change 1 with (Z.ones 1) at 1. rewrite Z.land_ones by lia. reflexivity. }
  rewrite Hl in H. lia.
Qed.

Lemma wheel_eq (i : Z) : wheel i = 3 * i + 1 + i mod 2.
Proof. unfold wheel. rewrite lor_1. mod_lia. Qed.

Lemma wheel_mod6 (i : Z) : wheel i mod 6 = 1 \/ wheel i mod 6 = 5.
Proof. rewrite wheel_eq. mod_lia. Qed.

Lemma wheel_index (m : Z) : m mod 6 = 1 \/ m mod 6 = 5 -> wheel (m / 3) = m.
Proof. intros H. rewrite wheel_eq. mod_lia. Qed.

Lemma wheel_mono (i j : Z) : i <= j -> wheel i <= wheel j.
Proof. intros H. rewrite !wheel_eq. mod_lia. Qed.

Lemma wheel_lt (i j : Z) : i < j -> wheel i < wheel j.
Proof. intros H. rewrite !wheel_eq. mod_lia. Qed.

Lemma wheel_pos (i : Z) : 0 <= i -> 1 <= wheel i.
Proof. intros H. rewrite wheel_eq. mod_lia. Qed.

Lemma wheel_ge_5 (i : Z) : 1 <= i -> 5 <= wheel i.
Proof. intros H. rewrite wheel_eq. mod_lia. Qed.

(** The array of [luo(n)] has one entry for each number prime to 6 up to [n]. *)
Lemma luo_size (n j : Z) :
  0 <= n -> 0 <= j ->
  (j < (n + 1) / 3 + (if n mod 6 =? 1 then 1 else 0) <-> wheel j <= n).
Proof.
  intros Hn Hj. rewrite wheel_eq.
  destruct (Z.eqb_spec (n mod 6) 1); mod_lia.
Qed.

Lemma prime_mod6 (q : Z) : Z.prime q -> 5 <= q -> q mod 6 = 1 \/ q mod 6 = 5.
Proof.
  intros [_ Hq] H5.
  assert (H2 : q mod 2 <> 0).
  { intros H. apply (Hq 2); [lia|]. apply Z.mod_divide; [lia | exact H]. }
  assert (H3 : q mod 3 <> 0).
  { intros H. apply (Hq 3); [lia|]. apply Z.mod_divide; [lia | exact H]. }
  mod_lia.
Qed.

Lemma wheel_prime_divisor (q j : Z) : Z.prime q -> (q | wheel j) -> 5 <= q.
Proof.
  intros Hq Hdiv. pose proof (Z.prime_ge_2 q Hq).
  pose proof (wheel_mod6 j) as Hw.
  destruct (Z.eq_dec q 2) as [->|]; [|destruct (Z.eq_dec q 3) as [->|]].
  - apply Z.mod_divide in Hdiv; [|lia]. mod_lia.
  - apply Z.mod_divide in Hdiv; [|lia]. mod_lia.
  - destruct (Z.eq_dec q 4) as [->|]; [|lia].
    destruct Hq as [_ Hq]. exfalso. apply (Hq 2); [lia|]. exists 2. lia.
Qed.

(** A prime divisor of a wheel number that is at most [wheel i] is [wheel i]
    or at most [wheel (i - 1)]. *)
Lemma wheel_below (q i j : Z) :
  Z.prime q -> (q | wheel j) -> q <= wheel i -> q = wheel i \/ q <= wheel (i - 1).
Proof.
  intros Hq Hdiv Hle.
  pose proof (wheel_prime_divisor q j Hq Hdiv) as H5.
  pose proof (prime_mod6 q Hq H5) as H6.
  pose proof (wheel_index q H6) as Hidx.
  rewrite !wheel_eq in *. mod_lia.
Qed.

Lemma even_mod2 (k : Z) : (2 * k) mod 2 = 0.
Proof. rewrite Z.mul_comm. apply Z_mod_mult. Qed.

Lemma odd_mod2 (k : Z) : (2 * k + 1) mod 2 = 1.
Proof. rewrite Z.add_comm, Z.mul_comm, Z_mod_plus_full. reflexivity. Qed.

Lemma wheel_even (j : Z) : j mod 2 = 0 -> wheel j = 3 * j + 1.
Proof. intros H. rewrite wheel_eq, H. lia. Qed.

Lemma wheel_odd (j : Z) : j mod 2 = 1 -> wheel j = 3 * j + 2.
Proof. intros H. rewrite wheel_eq, H. lia. Qed.

Lemma multiple_from (j c t : Z) :
  0 < t -> c <= j -> (j - c) mod t = 0 -> exists a, 0 <= a /\ j = c + a * t.
Proof.
  intros Ht Hcj Hm. apply Z.mod_divide in Hm; [|lia]. destruct Hm as [a Ha].
  exists a. split; [nia | lia].
Qed.

Lemma multiple_to (c t a : Z) : 0 < t -> (c + a * t - c) mod t = 0.
Proof.
  intros Ht. replace (c + a * t - c) with (a * t) by lia. apply Z_mod_mult.
Qed.

Lemma wheel_residue (f w r X : Z) :
  0 <= w < 6 -> f = 0 \/ f = 1 -> r = 1 \/ r = 5 -> 4 * f + 6 * X = r * w ->
  (f = 0 /\ w = 0) \/ (f = 1 /\ w = if r =? 1 then 4 else 2).
Proof.
  intros Hw Hf Hr H.
  assert (Hwc : w = 0 \/ w = 1 \/ w = 2 \/ w = 3 \/ w = 4 \/ w = 5) by lia.
  destruct Hf as [->| ->]; destruct Hr as [->| ->];
    destruct Hwc as [->|[->|[->|[->|[->| ->]]]]]; simpl; lia.
Qed.

Lemma split_mod (x m : Z) : 0 < m -> exists u w, x = m * u + w /\ 0 <= w < m.
Proof.
  intros Hm. exists (x / m), (x mod m). split.
  - apply Z.div_mod. lia.
  - apply Z.mod_pos_bound. exact Hm.
Qed.

Lemma wheel_marks_hit (p c b d j : Z) :
  0 < p -> 0 <= d ->
  p * p = 3 * c + 1 -> c mod 2 = 0 ->
  3 * b + 2 = p * p + p * d -> b mod 2 = 1 ->
  (c <= j /\ (j - c) mod (2 * p) = 0) \/ (b <= j /\ (j - b) mod (2 * p) = 0) ->
  (p | wheel j) /\ p * p <= wheel j.
Proof.
  intros Hp Hd0 Hc Hc2 Hb Hb2 [[Hcj Hm]|[Hbj Hm]].
  - destruct (multiple_from j c (2 * p) ltac:(lia) Hcj Hm) as (a & Ha & Hja).
    assert (Hap : 0 <= a * p) by (apply Z.mul_nonneg_nonneg; lia).
    assert (Hj2 : j mod 2 = 0).
    { replace j with (2 * (c / 2 + a * p)); [apply even_mod2|].
      pose proof (Z.div_mod c 2 ltac:(lia)). lia. }
    rewrite (wheel_even j Hj2).
    split; [exists (p + 6 * a); lia | lia].
  - destruct (multiple_from j b (2 * p) ltac:(lia) Hbj Hm) as (a & Ha & Hja).
    assert (Hap : 0 <= a * p) by (apply Z.mul_nonneg_nonneg; lia).
    assert (Hpd : 0 <= p * d) by (apply Z.mul_nonneg_nonneg; lia).
    assert (Hj2 : j mod 2 = 1).
    { replace j with (2 * (b / 2 + a * p) + 1); [apply odd_mod2|].
      pose proof (Z.div_mod b 2 ltac:(lia)). lia. }
    rewrite (wheel_odd j Hj2).
    split; [exists (p + d + 6 * a); lia | lia].
Qed.

Lemma wheel_marks_all (p c b d j : Z) :
  0 < p -> 0 <= j ->
  p * p = 3 * c + 1 -> c mod 2 = 0 ->
  3 * b + 2 = p * p + p * d -> b mod 2 = 1 ->
  d = (if p mod 6 =? 1 then 4 else 2) -> p mod 6 = 1 \/ p mod 6 = 5 ->
  (p | wheel j) -> p * p <= wheel j ->
  (c <= j /\ (j - c) mod (2 * p) = 0) \/ (b <= j /\ (j - b) mod (2 * p) = 0).
Proof.
  intros Hp Hj Hc Hc2 Hb Hb2 Hd Hp6 [q Hq] Hsq.
  assert (Hqp : p <= q).
  { destruct (Z_le_gt_dec p q) as [|Hgt]; [assumption|]. exfalso.
    assert (q * p < p * p) by (apply Z.mul_lt_mono_pos_r; lia). lia. }
  destruct (split_mod (q - p) 6 ltac:(lia)) as (u & w & Hqe & Hw).
  assert (Hu : 0 <= u) by lia.
  destruct (split_mod p 6 ltac:(lia)) as (s & r0 & Hps & Hr0).
  assert (Hr : p mod 6 = r0).
  { rewrite Hps. rewrite Z.add_comm, Z.mul_comm, Z_mod_plus_full.
    apply Z.mod_small. exact Hr0. }
  rewrite Hr in Hd, Hp6.
  destruct (split_mod c 2 ltac:(lia)) as (c' & c0 & Hcc & Hc0).
  assert (c0 = 0).
  { rewrite Hcc in Hc2. rewrite Z.add_comm, Z.mul_comm, Z_mod_plus_full in Hc2.
    rewrite Z.mod_small in Hc2 by exact Hc0. exact Hc2. }
  destruct (split_mod b 2 ltac:(lia)) as (b' & b0 & Hbb & Hb0).
  assert (b0 = 1).
  { rewrite Hbb in Hb2. rewrite Z.add_comm, Z.mul_comm, Z_mod_plus_full in Hb2.
    rewrite Z.mod_small in Hb2 by exact Hb0. exact Hb2. }
  destruct (split_mod j 2 ltac:(lia)) as (j' & f & Hjj & Hf).
  assert (Hjf : j mod 2 = f).
  { rewrite Hjj. rewrite Z.add_comm, Z.mul_comm, Z_mod_plus_full.
    apply Z.mod_small. exact Hf. }
  assert (Hwheel : 3 * j + 1 + f = q * p) by (rewrite <- Hq, wheel_eq, Hjf; reflexivity).
  assert (Hprod : q * p = p * p + 6 * (p * u) + p * w).
  { replace q with (p + 6 * u + w) by lia. ring. }
  assert (Hpw : p * w = 6 * (s * w) + r0 * w) by (rewrite Hps at 1; ring).
  assert (Hpu : 0 <= u * (2 * p)) by (apply Z.mul_nonneg_nonneg; lia).
  assert (Hcases : (f = 0 /\ w = 0) \/ (f = 1 /\ w = if r0 =? 1 then 4 else 2)).
  { apply (wheel_residue f w r0 (j' - c' - p * u - s * w)); lia. }
  rewrite <- Hd in Hcases.
  destruct Hcases as [[Hf0 Hw0]|[Hf1 Hw0]].
  - left. assert (Hja : j = c + u * (2 * p)).
    { rewrite Hw0 in Hprod. rewrite Z.mul_0_r in Hprod. lia. }
    split; [lia|]. rewrite Hja. apply multiple_to. lia.
  - right. assert (Hja : j = b + u * (2 * p)).
    { rewrite Hw0 in Hprod. lia. }
    split; [lia|]. rewrite Hja. apply multiple_to. lia.
Qed.

(** ** The loop of [luo] *)

(** The arithmetic of one round: from the values after round [i - 1] to
    those after round [i], and the second start [b] of round [i]. *)
Lemma luo_round (i c k t : Z) :
  k = 1 + (i - 1) mod 2 -> t = 2 * wheel (i - 1) ->
  3 * c + 1 = wheel (i - 1) * wheel (i - 1) -> c mod 2 = 0 ->
  let k' := 3 - k in
  let c' := c + 4 * k' * i in
  let t' := t + 4 * k' in
  let b := c' + 2 * i * (3 - k') + 1 in
  k' = 1 + i mod 2 /\ t' = 2 * wheel i /\
  3 * c' + 1 = wheel i * wheel i /\ c' mod 2 = 0 /\
  3 * b + 2 = wheel i * wheel i + wheel i * (if wheel i mod 6 =? 1 then 4 else 2) /\
  b mod 2 = 1 /\ (wheel i mod 6 = 1 \/ wheel i mod 6 = 5).
Proof.
  intros Hk Ht Hc Hc2. cbv zeta.
  assert (He : i mod 2 = 0 \/ i mod 2 = 1) by (mod_lia).
  destruct He as [He|He].
  - assert (He' : (i - 1) mod 2 = 1) by (mod_lia).
    assert (Hw : wheel i = 3 * i + 1) by (rewrite wheel_eq, He; lia).
    assert (Hw' : wheel (i - 1) = 3 * i - 1) by (rewrite wheel_eq, He'; lia).
    assert (H6 : wheel i mod 6 = 1) by (rewrite Hw; mod_lia).
    rewrite He' in Hk. rewrite Hw' in Ht, Hc. rewrite H6, Hw, He. subst k t.
    change (1 =? 1) with true. cbv iota.
    repeat split; try lia.
    + mod_lia.
    + mod_lia.
  - assert (He' : (i - 1) mod 2 = 0) by (mod_lia).
    assert (Hw : wheel i = 3 * i + 2) by (rewrite wheel_eq, He; lia).
    assert (Hw' : wheel (i - 1) = 3 * i - 2) by (rewrite wheel_eq, He'; lia).
    assert (H6 : wheel i mod 6 = 5) by (rewrite Hw; mod_lia).
    rewrite He' in Hk. rewrite Hw' in Ht, Hc. rewrite H6, Hw, He. subst k t.
    change (5 =? 1) with false. cbv iota.
    repeat split; try lia.
    + mod_lia.
    + mod_lia.
Qed.

Lemma luo_flag_prime (size i : Z) (block : list bool) :
  1 <= i < size -> luo_flags size (i - 1) block ->
  (bit block i = true <-> Z.prime (wheel i)).
Proof.
  intros Hi [Hlen Hbits]. rewrite (Hbits i ltac:(lia)).
  pose proof (wheel_ge_5 i ltac:(lia)) as H5.
  pose proof (wheel_lt (i - 1) i ltac:(lia)) as Hlt. split.
  - intros [_ Hno]. destruct (prime_or_not (wheel i)) as [|Hnp]; [assumption|].
    destruct (small_prime_factor (wheel i) ltac:(lia) Hnp) as (p & Hp & Hdiv & Hsq).
    exfalso. pose proof (Z.prime_ge_2 p Hp) as Hp2.
    assert (Hle : p <= wheel i) by nia.
    destruct (wheel_below p i i Hp Hdiv Hle) as [Heq|Hlow].
    + subst p. nia.
    + apply (Hno p Hp Hlow Hsq Hdiv).
  - intros Hp. split; [lia|]. intros q Hq Hle Hsq Hdiv.
    apply (Z.divide_prime_prime q (wheel i) Hq Hp) in Hdiv. lia.
Qed.

(** Going from the primes up to [wheel (i - 1)] to those up to [wheel i]
    adds at most the one number [wheel i]. *)
Lemma luo_extend (i j : Z) :
  1 <= i ->
  ((forall q, Z.prime q -> q <= wheel i -> q * q <= wheel j -> ~ (q | wheel j)) <->
   (forall q, Z.prime q -> q <= wheel (i - 1) -> q * q <= wheel j -> ~ (q | wheel j)) /\
   ~ (Z.prime (wheel i) /\ (wheel i | wheel j) /\ wheel i * wheel i <= wheel j)).
Proof.
  intros Hi. pose proof (wheel_lt (i - 1) i ltac:(lia)) as Hlt. split.
  - intros H. split.
    + intros q Hq Hle. apply H; [exact Hq | lia].
    + intros (Hp & Hdiv & Hsq). apply (H (wheel i) Hp); [lia | exact Hsq | exact Hdiv].
  - intros [Hold Hnew] q Hq Hle Hsq Hdiv.
    destruct (wheel_below q i j Hq Hdiv Hle) as [Heq|Hlow].
    + subst q. apply Hnew. auto.
    + apply (Hold q Hq Hlow Hsq Hdiv).
Qed.

Lemma luo_body_spec (size i : Z) (st : luo_state) :
  1 <= i < size -> luo_inv size (i - 1) st ->
  exists st', luo_body i st = Ok st' /\ luo_inv size i st'.
Proof.
  intros Hi (Hk & Ht & Hc & Hc2 & Hflags).
  destruct (luo_round i (luo_c st) (luo_k st) (luo_t st) Hk Ht Hc Hc2)
    as (Hk' & Ht' & Hc' & Hc2' & Hb & Hb2 & H6).
  pose proof (luo_flag_prime size i (luo_block st) Hi Hflags) as Hflag.
  destruct Hflags as [Hlen Hbits].
  pose proof (wheel_ge_5 i ltac:(lia)) as H5.
  unfold luo_body. rewrite getitem_in by lia. simpl rbind.
  set (k' := 3 - luo_k st) in *.
  set (c' := luo_c st + 4 * k' * i) in *.
  set (t' := luo_t st + 4 * k') in *.
  set (b := c' + 2 * i * (3 - k') + 1) in *.
  assert (Hc0 : 0 <= c') by nia.
  assert (Hb0 : 0 <= b).
  { assert (0 <= wheel i * (if wheel i mod 6 =? 1 then 4 else 2)); [|lia].
    apply Z.mul_nonneg_nonneg; [lia | destruct (wheel i mod 6 =? 1); lia]. }
  destruct (bit (luo_block st) i) eqn:Hbi.
  - assert (Hp : Z.prime (wheel i)) by (apply Hflag; reflexivity).
    rewrite slice_assign_pos by lia. simpl rbind.
    rewrite slice_assign_pos by lia. simpl rbind.
    eexists. split; [reflexivity|].
    split; [exact Hk'|]. split; [exact Ht'|]. split; [exact Hc'|].
    split; [exact Hc2'|]. simpl luo_block.
    split; [rewrite !len_update_from; exact Hlen|].
    intros j Hj.
    rewrite bit_slice by (rewrite ?len_update_from; lia).
    rewrite bit_slice by lia.
    rewrite luo_extend by lia. rewrite Ht'.
    destruct ((b <=? j) && ((j - b) mod (2 * wheel i) =? 0)) eqn:Eb.
    + apply andb_true_iff in Eb. destruct Eb as [E1%Z.leb_le E2%Z.eqb_eq].
      split; [discriminate|]. intros [_ [_ Hno]]. exfalso. apply Hno.
      split; [exact Hp|].
      apply (wheel_marks_hit (wheel i) c' b (if wheel i mod 6 =? 1 then 4 else 2) j);
        try assumption; try lia.
      destruct (wheel i mod 6 =? 1); lia.
    + destruct ((c' <=? j) && ((j - c') mod (2 * wheel i) =? 0)) eqn:Ec.
      * apply andb_true_iff in Ec. destruct Ec as [E1%Z.leb_le E2%Z.eqb_eq].
        split; [discriminate|]. intros [_ [_ Hno]]. exfalso. apply Hno.
        split; [exact Hp|].
        apply (wheel_marks_hit (wheel i) c' b (if wheel i mod 6 =? 1 then 4 else 2) j);
          try assumption; try lia.
        destruct (wheel i mod 6 =? 1); lia.
      * rewrite (Hbits j Hj). split.
        -- intros [H1 Hold]. split; [exact H1|]. split; [exact Hold|].
           intros (_ & Hdiv & Hsq).
           destruct (wheel_marks_all (wheel i) c' b _ j ltac:(lia) ltac:(lia)
                       (eq_sym Hc') Hc2' Hb Hb2 eq_refl H6 Hdiv Hsq) as [[E1 E2]|[E1 E2]].
           ++ apply Z.leb_le in E1. apply Z.eqb_eq in E2.
              rewrite E1, E2 in Ec. discriminate.
           ++ apply Z.leb_le in E1. apply Z.eqb_eq in E2.
              rewrite E1, E2 in Eb. discriminate.
        -- intros [H1 [Hold _]]. split; assumption.
  - assert (Hnp : ~ Z.prime (wheel i)) by (intros Hp; apply Hflag in Hp; congruence).
    eexists. split; [reflexivity|].
    split; [exact Hk'|]. split; [exact Ht'|]. split; [exact Hc'|].
    split; [exact Hc2'|]. simpl luo_block.
    split; [exact Hlen|]. intros j Hj.
    rewrite luo_extend by lia. rewrite (Hbits j Hj). split.
    + intros [H1 Hold]. split; [exact H1|]. split; [exact Hold|]. tauto.
    + intros [H1 [Hold _]]. split; assumption.
Qed.

Lemma luo_loop (size m : Z) (st : luo_state) :
  0 <= m -> (forall i, 1 <= i <= m -> i < size) -> luo_inv size 0 st ->
  exists st', for_each (range 1 (m + 1)) luo_body st = Ok st' /\ luo_inv size m st'.
Proof.
  intros Hm Hsize H0.
  destruct (for_each_invariant (fun pre s => luo_inv size (len pre) s)
              (range 1 (m + 1)) luo_body st) as (st' & Hrun & Hinv).
  - exact H0.
  - intros pre x post s Heq Hs. apply range_split_inv in Heq.
    pose proof (len_nonneg pre).
    replace (len (pre ++ [x])) with x by (rewrite len_app; unfold len at 2; simpl; lia).
    apply luo_body_spec; [split; [lia | apply Hsize; lia]|].
    replace (x - 1) with (len pre) by lia. exact Hs.
  - exists st'. split; [exact Hrun|].
    rewrite len_range in Hinv by lia. replace (m + 1 - 1) with m in Hinv by lia.
    exact Hinv.
Qed.

(** Once the rounds reach a third of the square root of [n], the flags are
    the primality of the wheel numbers. *)
Lemma luo_flags_final (n size : Z) (block : list bool) :
  1 <= n -> (forall j, 0 <= j -> (j < size <-> wheel j <= n)) ->
  luo_flags size (Z.sqrt n / 3) block ->
  forall j, 0 <= j < size -> bit block j = is_prime (wheel j).
Proof.
  intros Hn Hsize [Hlen Hbits] j Hj.
  destruct (sqrt_bounds n ltac:(lia)) as (Hs0 & Hlo & Hhi).
  assert (Hjn : wheel j <= n) by (apply Hsize; lia).
  destruct (is_prime (wheel j)) eqn:Hp.
  - apply is_prime_spec in Hp. pose proof (Z.prime_ge_2 _ Hp) as H2.
    apply Hbits; [exact Hj|]. split.
    + destruct (Z.eq_dec j 0) as [->|]; [|lia]. change (wheel 0) with 1 in H2. lia.
    + intros q Hq Hle Hsq Hdiv.
      apply (Z.divide_prime_prime q (wheel j) Hq Hp) in Hdiv. subst q. nia.
  - apply is_prime_false in Hp. apply not_true_is_false. intros Hb.
    apply (Hbits j Hj) in Hb. destruct Hb as [H1 Hno].
    pose proof (wheel_ge_5 j H1) as H5.
    destruct (small_prime_factor (wheel j) ltac:(lia) Hp) as (q & Hq & Hdiv & Hsq).
    pose proof (Z.prime_ge_2 q Hq) as Hq2.
    apply (Hno q Hq); [|exact Hsq | exact Hdiv].
    pose proof (square_le_lt q (Z.sqrt n) n ltac:(lia) Hs0 ltac:(lia) Hhi) as Hqs.
    pose proof (wheel_prime_divisor q j Hq Hdiv) as Hq5.
    rewrite <- (wheel_index q (prime_mod6 q Hq Hq5)).
    apply wheel_mono. apply Z.div_le_mono; lia.
Qed.

(** ** Sorted lists *)

Lemma sorted_same_members (l1 l2 : list Z) :
  StronglySorted Z.lt l1 -> StronglySorted Z.lt l2 ->
  (forall x, In x l1 <-> In x l2) -> l1 = l2.
Proof.
  intros H1. revert l2. induction H1 as [|x l1 Hs1 IH Hx]; intros l2 H2 Hmem.
  - destruct l2 as [|y l2]; [reflexivity|]. exfalso.
    apply (Hmem y). left. reflexivity.
  - destruct H2 as [|y l2 Hs2 Hy].
    + exfalso. apply (Hmem x). left. reflexivity.
    + rewrite List.Forall_forall in Hx, Hy.
      assert (Hxy : x = y).
      { destruct (proj1 (Hmem x) (or_introl eq_refl)) as [Heq|Hin]; [congruence|].
        destruct (proj2 (Hmem y) (or_introl eq_refl)) as [Heq|Hin']; [congruence|].
        pose proof (Hy x Hin). pose proof (Hx y Hin'). lia. }
      subst y. f_equal. apply IH; [exact Hs2|]. intros z. split; intros Hz.
      * destruct (proj1 (Hmem z) (or_intror Hz)) as [Heq|Hin]; [|exact Hin].
        pose proof (Hx z Hz). lia.
      * destruct (proj2 (Hmem z) (or_intror Hz)) as [Heq|Hin]; [|exact Hin].
        pose proof (Hy z Hz). lia.
Qed.

Lemma sorted_range (a b : Z) : StronglySorted Z.lt (range a b).
Proof.
  destruct (Z_lt_le_dec b a) as [Hlt|Hle]; [rewrite range_nil by lia; constructor|].
  remember (Z.to_nat (b - a)) as k eqn:Hk. revert a Hle Hk.
  induction k as [|k IH]; intros a Hle Hk.
  - rewrite range_nil by lia. constructor.
  - rewrite range_cons by lia. constructor; [apply IH; lia|].
    apply List.Forall_forall. intros x Hx%in_range. lia.
Qed.

Lemma sorted_filter (f : Z -> bool) (l : list Z) :
  StronglySorted Z.lt l -> StronglySorted Z.lt (List.filter f l).
Proof.
  intros H. induction H as [|x l Hs IH Hx]; simpl; [constructor|].
  destruct (f x); [|exact IH]. constructor; [exact IH|].
  rewrite List.Forall_forall in *. intros y [Hy _]%filter_In. apply Hx. exact Hy.
Qed.

Lemma sorted_map (f : Z -> Z) (l : list Z) :
  (forall x y, x < y -> f x < f y) ->
  StronglySorted Z.lt l -> StronglySorted Z.lt (map f l).
Proof.
  intros Hf H. induction H as [|x l Hs IH Hx]; simpl; constructor; [exact IH|].
  rewrite List.Forall_forall in *. intros y (z & <- & Hz)%in_map_iff.
  apply Hf. apply Hx. exact Hz.
Qed.

Lemma sorted_app (l1 l2 : list Z) :
  StronglySorted Z.lt l1 -> StronglySorted Z.lt l2 ->
  (forall x y, In x l1 -> In y l2 -> x < y) -> StronglySorted Z.lt (l1 ++ l2).
Proof.
  intros H1 H2 Hlt. induction H1 as [|x l1 Hs IH Hx]; simpl; [exact H2|].
  constructor.
  - apply IH. intros a b Ha Hb. apply Hlt; [right; exact Ha | exact Hb].
  - rewrite List.Forall_forall in *. intros y [Hy|Hy]%in_app_or.
    + apply Hx. exact Hy.
    + apply Hlt; [left; reflexivity | exact Hy].
Qed.

Lemma sorted_primes_in (a b : Z) : StronglySorted Z.lt (primes_in a b).
Proof. unfold primes_in. apply sorted_filter. apply sorted_range. Qed.

(** ** [luo] returns the primes *)

Theorem luo_spec (n : Z) : 1 <= n -> luo n = Ok (primes_in 2 (Z.max n 3 + 1)).
Proof.
  intros Hn. unfold luo.
  set (size := (n + 1) / 3 + (if n mod 6 =? 1 then 1 else 0)).
  assert (Hsize : forall j, 0 <= j -> (j < size <-> wheel j <= n))
    by (intros j Hj; apply luo_size; lia).
  assert (Hsize1 : 1 <= size).
  { assert (0 < size); [|lia]. apply Hsize; [lia|]. change (wheel 0) with 1. lia. }
  rewrite np_ones_ok by lia. simpl rbind.
  rewrite setitem_in by (rewrite len_repeat; lia). simpl rbind.
  rewrite integer_sqrt_Zsqrt by lia. simpl rbind.
  destruct (sqrt_bounds n ltac:(lia)) as (Hs0 & Hlo & Hhi).
  set (block0 := update_from (Z.eqb 0) (fun _ => false) 0 (repeat true (Z.to_nat size))).
  destruct (luo_loop size (Z.sqrt n / 3) (LuoState 0 1 2 block0))
    as (st & Hrun & Hinv).
  - apply Z.div_pos; lia.
  - intros i Hi. apply Hsize; [lia|].
    assert (3 * i <= Z.sqrt n).
    { pose proof (Z.mul_div_le (Z.sqrt n) 3 ltac:(lia)). lia. }
    rewrite wheel_eq. assert (i mod 2 < 2) by (apply Z.mod_pos_bound; lia). nia.
  - split; [reflexivity|]. split; [reflexivity|]. split; [reflexivity|].
    split; [reflexivity|]. simpl luo_block. split.
    + unfold block0. rewrite len_update_from, len_repeat; lia.
    + intros j Hj. unfold block0.
      rewrite bit_setitem by (rewrite len_repeat; lia). rewrite bit_ones by lia.
      destruct (Z.eqb_spec 0 j); [subst; split; [discriminate | lia]|].
      split; [|reflexivity]. intros _. split; [lia|].
      intros q Hq Hle. pose proof (Z.prime_ge_2 q Hq). change (wheel 0) with 1 in Hle. lia.
  - rewrite Hrun. simpl rbind. f_equal.
    destruct Hinv as (_ & _ & _ & _ & Hflags).
    pose proof (luo_flags_final n size (luo_block st) Hn Hsize Hflags) as Hbits.
    destruct Hflags as [Hlen _].
    rewrite flatnonzero_filter, Hlen. fold wheel.
    change (fun i : Z => Z.lor (3 * i + 1) 1) with wheel.
    rewrite (filter_range_ext (bit (luo_block st)) (fun j => is_prime (wheel j)) 0 size)
      by exact Hbits.
    apply sorted_same_members.
    + assert (H5 : forall y, In y (map wheel (List.filter (fun j => is_prime (wheel j))
                                               (range 0 size))) -> 5 <= y).
      { intros y (j & <- & [Hj%in_range Hp]%filter_In)%in_map_iff.
        destruct (Z.eq_dec j 0) as [->|]; [discriminate Hp|].
        apply wheel_ge_5. lia. }
      constructor; [constructor|].
      * apply sorted_map; [intros x y; apply wheel_lt|].
        apply sorted_filter. apply sorted_range.
      * apply List.Forall_forall. intros y Hy%H5. lia.
      * apply List.Forall_forall. intros y [<-|Hy%H5]; lia.
    + apply sorted_primes_in.
    + intros x. rewrite in_primes_in. simpl. rewrite in_map_iff. split.
      * intros [<-|[<-|(j & <- & [Hj%in_range Hp]%filter_In)]].
        -- split; [lia | apply is_prime_spec; reflexivity].
        -- split; [lia | apply is_prime_spec; reflexivity].
        -- apply is_prime_spec in Hp. pose proof (Z.prime_ge_2 _ Hp).
           split; [|exact Hp]. assert (wheel j <= n) by (apply Hsize; lia). lia.
      * intros [Hx Hp].
        destruct (Z.eq_dec x 2) as [->|]; [left; reflexivity|].
        destruct (Z.eq_dec x 3) as [->|]; [right; left; reflexivity|].
        right. right.
        assert (H5 : 5 <= x).
        { destruct (Z.eq_dec x 4) as [->|]; [|lia]. exfalso.
          destruct Hp as [_ Hp]. apply (Hp 2); [lia | exists 2; lia]. }
        pose proof (wheel_index x (prime_mod6 x Hp H5)) as Hidx.
        exists (x / 3). split; [exact Hidx|]. apply filter_In. split.
        -- apply in_range. split; [apply Z.div_pos; lia|].
           apply Hsize; [apply Z.div_pos; lia|]. rewrite Hidx. lia.
        -- rewrite Hidx. apply is_prime_spec. exact Hp.
Qed.

(** * The segmented sieve [sieve_interval] *)

Lemma unsieved_snoc (ps : list Z) (p x : Z) :
  unsieved (ps ++ [p]) x = unsieved ps x && negb (x mod p =? 0).
Proof. unfold unsieved. rewrite forallb_app. simpl. rewrite andb_true_r. reflexivity. Qed.

Lemma unsieved_spec (ps : list Z) (x : Z) :
  (forall p, In p ps -> 0 < p) ->
  (unsieved ps x = true <-> forall p, In p ps -> ~ (p | x)).
Proof.
  intros Hps. unfold unsieved. rewrite forallb_forall. split.
  - intros H p Hp Hdiv. specialize (H p Hp). apply negb_true_iff in H.
    apply Z.eqb_neq in H. apply H. apply Z.mod_divide; [|exact Hdiv].
    specialize (Hps p Hp). lia.
  - intros H p Hp. apply negb_true_iff. apply Z.eqb_neq. intros Hm.
    apply (H p Hp). apply Z.mod_divide; [|exact Hm]. specialize (Hps p Hp). lia.
Qed.

(** The offset of the first multiple of [p] from [start] on, and the
    positions its slice addresses. *)
Lemma first_multiple (start p j : Z) :
  0 < p -> 0 <= j ->
  let m0 := (start / p + (if 0 <? start mod p then 1 else 0)) * p - start in
  0 <= m0 /\ ((m0 <=? j) && ((j - m0) mod p =? 0) = ((start + j) mod p =? 0)).
Proof.
  intros Hp Hj. cbv zeta.
  pose proof (Z.div_mod start p ltac:(lia)) as Hdm.
  pose proof (Z.mod_pos_bound start p Hp) as Hr.
  set (q := start / p) in *. set (r := start mod p) in *.
  set (e := if 0 <? r then 1 else 0).
  assert (He : (e = 0 /\ r = 0) \/ (e = 1 /\ 0 < r))
    by (unfold e; destruct (Z.ltb_spec 0 r); lia).
  assert (Hm0 : (q + e) * p - start = e * p - r) by lia.
  rewrite Hm0.
  assert (Hm0' : 0 <= e * p - r < p) by (destruct He as [[-> ->]|[-> ?]]; lia).
  split; [lia|].
  assert (Hmod : (j - (e * p - r)) mod p = (start + j) mod p).
  { replace (j - (e * p - r)) with (start + j + (- q - e) * p) by lia.
    apply Z_mod_plus_full. }
  rewrite Hmod.
  destruct (Z.eqb_spec ((start + j) mod p) 0) as [H0|]; [|apply andb_false_r].
  rewrite andb_true_r. apply Z.leb_le.
  rewrite <- Hmod in H0. apply Z.mod_divide in H0; [|lia]. destruct H0 as [u Hu].
  destruct (Z_le_gt_dec (e * p - r) j) as [|Hgt]; [assumption|]. exfalso.
  assert (u < 0) by nia. assert (u * p <= - p) by nia. lia.
Qed.

Lemma sieve_block_step (start size p : Z) (pre : list Z) (block : list bool) :
  0 < p -> block_flags start size pre block ->
  exists block',
    (do q <~ floordiv start p ;
     do r <~ pymod start p ;
     let multiple := (q + (if 0 <? r then 1 else 0)) * p in
     slice_assign block (multiple - start) p false) = Ok block' /\
    block_flags start size (pre ++ [p]) block'.
Proof.
  intros Hp [Hlen Hbits]. rewrite floordiv_ok by lia. simpl rbind.
  unfold pymod. destruct (Z.eqb_spec p 0); [lia|]. simpl rbind. cbv zeta.
  rewrite slice_assign_pos by lia. eexists. split; [reflexivity|].
  split; [rewrite len_update_from; exact Hlen|].
  intros j Hj. destruct (first_multiple start p j Hp ltac:(lia)) as [Hm0 Hmark].
  rewrite bit_slice by lia. rewrite Hmark, unsieved_snoc, (Hbits j Hj).
  destruct ((start + j) mod p =? 0); simpl.
  - rewrite andb_false_r. reflexivity.
  - rewrite andb_true_r. reflexivity.
Qed.

Lemma filter_map_shift (f g : Z -> bool) (h : Z -> Z) (l : list Z) :
  (forall j, In j l -> f j = g (h j)) ->
  map h (List.filter f l) = List.filter g (map h l).
Proof.
  intros H. induction l as [|x l IH]; [reflexivity|].
  simpl. rewrite <- (H x) by (left; reflexivity).
  rewrite <- IH by (intros j Hj; apply H; right; exact Hj).
  destruct (f x); reflexivity.
Qed.

Lemma range_shift (start size : Z) :
  range start (start + size) = map (fun i => start + i) (range 0 size).
Proof.
  unfold range. rewrite map_map.
  replace (start + size - start) with (size - 0) by lia.
  apply map_ext. intros i. lia.
Qed.

Theorem sieve_block_spec (small_primes : list Z) (start size : Z) :
  (forall p, In p small_primes -> 0 < p) -> 0 <= size ->
  sieve_block small_primes start size =
    Ok (List.filter (unsieved small_primes) (range start (start + size))).
Proof.
  intros Hps Hsize. unfold sieve_block. rewrite np_ones_ok by lia. unfold rbind at 1.
  destruct (for_each_invariant (block_flags start size) small_primes
              (fun p block =>
                 do q <~ floordiv start p ;
                 do r <~ pymod start p ;
                 let multiple := (q + (if 0 <? r then 1 else 0)) * p in
                 slice_assign block (multiple - start) p false)
              (repeat true (Z.to_nat size))) as (block & Hrun & [Hlen Hbits]).
  - split; [apply len_repeat; lia|]. intros j Hj. rewrite bit_ones by lia. reflexivity.
  - intros pre p post block Heq Hflags. apply sieve_block_step; [|exact Hflags].
    apply Hps. rewrite Heq. apply in_or_app. right. left. reflexivity.
  - cbv zeta in Hrun. rewrite Hrun. simpl rbind. f_equal.
    rewrite flatnonzero_filter, Hlen, range_shift.
    apply filter_map_shift. intros j Hj%in_range. apply Hbits. lia.
Qed.

(** ** The blocks *)

Lemma map_seq_split_inv {A : Type} (f : nat -> A) (n : nat) (pre post : list A) (x : A) :
  map f (seq 0 n) = pre ++ x :: post -> x = f (length pre) /\ (length pre < n)%nat.
Proof.
  intros Heq.
  assert (Hlen : (length pre < n)%nat).
  { apply (f_equal (@length A)) in Heq.
    rewrite length_map, length_seq, List.length_app in Heq. simpl in Heq. lia. }
  split; [|exact Hlen].
  assert (Hnth : nth (length pre) (map f (seq 0 n)) x = x)
    by (rewrite Heq; apply nth_middle).
  rewrite <- Hnth at 1.
  rewrite (nth_indep _ x (f 0%nat)) by (rewrite length_map, length_seq; lia).
  rewrite map_nth, seq_nth by lia. reflexivity.
Qed.

Lemma range_step_split_inv (a b s x : Z) (pre post : list Z) :
  0 < s -> range_step a b s = pre ++ x :: post -> x = a + s * len pre /\ x < b.
Proof.
  intros Hs Heq. unfold range_step in Heq. destruct (Z.ltb_spec 0 s); [|lia].
  apply map_seq_split_inv in Heq. destruct Heq as [-> Hlen]. unfold len.
  split; [reflexivity|].
  pose proof (Z.mul_div_le (b - a + s - 1) s Hs).
  assert (Z.of_nat (length pre) + 1 <= (b - a + s - 1) / s) by lia.
  nia.
Qed.

Lemma len_range_step (a b s : Z) :
  0 < s -> a < b -> b <= a + s * len (range_step a b s).
Proof.
  intros Hs Hab. unfold range_step, len. destruct (Z.ltb_spec 0 s); [|lia].
  rewrite length_map, length_seq.
  assert (0 <= (b - a + s - 1) / s) by (apply Z.div_pos; lia).
  rewrite Z2Nat.id by lia.
  pose proof (Z.div_mod (b - a + s - 1) s ltac:(lia)).
  pose proof (Z.mod_pos_bound (b - a + s - 1) s Hs). lia.
Qed.

(** The blocks together hold what one block over the whole range would. *)
Lemma sieve_blocks_spec (small_primes : list Z) (block_size s0 b : Z) :
  (forall p, In p small_primes -> 0 < p) -> 0 < block_size ->
  for_each (range_step s0 b block_size)
    (fun start yielded =>
       do ps <~ sieve_block small_primes start (Z.min block_size (b - start)) ;
       Ok (yielded ++ ps)) [] =
  Ok (List.filter (unsieved small_primes) (range s0 b)).
Proof.
  intros Hps HB.
  destruct (for_each_invariant
              (fun pre y => y = List.filter (unsieved small_primes)
                                  (range s0 (Z.min b (s0 + block_size * len pre))))
              (range_step s0 b block_size)
              (fun start yielded =>
                 do ps <~ sieve_block small_primes start (Z.min block_size (b - start)) ;
                 Ok (yielded ++ ps)) []) as (y & Hrun & Hy).
  - change (len (@nil Z)) with 0. rewrite range_nil by lia. reflexivity.
  - intros pre x post y Heq ->. apply range_step_split_inv in Heq; [|exact HB].
    destruct Heq as [Hx Hxb]. pose proof (len_nonneg pre) as Hpre.
    rewrite sieve_block_spec by (try assumption; lia). simpl rbind.
    eexists. split; [reflexivity|].
    rewrite <- List.filter_app. f_equal.
    replace (len (pre ++ [x])) with (len pre + 1)
      by (rewrite len_app; unfold len at 3; simpl; lia).
    rewrite <- Hx. rewrite (Z.min_r b x) by lia.
    replace (x + Z.min block_size (b - x))
      with (Z.min b (s0 + block_size * (len pre + 1))) by lia.
    symmetry. apply range_app. nia.
  - rewrite Hrun. f_equal. rewrite Hy.
    destruct (Z_lt_le_dec s0 b) as [Hlt|Hge].
    + pose proof (len_range_step s0 b block_size HB Hlt).
      rewrite Z.min_l by lia. reflexivity.
    + rewrite !range_nil by lia. reflexivity.
Qed.

(** ** [sieve_interval] returns the primes of [a, b) *)

Lemma unsieved_ge_5 (ps : list Z) (s y : Z) :
  (forall p, In p ps -> 0 < p) -> In 2 ps -> In 3 ps -> 2 <= y ->
  unsieved ps y = true -> 5 <= y.
Proof.
  intros Hps H2 H3 Hy Hun. rewrite unsieved_spec in Hun by exact Hps.
  pose proof (Hun 2 H2) as Hn2. pose proof (Hun 3 H3) as Hn3.
  destruct (Z.eq_dec y 2) as [->|]; [exfalso; apply Hn2; exists 1; lia|].
  destruct (Z.eq_dec y 3) as [->|]; [exfalso; apply Hn3; exists 1; lia|].
  destruct (Z.eq_dec y 4) as [->|]; [exfalso; apply Hn2; exists 2; lia|].
  lia.
Qed.

Theorem sieve_interval_spec (block_size a b : Z) :
  0 < block_size -> 1 <= b -> sieve_interval_with block_size a b = Ok (primes_in a b).
Proof.
  intros HB Hb. unfold sieve_interval_with.
  rewrite integer_sqrt_Zsqrt by lia. unfold rbind at 1.
  destruct (sqrt_bounds b ltac:(lia)) as (Hs0 & Hlo & Hhi).
  set (s := Z.sqrt b) in *.
  assert (Hs1 : 1 <= s) by nia.
  rewrite luo_spec by exact Hs1. unfold rbind at 1. cbv zeta.
  set (S := primes_in 2 (Z.max s 3 + 1)).
  assert (HS : forall p, In p S <-> 2 <= p <= Z.max s 3 /\ Z.prime p).
  { intros p. unfold S. rewrite in_primes_in. intuition lia. }
  assert (Hpos : forall p, In p S -> 0 < p) by (intros p Hp%HS; lia).
  rewrite sieve_blocks_spec by assumption. unfold rbind at 1. f_equal.
  assert (H2 : In 2 S) by (apply HS; split; [lia | apply is_prime_spec; reflexivity]).
  assert (H3 : In 3 S) by (apply HS; split; [lia | apply is_prime_spec; reflexivity]).
  assert (Hrest : forall y,
            In y (List.filter (unsieved S) (range (Z.max (s + 1) a) b)) ->
            Z.max (s + 1) a <= y < b /\ 5 <= y /\ unsieved S y = true).
  { intros y [Hy%in_range Hun]%filter_In. split; [exact Hy|]. split; [|exact Hun].
    apply (unsieved_ge_5 S s y Hpos H2 H3); [lia | exact Hun]. }
  apply sorted_same_members.
  - apply sorted_app.
    + apply sorted_filter. apply sorted_primes_in.
    + apply sorted_filter. apply sorted_range.
    + intros x y [Hx%HS _]%filter_In (Hy & Hy5 & _)%Hrest. lia.
  - apply sorted_primes_in.
  - intros x. rewrite in_app_iff, in_primes_in. split.
    + intros [[Hx%HS Hab]%filter_In|(Hx & Hx5 & Hun)%Hrest].
      * apply andb_true_iff in Hab. destruct Hab as [Ha%Z.leb_le Hxb%Z.ltb_lt].
        split; [lia | tauto].
      * split; [lia|]. destruct (prime_or_not x) as [|Hnp]; [assumption|]. exfalso.
        destruct (small_prime_factor x ltac:(lia) Hnp) as (q & Hq & Hdiv & Hsq).
        pose proof (Z.prime_ge_2 q Hq) as Hq2.
        pose proof (square_le_lt q s x ltac:(lia) Hs0 Hsq ltac:(lia)) as Hqs.
        rewrite unsieved_spec in Hun by exact Hpos.
        apply (Hun q); [|exact Hdiv]. apply HS. split; [lia | exact Hq].
    + intros [Hab Hp]. pose proof (Z.prime_ge_2 x Hp) as Hx2.
      destruct (Z_le_gt_dec x (Z.max s 3)) as [Hle|Hgt].
      * left. apply filter_In. split; [apply HS; split; [lia | exact Hp]|].
        apply andb_true_iff. split; [apply Z.leb_le | apply Z.ltb_lt]; lia.
      * right. apply filter_In. split; [apply in_range; lia|].
        apply unsieved_spec; [exact Hpos|]. intros p [Hp2 Hpp]%HS Hdiv.
        apply (Z.divide_prime_prime p x Hpp Hp) in Hdiv. lia.
Qed.

(** * The odd-only sieve [eratosthenes2] *)

Lemma odd_divisor (q j : Z) : (q | 2 * j + 1) -> q mod 2 = 1.
Proof.
  intros [e He].
  assert (H : q mod 2 = 0 \/ q mod 2 = 1) by (mod_lia).
  destruct H as [H|H]; [|exact H]. exfalso.
  pose proof (Z.div_mod q 2 ltac:(lia)) as Hq. rewrite H in Hq.
  rewrite Hq in He. lia.
Qed.

(** An odd divisor up to the odd [k] is [k] or at most [k - 2]. *)
Lemma odd_below (q k j : Z) :
  k mod 2 = 1 -> (q | 2 * j + 1) -> q <= k -> q = k \/ q <= k - 2.
Proof.
  intros Hk Hdiv Hle. pose proof (odd_divisor q j Hdiv) as Hq.
  mod_lia.
Qed.

Lemma odd_half (k : Z) : k mod 2 = 1 -> 2 * (k / 2) + 1 = k /\ 2 * (k * k / 2) + 1 = k * k.
Proof.
  intros Hk. pose proof (Z.div_mod k 2 ltac:(lia)) as Hd. rewrite Hk in Hd.
  split; [lia|].
  assert (Hkk : (k * k) mod 2 = 1).
  { rewrite Z.mul_mod by lia. rewrite Hk. reflexivity. }
  pose proof (Z.div_mod (k * k) 2 ltac:(lia)) as Hd2. rewrite Hkk in Hd2. lia.
Qed.

(** The slice [k*k//2::k] addresses exactly the indices of the odd multiples
    of [k] from [k * k] on. *)
Lemma odd_marks (k j : Z) :
  3 <= k -> k mod 2 = 1 -> 0 <= j ->
  ((k * k / 2 <=? j) && ((j - k * k / 2) mod k =? 0) = true <->
   (k | 2 * j + 1) /\ k * k <= 2 * j + 1).
Proof.
  intros Hk Hodd Hj. destruct (odd_half k Hodd) as [_ Hc].
  set (c := k * k / 2) in *.
  rewrite andb_true_iff, Z.leb_le, Z.eqb_eq. split.
  - intros [Hcj Hm]. apply Z.mod_divide in Hm; [|lia]. destruct Hm as [u Hu].
    split; [exists (k + 2 * u); lia | lia].
  - intros [Hdiv Hsq]. split; [lia|]. apply Z.mod_divide; [lia|].
    assert (H2 : (k | 2 * (j - c))).
    { replace (2 * (j - c)) with (2 * j + 1 - k * k) by lia.
      apply Z.divide_sub_r; [exact Hdiv | exists k; reflexivity]. }
    apply (Z.gauss k 2 (j - c) H2).
    rewrite Z.gcd_comm. apply Z.coprime_prime_l; [apply is_prime_spec; reflexivity|].
    intros H. apply Z.mod_divide in H; lia.
Qed.

Lemma odd_flag_prime (size k : Z) (block : list bool) :
  3 <= k -> k mod 2 = 1 -> k / 2 < size -> odd_flags size (k - 2) block ->
  (bit block (k / 2) = true <-> Z.prime k).
Proof.
  intros Hk Hodd Hsize [Hlen Hbits]. destruct (odd_half k Hodd) as [Hh _].
  assert (Hm : 1 <= k / 2) by lia.
  rewrite (Hbits (k / 2) ltac:(lia)). rewrite Hh. split.
  - intros [_ Hno]. destruct (prime_or_not k) as [|Hnp]; [assumption|].
    destruct (small_prime_factor k ltac:(lia) Hnp) as (q & Hq & Hdiv & Hsq).
    exfalso. pose proof (Z.prime_ge_2 q Hq) as Hq2.
    apply (Hno q Hq); [|exact Hsq | exact Hdiv].
    rewrite <- Hh in Hdiv.
    destruct (odd_below q k (k / 2) Hodd Hdiv ltac:(nia)) as [->|Hlow]; [nia | exact Hlow].
  - intros Hp. split; [lia|]. intros q Hq Hle Hsq Hdiv.
    apply (Z.divide_prime_prime q k Hq Hp) in Hdiv. lia.
Qed.

Lemma odd_extend (k j : Z) :
  k mod 2 = 1 ->
  ((forall q, Z.prime q -> q <= k -> q * q <= 2 * j + 1 -> ~ (q | 2 * j + 1)) <->
   (forall q, Z.prime q -> q <= k - 2 -> q * q <= 2 * j + 1 -> ~ (q | 2 * j + 1)) /\
   ~ (Z.prime k /\ (k | 2 * j + 1) /\ k * k <= 2 * j + 1)).
Proof.
  intros Hodd. split.
  - intros H. split.
    + intros q Hq Hle. apply H; [exact Hq | lia].
    + intros (Hp & Hdiv & Hsq). apply (H k Hp); [lia | exact Hsq | exact Hdiv].
  - intros [Hold Hnew] q Hq Hle Hsq Hdiv.
    destruct (odd_below q k j Hodd Hdiv Hle) as [->|Hlow].
    + apply Hnew. auto.
    + apply (Hold q Hq Hlow Hsq Hdiv).
Qed.

Lemma odd_body_spec (size k : Z) (block : list bool) :
  3 <= k -> k mod 2 = 1 -> k / 2 < size -> odd_flags size (k - 2) block ->
  exists block',
    (do bk <~ getitem false block (k / 2) ;
     if bk then slice_assign block (k * k / 2) k false else Ok block) = Ok block' /\
    odd_flags size k block'.
Proof.
  intros Hk Hodd Hsize Hflags.
  pose proof (odd_flag_prime size k block Hk Hodd Hsize Hflags) as Hflag.
  destruct Hflags as [Hlen Hbits]. destruct (odd_half k Hodd) as [Hh Hc].
  rewrite getitem_in by lia. simpl rbind.
  destruct (bit block (k / 2)) eqn:Hbk.
  - assert (Hp : Z.prime k) by (apply Hflag; reflexivity).
    rewrite slice_assign_pos by lia. eexists. split; [reflexivity|].
    split; [rewrite len_update_from; exact Hlen|].
    intros j Hj. rewrite bit_slice by nia. rewrite odd_extend by exact Hodd.
    pose proof (odd_marks k j Hk Hodd ltac:(lia)) as Hmarks.
    destruct ((k * k / 2 <=? j) && ((j - k * k / 2) mod k =? 0)).
    + split; [discriminate|]. intros [_ [_ Hno]]. exfalso. apply Hno.
      split; [exact Hp | apply Hmarks; reflexivity].
    + rewrite (Hbits j Hj). split.
      * intros [H1 Hold]. split; [exact H1|]. split; [exact Hold|].
        intros (_ & Hdiv & Hsq).
        assert (false = true) by (apply Hmarks; split; assumption). discriminate.
      * intros [H1 [Hold _]]. split; assumption.
  - assert (Hnp : ~ Z.prime k) by (intros Hp; apply Hflag in Hp; congruence).
    eexists. split; [reflexivity|]. split; [exact Hlen|].
    intros j Hj. rewrite odd_extend by exact Hodd. rewrite (Hbits j Hj). split.
    + intros [H1 Hold]. split; [exact H1|]. split; [exact Hold | tauto].
    + intros [H1 [Hold _]]. split; assumption.
Qed.

Lemma len_range_step_pos (a b s : Z) :
  0 < s -> len (range_step a b s) = Z.max 0 ((b - a + s - 1) / s).
Proof.
  intros Hs. unfold range_step, len. destruct (Z.ltb_spec 0 s); [|lia].
  rewrite length_map, length_seq. lia.
Qed.

Lemma odd_loop (size s : Z) (block : list bool) :
  1 <= s -> (forall k, 3 <= k <= s -> k mod 2 = 1 -> k / 2 < size) ->
  odd_flags size 1 block ->
  exists block',
    for_each (range_step 3 (s + 1) 2) (fun k block =>
      do bk <~ getitem false block (k / 2) ;
      if bk then slice_assign block (k * k / 2) k false else Ok block) block
      = Ok block' /\
    odd_flags size (1 + 2 * ((s - 1) / 2)) block'.
Proof.
  intros Hs Hsize H1.
  destruct (for_each_invariant (fun pre b => odd_flags size (1 + 2 * len pre) b)
              (range_step 3 (s + 1) 2)
              (fun k block =>
                 do bk <~ getitem false block (k / 2) ;
                 if bk then slice_assign block (k * k / 2) k false else Ok block)
              block) as (block' & Hrun & Hinv).
  - exact H1.
  - intros pre x post b Heq Hb.
    apply range_step_split_inv in Heq; [|lia]. destruct Heq as [Hx Hlt].
    pose proof (len_nonneg pre) as Hpre.
    assert (Hodd : x mod 2 = 1).
    { rewrite Hx. replace (3 + 2 * len pre) with (1 + (1 + len pre) * 2) by lia.
      rewrite Z_mod_plus_full. reflexivity. }
    replace (len (pre ++ [x])) with (len pre + 1)
      by (rewrite len_app; unfold len at 3; simpl; lia).
    replace (1 + 2 * (len pre + 1)) with x by lia.
    apply odd_body_spec; [lia | exact Hodd | apply Hsize; [lia | exact Hodd] |].
    replace (x - 2) with (1 + 2 * len pre) by lia. exact Hb.
  - exists block'. split; [exact Hrun|].
    rewrite len_range_step_pos in Hinv by lia.
    replace (s + 1 - 3 + 2 - 1) with (s - 1) in Hinv by lia.
    rewrite Z.max_r in Hinv by (apply Z.div_pos; lia). exact Hinv.
Qed.

(** Once the rounds reach the square root of [n], the flags are the
    primality of the odd numbers. *)
Lemma odd_flags_final (n size : Z) (block : list bool) :
  1 <= n -> (forall j, 0 <= j -> (j < size <-> 2 * j + 1 <= n)) ->
  odd_flags size (1 + 2 * ((Z.sqrt n - 1) / 2)) block ->
  forall j, 0 <= j < size -> bit block j = is_prime (2 * j + 1).
Proof.
  intros Hn Hsize [Hlen Hbits] j Hj.
  destruct (sqrt_bounds n ltac:(lia)) as (Hs0 & Hlo & Hhi).
  assert (Hjn : 2 * j + 1 <= n) by (apply Hsize; lia).
  destruct (is_prime (2 * j + 1)) eqn:Hp.
  - apply is_prime_spec in Hp. pose proof (Z.prime_ge_2 _ Hp) as H2.
    apply Hbits; [exact Hj|]. split; [lia|].
    intros q Hq Hle Hsq Hdiv.
    apply (Z.divide_prime_prime q (2 * j + 1) Hq Hp) in Hdiv. subst q. nia.
  - apply is_prime_false in Hp. apply not_true_is_false. intros Hb.
    apply (Hbits j Hj) in Hb. destruct Hb as [H1 Hno].
    destruct (small_prime_factor (2 * j + 1) ltac:(lia) Hp) as (q & Hq & Hdiv & Hsq).
    pose proof (Z.prime_ge_2 q Hq) as Hq2.
    apply (Hno q Hq); [|exact Hsq | exact Hdiv].
    pose proof (square_le_lt q (Z.sqrt n) n ltac:(lia) Hs0 ltac:(lia) Hhi) as Hqs.
    pose proof (odd_divisor q j Hdiv) as Hodd.
    mod_lia.
Qed.

Theorem eratosthenes2_spec (n : Z) :
  1 <= n -> eratosthenes2 n = Ok (primes_in 2 (Z.max n 2 + 1)).
Proof.
  intros Hn. unfold eratosthenes2. cbv zeta.
  set (size := (n + 1) / 2).
  assert (Hsize : forall j, 0 <= j -> (j < size <-> 2 * j + 1 <= n))
    by (intros j Hj; unfold size; mod_lia).
  assert (Hsize1 : 1 <= size) by (unfold size; mod_lia).
  rewrite np_ones_ok by lia. unfold rbind at 1.
  rewrite setitem_in by (rewrite len_repeat; lia). unfold rbind at 1.
  rewrite integer_sqrt_Zsqrt by lia. unfold rbind at 1.
  destruct (sqrt_bounds n ltac:(lia)) as (Hs0 & Hlo & Hhi).
  assert (Hs1 : 1 <= Z.sqrt n) by nia.
  set (block0 := update_from (Z.eqb 0) (fun _ => false) 0 (repeat true (Z.to_nat size))).
  destruct (odd_loop size (Z.sqrt n) block0 Hs1) as (block & Hrun & Hflags).
  - intros k Hk Hodd. apply Hsize; [apply Z.div_pos; lia|].
    destruct (odd_half k Hodd) as [Hh _]. nia.
  - split.
    + unfold block0. rewrite len_update_from, len_repeat; lia.
    + intros j Hj. unfold block0.
      rewrite bit_setitem by (rewrite len_repeat; lia). rewrite bit_ones by lia.
      destruct (Z.eqb_spec 0 j); [subst; split; [discriminate | lia]|].
      split; [|reflexivity]. intros _. split; [lia|].
      intros q Hq Hle. pose proof (Z.prime_ge_2 q Hq). lia.
  - rewrite Hrun. unfold rbind at 1. f_equal.
    pose proof (odd_flags_final n size block Hn Hsize Hflags) as Hbits.
    destruct Hflags as [Hlen _].
    rewrite flatnonzero_filter, Hlen.
    rewrite (filter_range_ext (bit block) (fun j => is_prime (2 * j + 1)) 0 size)
      by exact Hbits.
    assert (H3 : forall y, In y (map (fun i => 2 * i + 1)
                     (List.filter (fun j => is_prime (2 * j + 1)) (range 0 size))) ->
                   exists j, y = 2 * j + 1 /\ 1 <= j < size /\ Z.prime y).
    { intros y (j & <- & [Hj%in_range Hp]%filter_In)%in_map_iff.
      exists j. split; [reflexivity|]. apply is_prime_spec in Hp.
      pose proof (Z.prime_ge_2 _ Hp). split; [lia | exact Hp]. }
    apply sorted_same_members.
    + constructor.
      * apply sorted_map; [intros x y; lia|]. apply sorted_filter. apply sorted_range.
      * apply List.Forall_forall. intros y (j & -> & Hj & _)%H3. lia.
    + apply sorted_primes_in.
    + intros x. rewrite in_primes_in. split.
      * intros [<-|(j & -> & Hj & Hp)%H3].
        -- split; [lia | apply is_prime_spec; reflexivity].
        -- split; [|exact Hp]. assert (2 * j + 1 <= n) by (apply Hsize; lia). lia.
      * intros [Hx Hp]. destruct (Z.eq_dec x 2) as [->|Hne]; [left; reflexivity|].
        right. apply in_map_iff.
        assert (Hodd : x mod 2 = 1).
        { assert (H : x mod 2 = 0 \/ x mod 2 = 1) by (mod_lia).
          destruct H as [H|H]; [|exact H]. exfalso.
          assert (Hdiv : (2 | x)) by (apply Z.mod_divide; lia).
          apply (Z.divide_prime_prime 2 x) in Hdiv;
            [lia | apply is_prime_spec; reflexivity | exact Hp]. }
        destruct (odd_half x Hodd) as [Hh _].
        exists (x / 2). split; [exact Hh|]. apply filter_In. split.
        -- apply in_range. split; [apply Z.div_pos; lia|].
           apply Hsize; [apply Z.div_pos; lia | lia].
        -- rewrite Hh. apply is_prime_spec. exact Hp.
Qed.

(** * The segmented count [Q_segmented] *)

Lemma Q_segmented_block_spec (prime_squares : list Z) (start size : Z) :
  (forall p2, In p2 prime_squares -> 0 < p2) -> 0 <= size ->
  Q_segmented_block prime_squares start size =
    Ok (len (List.filter (unsieved prime_squares) (range start (start + size)))).
Proof.
  intros Hps Hsize. unfold Q_segmented_block. rewrite np_ones_ok by lia.
  unfold rbind at 1.
  destruct (for_each_invariant (block_flags start size) prime_squares
              (fun p2 block =>
                 do q <~ floordiv start p2 ;
                 do r <~ pymod start p2 ;
                 let multiple := (q + (if 0 <? r then 1 else 0)) * p2 in
                 slice_assign block (multiple - start) p2 false)
              (repeat true (Z.to_nat size))) as (block & Hrun & [Hlen Hbits]).
  - split; [apply len_repeat; lia|]. intros j Hj. rewrite bit_ones by lia. reflexivity.
  - intros pre p post block Heq Hflags. apply sieve_block_step; [|exact Hflags].
    apply Hps. rewrite Heq. apply in_or_app. right. left. reflexivity.
  - cbv zeta in Hrun. rewrite Hrun. simpl rbind. f_equal.
    unfold count_nonzero. rewrite flatnonzero_filter, Hlen, range_shift.
    rewrite <- (filter_map_shift (bit block) (unsieved prime_squares)
                  (fun i => start + i) (range 0 size))
      by (intros j Hj%in_range; apply Hbits; lia).
    rewrite len_map. reflexivity.
Qed.

Lemma Q_segmented_blocks (prime_squares : list Z) (block_size n : Z) :
  (forall p2, In p2 prime_squares -> 0 < p2) -> 0 < block_size ->
  for_each (range_step 1 (n + 1) block_size)
    (fun start count =>
       do c <~ Q_segmented_block prime_squares start
                 (Z.min block_size (n - start + 1)) ;
       Ok (count + c)) 0 =
  Ok (len (List.filter (unsieved prime_squares) (range 1 (n + 1)))).
Proof.
  intros Hps HB.
  destruct (for_each_invariant
              (fun pre y => y = len (List.filter (unsieved prime_squares)
                                  (range 1 (Z.min (n + 1) (1 + block_size * len pre)))))
              (range_step 1 (n + 1) block_size)
              (fun start count =>
                 do c <~ Q_segmented_block prime_squares start
                           (Z.min block_size (n - start + 1)) ;
                 Ok (count + c)) 0) as (y & Hrun & Hy).
  - change (len (@nil Z)) with 0. rewrite range_nil by lia. reflexivity.
  - intros pre x post y Heq ->. apply range_step_split_inv in Heq; [|exact HB].
    destruct Heq as [Hx Hxb]. pose proof (len_nonneg pre) as Hpre.
    rewrite Q_segmented_block_spec by (try assumption; lia). simpl rbind.
    eexists. split; [reflexivity|].
    rewrite <- len_app, <- List.filter_app. do 2 f_equal.
    replace (len (pre ++ [x])) with (len pre + 1)
      by (rewrite len_app; unfold len at 3; simpl; lia).
    rewrite <- Hx. rewrite (Z.min_r (n + 1) x) by lia.
    replace (x + Z.min block_size (n - x + 1))
      with (Z.min (n + 1) (1 + block_size * (len pre + 1))) by lia.
    symmetry. apply range_app. nia.
  - rewrite Hrun. f_equal. rewrite Hy.
    destruct (Z_lt_le_dec 1 (n + 1)) as [Hlt|Hge].
    + pose proof (len_range_step 1 (n + 1) block_size HB Hlt).
      rewrite Z.min_l by lia. reflexivity.
    + rewrite !range_nil by lia. reflexivity.
Qed.

Theorem Q_segmented_spec (n : Z) : 0 <= n -> Q_segmented n = Ok (squarefree_count n).
Proof.
  intros Hn. unfold Q_segmented.
  rewrite integer_sqrt_Zsqrt by lia. unfold rbind at 1.
  destruct (sqrt_bounds n Hn) as (Hs0 & Hlo & Hhi).
  rewrite primes_bound_spec by lia. unfold rbind at 1. cbv zeta.
  set (sq := map (fun p => p ^ 2) (primes_in 2 (Z.sqrt n + 2))).
  assert (Hsq : forall p2, In p2 sq -> 0 < p2).
  { intros p2 (p & <- & [Hp _]%in_primes_in)%in_map_iff. apply Z.pow_pos_nonneg; lia. }
  rewrite Q_segmented_blocks by (try assumption; lia). f_equal.
  unfold squarefree_count. f_equal. apply filter_range_ext. intros i Hi.
  apply eqb_iff. rewrite unsieved_spec by exact Hsq.
  rewrite squarefreeb_spec.
  rewrite (squarefree_prime_squares i (Z.sqrt n)) by lia. split.
  - intros H p Hp. rewrite <- Z.pow_2_r. apply H. apply in_map_iff. eauto.
  - intros H p2 (p & <- & Hp)%in_map_iff. rewrite Z.pow_2_r. apply H. exact Hp.
Qed.

(** * Perfect powers *)

Lemma is_kth_power_spec (n k : Z) :
  0 <= n -> 1 <= k ->
  exists b, is_kth_power n k = Ok b /\ (b = true <-> exists m, 0 <= m /\ m ^ k = n).
Proof.
  intros Hn Hk. unfold is_kth_power.
  destruct (integer_kth_root_spec n k Hn Hk) as (r & Hr & Hr0 & Hspec).
  rewrite Hr. simpl rbind. eexists. split; [reflexivity|].
  rewrite Z.eqb_eq. split.
  - intros H. exists r. split; assumption.
  - intros (m & Hm & Hmk).
    assert (m = r); [|congruence].
    apply (floor_root_unique n k m r Hk Hm Hr0); [|exact Hspec].
    split; [lia|]. rewrite <- Hmk.
    destruct (Z.eq_dec m 0) as [->|]; [|apply pow_lt_succ; lia].
    rewrite Z.pow_0_l by lia. simpl. rewrite Z.pow_1_l by lia. lia.
Qed.

Lemma is_square_spec (n : Z) :
  0 <= n ->
  exists b, is_square n = Ok b /\ (b = true <-> exists m, 0 <= m /\ m * m = n).
Proof.
  intros Hn. unfold is_square.
  destruct (integer_sqrt_spec n Hn) as (r & Hr & Hr0 & Hspec).
  rewrite Hr. simpl rbind. eexists. split; [reflexivity|].
  rewrite Z.eqb_eq. split.
  - intros H. exists r. split; assumption.
  - intros (m & Hm & Hmk).
    assert (m = r); [|congruence].
    apply (floor_root_unique n 2 m r ltac:(lia) Hm Hr0); [|exact Hspec].
    rewrite !Z.pow_2_r. nia.
Qed.

(** * The odd-only segmented sieve [sieve_interval2] *)

(** The slice [offset::p] of a block addresses exactly the entries whose odd
    number [p] divides. *)
Lemma odd_offset (start p i : Z) :
  0 < p -> p mod 2 = 1 -> start mod 2 = 0 -> 0 <= i ->
  let offset := ((- (start + 1 + p)) / 2) mod p in
  0 <= offset /\
  ((offset <=? i) && ((i - offset) mod p =? 0) = ((2 * i + (start + 1)) mod p =? 0)).
Proof.
  intros Hp Hodd Heven Hi. cbv zeta.
  assert (Hh : exists h, start + 1 + p = 2 * h) by (exists ((start + 1 + p) / 2); mod_lia).
  destruct Hh as [h Hh].
  assert (Hneg : (- (start + 1 + p)) / 2 = - h).
  { rewrite Hh. replace (- (2 * h)) with ((- h) * 2) by lia. apply Z_div_mult. lia. }
  rewrite Hneg.
  pose proof (Z.mod_pos_bound (- h) p Hp) as Hoff.
  pose proof (Z.div_mod (- h) p ltac:(lia)) as Hdm.
  set (offset := (- h) mod p) in *. set (t := (- h) / p) in *.
  split; [lia|].
  assert (Hiff : (i - offset) mod p = 0 <-> (2 * i + (start + 1)) mod p = 0).
  { rewrite !Z.mod_divide by lia. split.
    - intros [u Hu]. exists (2 * u - 2 * t - 1). nia.
    - intros [u Hu].
      assert (H2 : (p | 2 * (i - offset))) by (exists (u + 2 * t + 1); nia).
      apply (Z.gauss p 2 (i - offset) H2).
      rewrite Z.gcd_comm. apply Z.coprime_prime_l; [apply is_prime_spec; reflexivity|].
      intros H. apply Z.mod_divide in H; lia. }
  destruct (Z.eqb_spec ((2 * i + (start + 1)) mod p) 0) as [H0|Hne].
  - apply Hiff in H0. rewrite H0. change (0 =? 0) with true. rewrite andb_true_r.
    apply Z.leb_le. apply Z.mod_divide in H0; [|lia]. destruct H0 as [u Hu].
    destruct (Z_le_gt_dec offset i) as [|Hgt]; [assumption|]. exfalso.
    assert (u < 0) by nia. assert (u * p <= - p) by nia. lia.
  - destruct (Z.eqb_spec ((i - offset) mod p) 0) as [H0|]; [|apply andb_false_r].
    apply Hiff in H0. contradiction.
Qed.

Theorem sieve_block2_spec (small_primes : list Z) (start size : Z) :
  (forall p, In p small_primes -> 0 < p /\ p mod 2 = 1) ->
  start mod 2 = 0 -> 0 <= size ->
  sieve_block2 small_primes start size =
    Ok (map (fun i => 2 * i + (start + 1))
          (List.filter (fun i => unsieved small_primes (2 * i + (start + 1)))
             (range 0 size))).
Proof.
  intros Hps Heven Hsize. unfold sieve_block2. rewrite np_ones_ok by lia.
  unfold rbind at 1.
  destruct (for_each_invariant (block_flags2 start size) small_primes
              (fun p block =>
                 do offset <~ pymod ((- (start + 1 + p)) / 2) p ;
                 slice_assign block offset p false)
              (repeat true (Z.to_nat size))) as (block & Hrun & [Hlen Hbits]).
  - split; [apply len_repeat; lia|]. intros j Hj. rewrite bit_ones by lia. reflexivity.
  - intros pre p post block Heq [Hlen Hbits].
    assert (Hp : 0 < p /\ p mod 2 = 1)
      by (apply Hps; rewrite Heq; apply in_or_app; right; left; reflexivity).
    destruct Hp as [Hp Hodd].
    unfold pymod. destruct (Z.eqb_spec p 0); [lia|]. simpl rbind.
    rewrite slice_assign_pos by lia. eexists. split; [reflexivity|].
    split; [rewrite len_update_from; exact Hlen|].
    intros j Hj. destruct (odd_offset start p j Hp Hodd Heven ltac:(lia)) as [Hoff Hmark].
    rewrite bit_slice by lia. rewrite Hmark, unsieved_snoc, (Hbits j Hj).
    destruct ((2 * j + (start + 1)) mod p =? 0); simpl.
    + rewrite andb_false_r. reflexivity.
    + rewrite andb_true_r. reflexivity.
  - rewrite Hrun. simpl rbind. f_equal.
    rewrite flatnonzero_filter, Hlen. f_equal.
    apply filter_range_ext. intros j Hj. apply Hbits. lia.
Qed.

(** The odd numbers of [start, start + 2 size), by their index. *)
Lemma odd_range (g : Z -> bool) (start : Z) (size : nat) :
  start mod 2 = 0 ->
  map (fun i => 2 * i + (start + 1))
    (List.filter (fun i => g (2 * i + (start + 1))) (range 0 (Z.of_nat size))) =
  List.filter (fun x => Z.odd x && g x) (range start (start + 2 * Z.of_nat size)).
Proof.
  intros Heven. induction size as [|size IH].
  - simpl. rewrite !range_nil by lia. reflexivity.
  - replace (Z.of_nat (S size)) with (Z.of_nat size + 1) by lia.
    rewrite (range_snoc 0 (Z.of_nat size)) by lia.
    rewrite List.filter_app, map_app, IH.
    rewrite (range_app start (start + 2 * Z.of_nat size) (start + 2 * (Z.of_nat size + 1)))
      by lia.
    rewrite List.filter_app. f_equal.
    rewrite (range_cons (start + 2 * Z.of_nat size)) by lia.
    rewrite (range_cons (start + 2 * Z.of_nat size + 1)) by lia.
    rewrite (range_nil (start + 2 * Z.of_nat size + 1 + 1)) by lia.
    simpl.
    assert (He : Z.odd (start + 2 * Z.of_nat size) = false).
    { rewrite Zodd_mod. apply Z.eqb_neq. mod_lia. }
    assert (Ho : Z.odd (start + 2 * Z.of_nat size + 1) = true).
    { rewrite Zodd_mod. apply Z.eqb_eq. mod_lia. }
    rewrite He, Ho. simpl.
    replace (start + 2 * Z.of_nat size + 1) with (2 * Z.of_nat size + (start + 1)) by lia.
    destruct (g (2 * Z.of_nat size + (start + 1))); reflexivity.
Qed.

Lemma sieve_blocks2_spec (small_primes : list Z) (block_size aa bb : Z) :
  (forall p, In p small_primes -> 0 < p /\ p mod 2 = 1) -> 0 < block_size ->
  aa mod 2 = 0 -> bb mod 2 = 0 ->
  for_each (range_step aa bb (2 * block_size))
    (fun start yielded =>
       do ps <~ sieve_block2 small_primes start
                  (Z.min block_size ((bb - start) / 2)) ;
       Ok (yielded ++ ps)) [] =
  Ok (List.filter (fun x => Z.odd x && unsieved small_primes x) (range aa bb)).
Proof.
  intros Hps HB Ha Hb.
  set (h := fun x => Z.odd x && unsieved small_primes x).
  destruct (for_each_invariant
              (fun pre y => y = List.filter h
                                  (range aa (Z.min bb (aa + 2 * block_size * len pre))))
              (range_step aa bb (2 * block_size))
              (fun start yielded =>
                 do ps <~ sieve_block2 small_primes start
                            (Z.min block_size ((bb - start) / 2)) ;
                 Ok (yielded ++ ps)) []) as (y & Hrun & Hy).
  - change (len (@nil Z)) with 0. rewrite range_nil by lia. reflexivity.
  - intros pre x post y Heq ->. apply range_step_split_inv in Heq; [|lia].
    destruct Heq as [Hx Hxb]. pose proof (len_nonneg pre) as Hpre.
    assert (Hxe : x mod 2 = 0).
    { rewrite Hx. replace (aa + 2 * block_size * len pre)
        with (aa + (block_size * len pre) * 2) by lia.
      rewrite Z_mod_plus_full. exact Ha. }
    assert (Hhalf : 2 * ((bb - x) / 2) = bb - x) by mod_lia.
    assert (Hsz : 0 <= Z.min block_size ((bb - x) / 2)) by lia.
    rewrite sieve_block2_spec by assumption. simpl rbind.
    eexists. split; [reflexivity|].
    rewrite <- (Z2Nat.id (Z.min block_size ((bb - x) / 2))) by exact Hsz.
    rewrite (odd_range (unsieved small_primes) x _ Hxe).
    rewrite Z2Nat.id by exact Hsz. fold h.
    rewrite <- List.filter_app. f_equal.
    replace (len (pre ++ [x])) with (len pre + 1)
      by (rewrite len_app; unfold len at 3; simpl; lia).
    rewrite (Z.min_r bb (aa + 2 * block_size * len pre)) by lia.
    rewrite <- Hx.
    replace (x + 2 * Z.min block_size ((bb - x) / 2))
      with (Z.min bb (aa + 2 * block_size * (len pre + 1))) by lia.
    symmetry. apply range_app. nia.
  - rewrite Hrun. f_equal. rewrite Hy.
    destruct (Z_lt_le_dec aa bb) as [Hlt|Hge].
    + pose proof (len_range_step aa bb (2 * block_size) ltac:(lia) Hlt).
      rewrite Z.min_l by lia. reflexivity.
    + rewrite !range_nil by lia. reflexivity.
Qed.

Lemma primes_in_tail (m : Z) : 3 <= m -> skipn 1 (primes_in 2 m) = primes_in 3 m.
Proof.
  intros Hm. unfold primes_in. rewrite (range_cons 2 m) by lia. reflexivity.
Qed.

(** ** [sieve_interval2] returns the primes of the closed interval *)

Theorem sieve_interval2_spec (block_size a b : Z) :
  0 < block_size -> 4 <= b ->
  sieve_interval2_with block_size a b = Ok (primes_in a (b + 1)).
Proof.
  intros HB Hb. unfold sieve_interval2_with.
  rewrite integer_sqrt_Zsqrt by lia. unfold rbind at 1.
  destruct (sqrt_bounds b ltac:(lia)) as (Hs0 & Hlo & Hhi).
  set (s := Z.sqrt b) in *.
  assert (Hs1 : 2 <= s) by nia.
  rewrite luo_spec by lia. unfold rbind at 1. cbv zeta.
  rewrite primes_in_tail by lia.
  set (S := primes_in 3 (Z.max s 3 + 1)).
  assert (HS : forall p, In p S <-> 3 <= p <= Z.max s 3 /\ Z.prime p).
  { intros p. unfold S. rewrite in_primes_in. intuition lia. }
  assert (Hodd_prime : forall p, Z.prime p -> 3 <= p -> p mod 2 = 1).
  { intros p Hp H3.
    assert (H : p mod 2 = 0 \/ p mod 2 = 1) by mod_lia.
    destruct H as [H|H]; [|exact H]. exfalso.
    assert (Hdiv : (2 | p)) by (apply Z.mod_divide; lia).
    apply (Z.divide_prime_prime 2 p) in Hdiv;
      [lia | apply is_prime_spec; reflexivity | exact Hp]. }
  assert (Hpos : forall p, In p S -> 0 < p /\ p mod 2 = 1).
  { intros p [Hp3 Hp]%HS. split; [lia | apply Hodd_prime; [exact Hp | lia]]. }
  assert (Hpos' : forall p, In p S -> 0 < p) by (intros p Hp; apply Hpos; exact Hp).
  set (bb := b + b mod 2).
  set (m := Z.max (s + 1) a).
  set (aa := m - m mod 2).
  assert (Hbb : bb mod 2 = 0) by (unfold bb; mod_lia).
  assert (Haa : aa mod 2 = 0) by (unfold aa; mod_lia).
  assert (Hbb' : b <= bb <= b + 1) by (unfold bb; mod_lia).
  assert (Haa' : m - 1 <= aa <= m) by (unfold aa; mod_lia).
  rewrite sieve_blocks2_spec by assumption. unfold rbind at 1. f_equal.
  assert (H3 : In 3 S) by (apply HS; split; [lia | apply is_prime_spec; reflexivity]).
  assert (Hrest : forall y,
            In y (List.filter (fun x => Z.odd x && unsieved S x) (range aa bb)) ->
            m <= y <= b /\ 5 <= y /\ y mod 2 = 1 /\ unsieved S y = true).
  { intros y [Hy%in_range Hun]%filter_In.
    apply andb_true_iff in Hun. destruct Hun as [Ho Hun].
    rewrite Zodd_mod in Ho. apply Z.eqb_eq in Ho.
    assert (Hy3 : ~ (3 | y)) by (apply (unsieved_spec S y Hpos'); assumption).
    assert (y <> 3) by (intros ->; apply Hy3; exists 1; lia).
    assert (Hmy : m <= y) by (unfold aa in Hy; mod_lia).
    split; [split; [exact Hmy | mod_lia]|].
    split; [unfold m in Hmy; mod_lia|]. split; assumption. }
  apply sorted_same_members.
  - apply sorted_app; [|apply sorted_app|].
    + destruct (a <=? 2); repeat constructor.
    + apply sorted_filter. apply sorted_primes_in.
    + apply sorted_filter. apply sorted_range.
    + intros x y [Hx%HS _]%filter_In (Hy & Hy5 & _)%Hrest. unfold m in Hy. lia.
    + intros x y Hx Hy. assert (x = 2) as ->.
      { destruct (a <=? 2); [destruct Hx as [<-|[]]; reflexivity | destruct Hx]. }
      apply in_app_or in Hy. destruct Hy as [[Hy%HS _]%filter_In|(_ & Hy5 & _)%Hrest]; lia.
  - apply sorted_primes_in.
  - intros x. rewrite !in_app_iff, in_primes_in. split.
    + intros [Hx|[[Hx%HS Hab]%filter_In|(Hx & Hx5 & Hxo & Hun)%Hrest]].
      * destruct (Z.leb_spec a 2) as [Ha|Ha]; [|destruct Hx].
        destruct Hx as [<-|[]]. split; [lia | apply is_prime_spec; reflexivity].
      * apply andb_true_iff in Hab. destruct Hab as [Ha%Z.leb_le Hxb%Z.ltb_lt].
        split; [lia | tauto].
      * unfold m in Hx. split; [lia|].
        destruct (prime_or_not x) as [|Hnp]; [assumption|]. exfalso.
        destruct (small_prime_factor x ltac:(lia) Hnp) as (q & Hq & Hdiv & Hsq).
        pose proof (Z.prime_ge_2 q Hq) as Hq2.
        pose proof (square_le_lt q s x ltac:(lia) Hs0 Hsq ltac:(lia)) as Hqs.
        rewrite unsieved_spec in Hun by exact Hpos'.
        apply (Hun q); [|exact Hdiv]. apply HS. split; [|exact Hq].
        destruct (Z.eq_dec q 2) as [->|]; [|lia]. exfalso.
        apply Z.mod_divide in Hdiv; lia.
    + intros [Hab Hp]. pose proof (Z.prime_ge_2 x Hp) as Hx2.
      destruct (Z.eq_dec x 2) as [->|Hne2].
      { left. destruct (Z.leb_spec a 2); [left; reflexivity | lia]. }
      right. destruct (Z_le_gt_dec x (Z.max s 3)) as [Hle|Hgt].
      * left. apply filter_In. split; [apply HS; split; [lia | exact Hp]|].
        apply andb_true_iff. split; [apply Z.leb_le; lia | apply Z.ltb_lt; nia].
      * right. pose proof (Hodd_prime x Hp ltac:(lia)) as Hxo.
        apply filter_In. split; [apply in_range; unfold m in *; mod_lia|].
        apply andb_true_iff. split; [rewrite Zodd_mod; apply Z.eqb_eq; exact Hxo|].
        apply unsieved_spec; [exact Hpos'|]. intros p [Hp2 Hpp]%HS Hdiv.
        apply (Z.divide_prime_prime p x Hpp Hp) in Hdiv. lia.
Qed.

(** * The brute-force count: [factorizations], [is_squarefree] *)

(** ** Dictionaries *)

Lemma dict_item_Some {V : Type} (d : gmap Z V) (k : Z) (v : V) :
  d !! k = Some v -> dict_item d k = Ok v.
Proof. intros H. unfold dict_item. rewrite H. reflexivity. Qed.

Lemma dict_from_keys_lookup {V : Type} (ks : list Z) (v : V) (k : Z) :
  (In k ks -> dict_from_keys ks v !! k = Some v) /\
  (~ In k ks -> dict_from_keys ks v !! k = None).
Proof.
  unfold dict_from_keys.
  assert (H : forall d : gmap Z V,
             (In k ks -> fold_left (fun d k => <[ k := v ]> d) ks d !! k = Some v) /\
             (~ In k ks -> fold_left (fun d k => <[ k := v ]> d) ks d !! k = d !! k)).
  { induction ks as [|a ks IH]; intros d.
    - simpl. split; [intros [] | reflexivity].
    - simpl. destruct (IH (<[ a := v ]> d)) as [IH1 IH2]. split.
      + intros [->|Hin].
        * destruct (in_dec Z.eq_dec k ks) as [Hk|Hk]; [apply IH1; exact Hk|].
          rewrite IH2 by exact Hk. apply lookup_insert_eq.
        * apply IH1. exact Hin.
      + intros Hnin. rewrite IH2 by tauto. apply lookup_insert_ne. tauto. }
  destruct (H ∅) as [H1 H2]. split; [exact H1|].
  intros Hnin. rewrite H2 by exact Hnin. apply lookup_empty.
Qed.

Lemma in_dict_values {V : Type} (d : gmap Z V) (v : V) :
  In v (dict_values d) <-> exists k, d !! k = Some v.
Proof.
  unfold dict_values. rewrite in_map_iff. split.
  - intros ([k v'] & <- & Hin). exists k. apply elem_of_map_to_list.
    apply list_elem_of_In. exact Hin.
  - intros [k Hk]. exists (k, v). split; [reflexivity|].
    apply list_elem_of_In. apply elem_of_map_to_list. exact Hk.
Qed.

Lemma sum_list_Permutation (l1 l2 : list Z) :
  Permutation l1 l2 -> sum_list l1 = sum_list l2.
Proof. induction 1; simpl; lia. Qed.

(** The sum over the values of a dictionary whose keys are [a, ..., b - 1]. *)
Lemma dict_values_sum {V : Type} (g : V -> Z) (h : Z -> Z) (a : Z) (count : nat)
    (d : gmap Z V) :
  (forall k, is_Some (d !! k) <-> a <= k < a + Z.of_nat count) ->
  (forall k v, d !! k = Some v -> g v = h k) ->
  sum_list (map g (dict_values d)) = zsum h a (a + Z.of_nat count).
Proof.
  revert d. induction count as [|count IH]; intros d Hdom Hval.
  - assert (d = ∅) as ->.
    { apply map_empty. intros k. apply eq_None_not_Some. rewrite Hdom. lia. }
    unfold dict_values. rewrite map_to_list_empty. simpl.
    rewrite zsum_nil by lia. reflexivity.
  - set (top := a + Z.of_nat count) in *.
    destruct (proj2 (Hdom top) ltac:(unfold top; lia)) as [v Hv].
    replace (a + Z.of_nat (S count)) with (top + 1) by (unfold top; lia).
    rewrite zsum_snoc by (unfold top; lia).
    rewrite <- (IH (delete top d)).
    + unfold dict_values.
      rewrite <- (sum_list_Permutation _ _
                    (Permutation_map g (Permutation_map snd (map_to_list_delete d top v Hv)))).
      simpl. rewrite (Hval top v Hv). lia.
    + intros k. rewrite lookup_delete_is_Some, Hdom. unfold top. lia.
    + intros k w [_ Hk]%lookup_delete_Some. apply (Hval k w Hk).
Qed.

(** ** The product of a factorization *)

Lemma product_empty : factorization_product ∅ = 1.
Proof. unfold factorization_product. apply map_fold_empty. Qed.

Lemma product_insert (f : gmap Z Z) (p e : Z) :
  f !! p = None -> factorization_product (<[ p := e ]> f) = factorization_product f * p ^ e.
Proof.
  intros H. unfold factorization_product. rewrite map_fold_insert_L; [reflexivity | | exact H].
  intros. ring.
Qed.

Lemma product_update (f : gmap Z Z) (p e e' : Z) :
  f !! p = Some e ->
  factorization_product f = factorization_product (delete p f) * p ^ e /\
  factorization_product (<[ p := e' ]> f) = factorization_product (delete p f) * p ^ e'.
Proof.
  intros H. split.
  - rewrite <- (insert_delete_id f p e H) at 1.
    apply product_insert. apply lookup_delete_eq.
  - rewrite <- insert_delete_eq. apply product_insert. apply lookup_delete_eq.
Qed.

Lemma prime_divides_power (q p e : Z) : Z.prime q -> 0 <= e -> (q | p ^ e) -> (q | p).
Proof.
  intros Hq He. pattern e. apply natlike_ind; [| |exact He].
  - rewrite Z.pow_0_r. intros H. exfalso.
    apply Z.divide_1_r in H. pose proof (Z.prime_ge_2 q Hq). lia.
  - intros x Hx IH. rewrite Z.pow_succ_r by exact Hx. intros H.
    apply (Z.divide_prime_mul p (p ^ x) q Hq) in H. tauto.
Qed.

(** A prime that divides the product divides one of the keys. *)
Lemma prime_divides_product (q : Z) (f : gmap Z Z) :
  Z.prime q -> (forall p e, f !! p = Some e -> 0 <= e) ->
  (q | factorization_product f) -> exists p e, f !! p = Some e /\ (q | p).
Proof.
  intros Hq. induction f as [|p e f Hnone IH] using map_ind; intros Hexp Hdiv.
  - rewrite product_empty in Hdiv. exfalso.
    apply Z.divide_1_r in Hdiv. pose proof (Z.prime_ge_2 q Hq). lia.
  - rewrite product_insert in Hdiv by exact Hnone.
    apply (Z.divide_prime_mul _ _ q Hq) in Hdiv. destruct Hdiv as [Hdiv|Hdiv].
    + destruct IH as (p' & e' & Hp' & Hq').
      * intros p' e' Hp'. apply (Hexp p' e'). rewrite lookup_insert_ne; [exact Hp'|].
        intros ->. congruence.
      * exact Hdiv.
      * exists p', e'. split; [|exact Hq']. rewrite lookup_insert_ne; [exact Hp'|].
        intros ->. congruence.
    + exists p, e. split; [apply lookup_insert_eq|].
      apply (prime_divides_power q p e Hq); [|exact Hdiv].
      apply (Hexp p e). apply lookup_insert_eq.
Qed.

(** ** [is_squarefree] *)

Lemma is_squarefree_spec (f : gmap Z Z) :
  is_squarefree f = true <-> forall p e, f !! p = Some e -> e = 1.
Proof.
  unfold is_squarefree. rewrite forallb_forall. split.
  - intros H p e Hp. apply Z.eqb_eq. apply H. apply in_dict_values. eauto.
  - intros H e [p Hp]%in_dict_values. apply Z.eqb_eq. eauto.
Qed.

(** ** The entries of [factorizations] *)

Lemma getitem_in_Z (l : list Z) (i : Z) :
  0 <= i < len l -> getitem 0 l i = Ok (nth (Z.to_nat i) l 0).
Proof. intros H. unfold getitem. rewrite norm_index_in by lia. reflexivity. Qed.

Lemma entry_exponents (D k r : Z) (f : gmap Z Z) :
  entry_ok D k r f -> forall p e, f !! p = Some e -> 0 <= e.
Proof. intros (_ & _ & _ & _ & He) p e Hp. destruct (He p e Hp). lia. Qed.

(** No key of [f] is divisible by a prime from [D] on, so neither is the
    product. *)
Lemma entry_product_coprime (D k r q : Z) (f : gmap Z Z) :
  entry_ok D k r f -> Z.prime q -> D <= q -> ~ (q | factorization_product f).
Proof.
  intros Hok Hq Hle Hdiv.
  destruct (prime_divides_product q f Hq (entry_exponents D k r f Hok) Hdiv)
    as (p & e & Hp & Hqp).
  destruct Hok as (_ & _ & _ & Hkeys & _).
  destruct (proj1 (Hkeys p) (ex_intro _ e Hp)) as (Hpp & Hlt & _).
  apply (Z.divide_prime_prime q p Hq Hpp) in Hqp. lia.
Qed.

Lemma entry_ok_next (D k r : Z) (f : gmap Z Z) :
  ~ (Z.prime D /\ (D | k)) -> entry_ok D k r f -> entry_ok (D + 1) k r f.
Proof.
  intros Hno (Hr & Hprod & Hrough & Hkeys & Hexp).
  split; [exact Hr|]. split; [exact Hprod|]. split; [|split; [|exact Hexp]].
  - intros q Hq Hdiv. pose proof (Hrough q Hq Hdiv) as Hle.
    destruct (Z.eq_dec q D) as [->|]; [|lia]. exfalso. apply Hno.
    split; [exact Hq|]. rewrite <- Hprod. apply Z.divide_mul_l. exact Hdiv.
  - intros p. rewrite Hkeys. split; intros (Hp & Hlt & Hdiv).
    + split; [exact Hp|]. split; [lia | exact Hdiv].
    + split; [exact Hp|]. split; [|exact Hdiv].
      destruct (Z.eq_dec p D) as [->|]; [|lia]. exfalso. apply Hno. tauto.
Qed.

(** The test [block[d] == 1] of a round is the test that [d] is composite. *)
Lemma entry_prime (D r : Z) (f : gmap Z Z) :
  2 <= D -> entry_ok D D r f -> (r = 1 <-> ~ Z.prime D).
Proof.
  intros HD Hok. pose proof Hok as (Hr & Hprod & Hrough & Hkeys & Hexp). split.
  - intros -> Hp. apply (entry_product_coprime D D 1 D f Hok Hp); [lia|].
    rewrite Z.mul_1_l in Hprod. rewrite Hprod. apply Z.divide_refl.
  - intros Hnp. destruct (Z.eq_dec r 1) as [|Hne]; [assumption|]. exfalso.
    destruct (prime_factor r ltac:(lia)) as (q & Hq & Hdiv).
    pose proof (Hrough q Hq Hdiv) as Hle.
    assert (HqD : (q | D)) by (rewrite <- Hprod; apply Z.divide_mul_l; exact Hdiv).
    apply Z.divide_pos_le in HqD; [|lia].
    apply Hnp. replace D with q by lia. exact Hq.
Qed.

(** The entry of a multiple [k] of the prime [p] after its [while] loop. *)
Lemma entry_ok_divided (p k r r' j : Z) (f : gmap Z Z) :
  Z.prime p -> (p | k) -> 1 <= k -> entry_ok p k r f ->
  0 <= j -> 1 <= r' -> r = r' * p ^ j -> ~ (p | r') ->
  entry_ok (p + 1) k r' (<[ p := j ]> f).
Proof.
  intros Hp Hpk Hk Hok Hj Hr' Hr Hnd.
  pose proof Hok as (Hr1 & Hprod & Hrough & Hkeys & Hexp).
  pose proof (Z.prime_ge_2 p Hp) as Hp2.
  assert (Hpj : 0 < p ^ j) by (apply Z.pow_pos_nonneg; lia).
  assert (Hnone : f !! p = None).
  { apply eq_None_not_Some. rewrite Hkeys. lia. }
  assert (HnP : ~ (p | factorization_product f))
    by (apply (entry_product_coprime p k r p f Hok Hp); lia).
  assert (Hcof : ~ (p | r' * factorization_product f)).
  { intros H. apply (Z.divide_prime_mul _ _ p Hp) in H. tauto. }
  assert (Hj1 : 1 <= j).
  { destruct (Z.eq_dec j 0) as [->|]; [|lia]. exfalso.
    rewrite Z.pow_0_r, Z.mul_1_r in Hr. subst r'.
    rewrite <- Hprod in Hpk. contradiction. }
  assert (Hk' : k = r' * factorization_product f * p ^ j) by (rewrite <- Hprod, Hr; ring).
  split; [exact Hr'|]. split; [|split; [|split]].
  - rewrite product_insert by exact Hnone. rewrite Hk'. ring.
  - intros q Hq Hdiv.
    assert (Hqr : (q | r)) by (rewrite Hr; apply Z.divide_mul_l; exact Hdiv).
    pose proof (Hrough q Hq Hqr).
    destruct (Z.eq_dec q p) as [->|]; [contradiction | lia].
  - intros q. rewrite lookup_insert_is_Some', Hkeys. split.
    + intros [<-|(Hq & Hlt & Hdiv)]; [split; [exact Hp|]; split; [lia | exact Hpk]|].
      split; [exact Hq|]. split; [lia | exact Hdiv].
    + intros (Hq & Hlt & Hdiv). destruct (Z.eq_dec p q) as [|Hne]; [left; assumption|].
      right. split; [exact Hq|]. split; [lia | exact Hdiv].
  - intros q e. rewrite lookup_insert_Some. intros [[<- <-]|[Hne Hq]]; [|apply Hexp; exact Hq].
    split; [exact Hj1|]. split.
    + exists (r' * factorization_product f). exact Hk'.
    + intros [c Hc]. apply Hcof. exists c.
      rewrite Z.pow_add_r, Z.pow_1_r in Hc by lia.
      apply (Z.mul_cancel_r _ _ (p ^ j)); [lia|]. rewrite <- Hk', Hc. ring.
Qed.

(** ** The [while] loop *)

Lemma divide_out_spec (fuel : nat) (p k : Z) (st : factor_state) (r e0 : Z)
    (f : gmap Z Z) :
  2 <= p -> 0 <= k < len (fs_block st) ->
  nth (Z.to_nat k) (fs_block st) 0 = r -> 1 <= r -> (Z.to_nat r < fuel)%nat ->
  fs_factors st !! k = Some f -> f !! p = Some e0 ->
  exists j r' st',
    divide_out fuel p k st = Ok st' /\
    0 <= j /\ 1 <= r' /\ r = r' * p ^ j /\ ~ (p | r') /\
    len (fs_block st') = len (fs_block st) /\
    nth (Z.to_nat k) (fs_block st') 0 = r' /\
    (forall i, 0 <= i < len (fs_block st) -> i <> k ->
       nth (Z.to_nat i) (fs_block st') 0 = nth (Z.to_nat i) (fs_block st) 0) /\
    fs_factors st' !! k = Some (<[ p := e0 + j ]> f) /\
    (forall i, i <> k -> fs_factors st' !! i = fs_factors st !! i).
Proof.
  intros Hp. revert st r e0 f.
  induction fuel as [|fuel IH]; intros st r e0 f Hk Hnth Hr Hfuel Hf He0; [lia|].
  simpl divide_out. rewrite getitem_in_Z by exact Hk. simpl rbind. rewrite Hnth.
  unfold pymod. destruct (Z.eqb_spec p 0); [lia|]. simpl rbind.
  destruct (Z.eqb_spec (r mod p) 0) as [Hdiv|Hndiv].
  - rewrite floordiv_ok by lia. simpl rbind.
    rewrite setitem_in by exact Hk. simpl rbind.
    rewrite (dict_item_Some _ _ _ Hf). simpl rbind.
    rewrite (dict_item_Some _ _ _ He0). simpl rbind.
    assert (Hrq : r = p * (r / p)) by (apply Z_div_exact_full_2; lia).
    assert (Hq1 : 1 <= r / p < r) by nia.
    set (block1 := update_from (Z.eqb k) (fun _ => r / p) 0 (fs_block st)).
    set (factors1 := <[ k := <[ p := e0 + 1 ]> f ]> (fs_factors st)).
    assert (Hlen1 : len block1 = len (fs_block st)) by apply len_update_from.
    destruct (IH (FactorState block1 factors1) (r / p) (e0 + 1) (<[ p := e0 + 1 ]> f))
      as (j & r' & st' & Hrun & Hj & Hr' & Hdec & Hnd & Hlen & Hk' & Hother & Hfk & Hfother).
    + simpl. lia.
    + simpl. unfold block1. rewrite nth_update_from_Z by exact Hk.
      rewrite Z.eqb_refl. reflexivity.
    + lia.
    + lia.
    + simpl. unfold factors1. apply lookup_insert_eq.
    + apply lookup_insert_eq.
    + exists (j + 1), r', st'. simpl in *.
      split; [exact Hrun|]. split; [lia|]. split; [exact Hr'|].
      split; [rewrite Hrq at 1; rewrite Hdec, Z.pow_add_r, Z.pow_1_r by lia; ring|].
      split; [exact Hnd|]. split; [lia|]. split; [exact Hk'|].
      split; [|split].
      * intros i Hi Hne. rewrite Hother by lia. unfold block1.
        rewrite nth_update_from_Z by exact Hi.
        destruct (Z.eqb_spec k i); [lia | reflexivity].
      * rewrite Hfk. rewrite insert_insert_eq. do 2 f_equal. lia.
      * intros i Hne. rewrite Hfother by exact Hne. unfold factors1.
        apply lookup_insert_ne. lia.
  - exists 0, r, st. split; [reflexivity|]. split; [lia|]. split; [exact Hr|].
    split; [rewrite Z.pow_0_r; lia|].
    split; [intros H; apply Hndiv; apply Z.mod_divide; [lia | exact H]|].
    split; [reflexivity|]. split; [exact Hnth|]. split; [reflexivity|].
    split; [|reflexivity].
    rewrite Z.add_0_r. rewrite insert_id by exact He0. exact Hf.
Qed.

(** ** The loops of [factorizations] *)

Lemma factor_inv_ext (n D : Z) (done done' : Z -> bool) (st : factor_state) :
  (forall k, 2 <= k < n -> done k = done' k) ->
  factor_inv n D done st -> factor_inv n D done' st.
Proof.
  intros Hext (Hlen & H1 & Hnone & Hent).
  split; [exact Hlen|]. split; [exact H1|]. split; [exact Hnone|].
  intros k Hk. rewrite <- (Hext k Hk). apply Hent. exact Hk.
Qed.

Lemma factor_multiple_spec (n d x : Z) (done : Z -> bool) (st : factor_state) :
  Z.prime d -> 2 <= x < n -> (d | x) -> done x = false ->
  factor_inv n d done st ->
  exists st', factor_multiple d x st = Ok st' /\
              factor_inv n d (fun k => done k || (k =? x)) st'.
Proof.
  intros Hd Hx Hdx Hdone (Hlen & H1 & Hnone & Hent).
  pose proof (Z.prime_ge_2 d Hd) as Hd2.
  destruct (Hent x Hx) as (f & Hf & Hok). rewrite Hdone in Hok.
  pose proof Hok as (Hr & Hprod & _ & Hkeys & _).
  set (r := nth (Z.to_nat x) (fs_block st) 0) in *.
  assert (Hrx : r <= x).
  { apply Z.divide_pos_le; [lia|]. rewrite <- Hprod. apply Z.divide_mul_l, Z.divide_refl. }
  unfold factor_multiple. rewrite (dict_item_Some _ _ _ Hf). simpl rbind.
  destruct (divide_out_spec (fuel_from x) d x
              (FactorState (fs_block st) (<[ x := <[ d := 0 ]> f ]> (fs_factors st)))
              r 0 (<[ d := 0 ]> f))
    as (j & r' & st' & Hrun & Hj & Hr' & Hdec & Hnd & Hlen' & Hx' & Hother & Hfx & Hfother).
  - lia.
  - simpl. lia.
  - reflexivity.
  - exact Hr.
  - unfold fuel_from. lia.
  - simpl. apply lookup_insert_eq.
  - apply lookup_insert_eq.
  - simpl in *. exists st'. split; [exact Hrun|].
    rewrite insert_insert_eq, Z.add_0_l in Hfx.
    split; [lia|]. split; [|split].
    + rewrite Hfother by lia. rewrite lookup_insert_ne by lia. exact H1.
    + intros k Hk. rewrite Hfother by lia. rewrite lookup_insert_ne by lia.
      apply Hnone. exact Hk.
    + intros k Hk. destruct (Z.eqb_spec k x) as [->|Hne].
      * rewrite orb_true_r. exists (<[ d := j ]> f). split; [exact Hfx|].
        rewrite Hx'. apply (entry_ok_divided d x r r' j f); auto; lia.
      * rewrite orb_false_r. rewrite Hfother by exact Hne.
        rewrite lookup_insert_ne by lia. rewrite Hother by lia. apply Hent. exact Hk.
Qed.

Lemma multiple_done (d k c : Z) :
  0 < d -> 0 <= c ->
  (k mod d =? 0) && (k <? d + d * (c + 1)) =
  ((k mod d =? 0) && (k <? d + d * c)) || (k =? d + d * c).
Proof.
  intros Hd Hc.
  destruct (Z.eqb_spec (k mod d) 0) as [Hm|Hm]; simpl.
  - apply Z.mod_divide in Hm; [|lia]. destruct Hm as [u ->].
    replace (d + d * (c + 1)) with ((c + 2) * d) by lia.
    replace (d + d * c) with ((c + 1) * d) by lia.
    assert (H1 : (u * d <? (c + 2) * d) = (u <? c + 2)).
    { destruct (Z.ltb_spec u (c + 2)); destruct (Z.ltb_spec (u * d) ((c + 2) * d));
        try reflexivity; exfalso; nia. }
    assert (H2 : (u * d <? (c + 1) * d) = (u <? c + 1)).
    { destruct (Z.ltb_spec u (c + 1)); destruct (Z.ltb_spec (u * d) ((c + 1) * d));
        try reflexivity; exfalso; nia. }
    assert (H3 : (u * d =? (c + 1) * d) = (u =? c + 1)).
    { destruct (Z.eqb_spec u (c + 1)); destruct (Z.eqb_spec (u * d) ((c + 1) * d));
        try reflexivity; exfalso; nia. }
    rewrite H1, H2, H3.
    destruct (Z.ltb_spec u (c + 2)); destruct (Z.ltb_spec u (c + 1));
      destruct (Z.eqb_spec u (c + 1)); simpl; try reflexivity; lia.
  - destruct (Z.eqb_spec k (d + d * c)) as [->|]; [|reflexivity]. exfalso. apply Hm.
    replace (d + d * c) with ((1 + c) * d) by lia. apply Z_mod_mult.
Qed.

(** A round on a prime [d]. *)
Lemma factor_multiples_spec (n d : Z) (st : factor_state) :
  Z.prime d -> factor_inv n d (fun _ => false) st ->
  exists st', for_each (range_step d n d) (factor_multiple d) st = Ok st' /\
              factor_inv n (d + 1) (fun _ => false) st'.
Proof.
  intros Hd H0. pose proof (Z.prime_ge_2 d Hd) as Hd2.
  destruct (for_each_invariant
              (fun pre s => factor_inv n d
                 (fun k => (k mod d =? 0) && (k <? d + d * len pre)) s)
              (range_step d n d) (factor_multiple d) st) as (st' & Hrun & Hinv).
  - apply (factor_inv_ext n d (fun _ => false)); [|exact H0].
    intros k Hk. change (len (@nil Z)) with 0.
    destruct (Z.eqb_spec (k mod d) 0) as [Hm|]; [|reflexivity]. simpl.
    apply Z.mod_divide in Hm; [|lia]. apply Z.divide_pos_le in Hm; [|lia].
    destruct (Z.ltb_spec k (d + d * 0)); [lia | reflexivity].
  - intros pre x post s Heq Hs. apply range_step_split_inv in Heq; [|lia].
    destruct Heq as [Hx Hxn]. pose proof (len_nonneg pre) as Hpre.
    assert (Hx2 : 2 <= x < n) by nia.
    assert (Hdx : (d | x)) by (exists (1 + len pre); lia).
    destruct (factor_multiple_spec n d x
                (fun k => (k mod d =? 0) && (k <? d + d * len pre)) s Hd Hx2 Hdx)
      as (s' & Hrun & Hs').
    + cbv beta. destruct (Z.ltb_spec x (d + d * len pre)); [lia | apply andb_false_r].
    + exact Hs.
    + exists s'. split; [exact Hrun|].
      refine (factor_inv_ext n d _ _ s' _ Hs').
      intros k Hk. cbv beta.
      replace (len (pre ++ [x])) with (len pre + 1)
        by (rewrite len_app; unfold len at 3; simpl; lia).
      rewrite multiple_done by lia. rewrite Hx. reflexivity.
  - exists st'. split; [exact Hrun|].
    destruct Hinv as (Hlen & H1 & Hnone & Hent).
    split; [exact Hlen|]. split; [exact H1|]. split; [exact Hnone|].
    intros k Hk. destruct (Hent k Hk) as (f & Hf & Hok). exists f. split; [exact Hf|].
    assert (Hall : k < d + d * len (range_step d n d)).
    { destruct (Z_lt_le_dec d n) as [Hlt|Hge].
      - pose proof (len_range_step d n d ltac:(lia) Hlt). lia.
      - pose proof (len_nonneg (range_step d n d)). nia. }
    destruct (Z.ltb_spec k (d + d * len (range_step d n d))); [|lia].
    rewrite andb_true_r in Hok.
    destruct (Z.eqb_spec (k mod d) 0) as [Hm|Hm]; [exact Hok|].
    apply entry_ok_next; [|exact Hok]. intros [_ Hdiv]. apply Hm.
    apply Z.mod_divide; [lia | exact Hdiv].
Qed.

Lemma factor_round_spec (n d : Z) (st : factor_state) :
  2 <= d < n -> factor_inv n d (fun _ => false) st ->
  exists st', factor_round n d st = Ok st' /\ factor_inv n (d + 1) (fun _ => false) st'.
Proof.
  intros Hd Hinv. pose proof Hinv as (Hlen & H1 & Hnone & Hent).
  unfold factor_round. rewrite getitem_in_Z by lia. simpl rbind.
  destruct (Hent d Hd) as (f & Hf & Hok). simpl in Hok.
  pose proof (entry_prime d _ f ltac:(lia) Hok) as Hprime.
  destruct (Z.eqb_spec (nth (Z.to_nat d) (fs_block st) 0) 1) as [Hone|Hne].
  - exists st. split; [reflexivity|].
    split; [exact Hlen|]. split; [exact H1|]. split; [exact Hnone|].
    intros k Hk. destruct (Hent k Hk) as (fk & Hfk & Hokk). exists fk.
    split; [exact Hfk|]. apply entry_ok_next; [|exact Hokk]. tauto.
  - apply factor_multiples_spec; [|exact Hinv].
    destruct (prime_or_not d) as [|Hnp]; [assumption|]. tauto.
Qed.

(** ** What [factorizations] returns *)

Lemma entry_final (n k r : Z) (f : gmap Z Z) :
  2 <= k < n -> entry_ok n k r f -> factorization_of k f.
Proof.
  intros Hk (Hr & Hprod & Hrough & Hkeys & Hexp).
  assert (Hr1 : r = 1).
  { destruct (Z.eq_dec r 1) as [|Hne]; [assumption|]. exfalso.
    destruct (prime_factor r ltac:(lia)) as (q & Hq & Hdiv).
    pose proof (Hrough q Hq Hdiv) as Hle.
    assert (Hqk : (q | k)) by (rewrite <- Hprod; apply Z.divide_mul_l; exact Hdiv).
    apply Z.divide_pos_le in Hqk; lia. }
  split; [|split; [exact Hexp | lia]].
  intros p. rewrite Hkeys. split; [tauto|]. intros [Hp Hdiv].
  split; [exact Hp|]. split; [|exact Hdiv]. apply Z.divide_pos_le in Hdiv; lia.
Qed.

Theorem factorizations_spec (n : Z) :
  exists fs, factorizations n = Ok fs /\
    fs !! 1 = Some {[ 1 := 1 ]} /\
    (forall k, is_Some (fs !! k) <-> 1 <= k < n \/ k = 1) /\
    (forall k, 2 <= k < n -> exists f, fs !! k = Some f /\ factorization_of k f).
Proof.
  unfold factorizations. cbv zeta.
  set (factors0 := <[ 1 := {[ 1 := 1 ]} ]> (dict_from_keys (range 1 n) (∅ : gmap Z Z))).
  assert (Hnone0 : forall k, k < 1 \/ (n <= k /\ k <> 1) -> factors0 !! k = None).
  { intros k Hk. unfold factors0. rewrite lookup_insert_ne by lia.
    apply dict_from_keys_lookup. rewrite in_range. lia. }
  destruct (Z_lt_le_dec n 2) as [Hsmall|Hn].
  - rewrite (range_nil 2 n) by lia. simpl. eexists. split; [reflexivity|].
    split; [apply lookup_insert_eq|]. split; [|intros k Hk; lia].
    intros k. destruct (Z.eq_dec k 1) as [->|Hne].
    + split; [intros _; right; reflexivity|]. intros _. eexists. apply lookup_insert_eq.
    + rewrite Hnone0 by lia. split; [intros [v Hv]; discriminate | lia].
  - destruct (for_each_invariant
                (fun pre s => factor_inv n (2 + len pre) (fun _ => false) s)
                (range 2 n) (factor_round n) (FactorState (range 0 n) factors0))
      as (st & Hrun & Hinv).
    + change (len (@nil Z)) with 0. split; [|split; [|split]]; simpl.
      * rewrite len_range; lia.
      * apply lookup_insert_eq.
      * exact Hnone0.
      * intros k Hk. exists ∅. split.
        -- unfold factors0. rewrite lookup_insert_ne by lia.
           apply dict_from_keys_lookup. apply in_range. lia.
        -- rewrite nth_range by lia. rewrite Z2Nat.id by lia.
           split; [lia|]. split; [rewrite product_empty; lia|].
           split; [intros q Hq _; pose proof (Z.prime_ge_2 q Hq); lia|].
           split.
           ++ intros p. rewrite lookup_empty. split; [intros [v Hv]; discriminate|].
              intros (Hp & Hlt & _). pose proof (Z.prime_ge_2 p Hp). lia.
           ++ intros p e. rewrite lookup_empty. discriminate.
    + intros pre x post s Heq Hs. apply range_split_inv in Heq.
      pose proof (len_nonneg pre).
      replace (len (pre ++ [x])) with (len pre + 1)
        by (rewrite len_app; unfold len at 3; simpl; lia).
      replace (2 + (len pre + 1)) with (x + 1) by lia.
      apply factor_round_spec; [lia|].
      replace x with (2 + len pre) by lia. exact Hs.
    + rewrite Hrun. simpl rbind. eexists. split; [reflexivity|].
      rewrite len_range in Hinv by lia. replace (2 + (n - 2)) with n in Hinv by lia.
      destruct Hinv as (Hlen & H1 & Hnone & Hent).
      split; [exact H1|]. split.
      * intros k. destruct (Z.eq_dec k 1) as [->|Hne].
        -- rewrite H1. split; [intros _; right; reflexivity | intros _; eauto].
        -- destruct (Z_lt_le_dec k 1) as [Hlt|Hge].
           ++ rewrite Hnone by lia. split; [intros [v Hv]; discriminate | lia].
           ++ destruct (Z_lt_le_dec k n) as [Hk|Hk].
              ** destruct (Hent k ltac:(lia)) as (f & Hf & _). rewrite Hf.
                 split; [intros _; left; lia | intros _; eauto].
              ** rewrite Hnone by lia. split; [intros [v Hv]; discriminate | lia].
      * intros k Hk. destruct (Hent k Hk) as (f & Hf & Hok). exists f.
        split; [exact Hf|]. apply (entry_final n k _ f Hk Hok).
Qed.

(** ** The count *)

Lemma factorization_squarefree (k : Z) (f : gmap Z Z) :
  1 <= k -> factorization_of k f -> is_squarefree f = squarefreeb k.
Proof.
  intros Hk (Hkeys & Hexp & _). apply eqb_iff.
  rewrite is_squarefree_spec, squarefreeb_spec. split.
  - intros Hone. split; [lia|]. intros d Hd Hdiv.
    destruct (prime_square_factor d k Hd Hdiv) as (q & Hq & Hqq).
    assert (Hqk : (q | k)) by (eapply Z.divide_trans; [|exact Hqq]; exists q; reflexivity).
    destruct (proj2 (Hkeys q) (conj Hq Hqk)) as [e He].
    pose proof (Hone q e He) as ->. destruct (Hexp q 1 He) as (_ & _ & Hno).
    apply Hno. change (1 + 1) with 2. rewrite Z.pow_2_r. exact Hqq.
  - intros [_ Hsf] p e Hp. destruct (Hexp p e Hp) as (He & Hdiv & _).
    destruct (Z.eq_dec e 1) as [|Hne]; [assumption|]. exfalso.
    destruct (proj1 (Hkeys p) (ex_intro _ e Hp)) as [Hpp _].
    pose proof (Z.prime_ge_2 p Hpp). apply (Hsf p); [lia|].
    eapply Z.divide_trans; [|exact Hdiv]. exists (p ^ (e - 2)).
    rewrite <- Z.pow_2_r, <- Z.pow_add_r by lia. f_equal. lia.
Qed.

Lemma unit_squarefree : is_squarefree {[ 1 := 1 ]} = true.
Proof.
  apply is_squarefree_spec. intros p e [_ <-]%lookup_singleton_Some. reflexivity.
Qed.

Theorem Q_factorizations_spec (n : Z) :
  Q_factorizations n = Ok (if 1 <=? n then squarefree_count n else 1).
Proof.
  unfold Q_factorizations.
  destruct (factorizations_spec (n + 1)) as (fs & Hrun & H1 & Hdom & Hent).
  rewrite Hrun. simpl rbind. f_equal.
  assert (Hval : forall k f, fs !! k = Some f ->
                   Z.b2z (is_squarefree f) = ind (squarefreeb k)).
  { intros k f Hf. assert (Hk : 1 <= k < n + 1 \/ k = 1) by (apply Hdom; eauto).
    destruct (Z.eq_dec k 1) as [->|Hne].
    - rewrite H1 in Hf. inversion Hf. rewrite unit_squarefree. reflexivity.
    - destruct (Hent k ltac:(lia)) as (f' & Hf' & Hfac).
      rewrite Hf in Hf'. inversion Hf'; subst f'.
      rewrite (factorization_squarefree k f) by (try assumption; lia).
      destruct (squarefreeb k); reflexivity. }
  destruct (Z.leb_spec 1 n) as [Hn|Hn].
  - rewrite (dict_values_sum _ (fun k => ind (squarefreeb k)) 1 (Z.to_nat n) fs).
    + rewrite squarefree_count_sum. f_equal. lia.
    + intros k. rewrite Hdom. lia.
    + exact Hval.
  - rewrite (dict_values_sum _ (fun k => ind (squarefreeb k)) 1 1 fs).
    + reflexivity.
    + intros k. rewrite Hdom. lia.
    + exact Hval.
Qed.

(** * The table of divisors: [divisors] *)

Lemma div_inv_ext (n D : Z) (done done' : Z -> bool) (divs : gmap Z (list Z)) :
  (forall k, 1 <= k < n -> done k = done' k) ->
  div_inv n D done divs -> div_inv n D done' divs.
Proof.
  intros Hext H k. rewrite (H k).
  destruct (Z.leb_spec 1 k); destruct (Z.ltb_spec k n); simpl; try reflexivity.
  rewrite Hext by lia. reflexivity.
Qed.

Lemma divisors_below_snoc (k D : Z) :
  1 <= D ->
  divisors_below k (D + 1) = divisors_below k D ++ (if k mod D =? 0 then [D] else []).
Proof.
  intros HD. unfold divisors_below. rewrite range_snoc by lia.
  rewrite List.filter_app. reflexivity.
Qed.

Lemma filter_none {A : Type} (f : A -> bool) (l : list A) :
  (forall x, In x l -> f x = false) -> List.filter f l = [].
Proof.
  intros H. induction l as [|x l IH]; [reflexivity|].
  simpl. rewrite (H x) by (left; reflexivity).
  apply IH. intros y Hy. apply H. right. exact Hy.
Qed.

Lemma divisors_below_stable (k D : Z) :
  1 <= k < D -> divisors_below k D = divisors_below k (k + 1).
Proof.
  intros Hk. unfold divisors_below. rewrite (range_app 1 (k + 1) D) by lia.
  rewrite List.filter_app.
  assert (Hnone : List.filter (fun d => k mod d =? 0) (range (k + 1) D) = []).
  { apply filter_none. intros d Hd%in_range. apply Z.eqb_neq.
    rewrite Z.mod_small by lia. lia. }
  rewrite Hnone. apply app_nil_r.
Qed.

Lemma divisors_round (n d : Z) (divs : gmap Z (list Z)) :
  2 <= d -> div_inv n d (fun _ => false) divs ->
  exists divs',
    for_each (range_step d n d) (fun multiple divs =>
      do l <~ dict_item divs multiple ;
      Ok (<[ multiple := l ++ [d] ]> divs)) divs = Ok divs' /\
    div_inv n (d + 1) (fun _ => false) divs'.
Proof.
  intros Hd H0.
  destruct (for_each_invariant
              (fun pre s => div_inv n d
                 (fun k => (k mod d =? 0) && (k <? d + d * len pre)) s)
              (range_step d n d)
              (fun multiple divs =>
                 do l <~ dict_item divs multiple ;
                 Ok (<[ multiple := l ++ [d] ]> divs)) divs) as (divs' & Hrun & Hinv).
  - refine (div_inv_ext n d (fun _ => false) _ divs _ H0).
    intros k Hk. change (len (@nil Z)) with 0.
    destruct (Z.eqb_spec (k mod d) 0) as [Hm|]; [|reflexivity]. simpl.
    apply Z.mod_divide in Hm; [|lia]. apply Z.divide_pos_le in Hm; [|lia].
    destruct (Z.ltb_spec k (d + d * 0)); [lia | reflexivity].
  - intros pre x post s Heq Hs. apply range_step_split_inv in Heq; [|lia].
    destruct Heq as [Hx Hxn]. pose proof (len_nonneg pre) as Hpre.
    assert (Hx1 : 1 <= x < n) by nia.
    pose proof (Hs x) as Hlook.
    destruct (Z.leb_spec 1 x); [|lia]. destruct (Z.ltb_spec x n); [|lia].
    simpl in Hlook.
    destruct (Z.ltb_spec x (d + d * len pre)); [lia|].
    rewrite andb_false_r, app_nil_r in Hlook.
    rewrite (dict_item_Some _ _ _ Hlook). simpl rbind.
    eexists. split; [reflexivity|]. intros k.
    replace (len (pre ++ [x])) with (len pre + 1)
      by (rewrite len_app; unfold len at 3; simpl; lia).
    rewrite multiple_done by lia. rewrite <- Hx.
    destruct (Z.eqb_spec k x) as [->|Hne].
    + rewrite lookup_insert_eq, orb_true_r.
      destruct (Z.leb_spec 1 x); [|lia]. destruct (Z.ltb_spec x n); [|lia].
      reflexivity.
    + rewrite lookup_insert_ne by lia. rewrite orb_false_r.
      rewrite (Hs k), <- Hx. reflexivity.
  - exists divs'. split; [exact Hrun|]. intros k. rewrite (Hinv k).
    destruct (Z.leb_spec 1 k); destruct (Z.ltb_spec k n); simpl; try reflexivity.
    rewrite app_nil_r, divisors_below_snoc by lia. do 2 f_equal.
    assert (Hall : k < d + d * len (range_step d n d)).
    { destruct (Z_lt_le_dec d n) as [Hlt|Hge].
      - pose proof (len_range_step d n d ltac:(lia) Hlt). lia.
      - pose proof (len_nonneg (range_step d n d)). nia. }
    destruct (Z.ltb_spec k (d + d * len (range_step d n d))); [|lia].
    rewrite andb_true_r. reflexivity.
Qed.

Theorem divisors_spec (n : Z) :
  exists divs, divisors n = Ok divs /\
    forall k, divs !! k =
      if (1 <=? k) && (k <? n) then Some (divisors_below k (k + 1)) else None.
Proof.
  unfold divisors. cbv zeta.
  destruct (for_each_invariant
              (fun pre s => div_inv n (2 + len pre) (fun _ => false) s)
              (range 2 n)
              (fun d divs =>
                 for_each (range_step d n d) (fun multiple divs =>
                   do l <~ dict_item divs multiple ;
                   Ok (<[ multiple := l ++ [d] ]> divs)) divs)
              (dict_from_keys (range 1 n) [1])) as (divs & Hrun & Hinv).
  - change (len (@nil Z)) with 0. intros k.
    destruct (Z.leb_spec 1 k); destruct (Z.ltb_spec k n); simpl.
    + rewrite (proj1 (dict_from_keys_lookup (range 1 n) [1] k)) by (apply in_range; lia).
      f_equal. rewrite app_nil_r. unfold divisors_below.
      rewrite (range_cons 1 (2 + 0)) by lia. rewrite range_nil by lia. simpl.
      rewrite Z.mod_1_r. reflexivity.
    + apply dict_from_keys_lookup. rewrite in_range. lia.
    + apply dict_from_keys_lookup. rewrite in_range. lia.
    + apply dict_from_keys_lookup. rewrite in_range. lia.
  - intros pre x post s Heq Hs. apply range_split_inv in Heq.
    pose proof (len_nonneg pre).
    replace (len (pre ++ [x])) with (len pre + 1)
      by (rewrite len_app; unfold len at 3; simpl; lia).
    replace (2 + (len pre + 1)) with (x + 1) by lia.
    apply divisors_round; [lia|].
    replace x with (2 + len pre) by lia. exact Hs.
  - exists divs. split; [exact Hrun|]. intros k. rewrite (Hinv k).
    destruct (Z.leb_spec 1 k); destruct (Z.ltb_spec k n); simpl; try reflexivity.
    rewrite app_nil_r. f_equal. rewrite len_range by lia.
    apply divisors_below_stable. lia.
Qed.

Lemma in_divisors_below (k d : Z) :
  1 <= k -> (In d (divisors_below k (k + 1)) <-> 1 <= d /\ (d | k)).
Proof.
  intros Hk. unfold divisors_below. rewrite filter_In, in_range, Z.eqb_eq. split.
  - intros [Hd Hm]. split; [lia|]. apply Z.mod_divide; lia.
  - intros [Hd Hdiv]. split; [|apply Z.mod_divide; [lia | exact Hdiv]].
    apply Z.divide_pos_le in Hdiv; lia.
Qed.

(** * Roots: round trips and order *)

Lemma integer_kth_root_value (n k m : Z) :
  1 <= k -> 0 <= m -> m ^ k <= n < (m + 1) ^ k -> integer_kth_root n k = Ok m.
Proof.
  intros Hk Hm Hspec.
  assert (Hn : 0 <= n) by (pose proof (Z.pow_nonneg m k Hm); lia).
  destruct (integer_kth_root_spec n k Hn Hk) as (r & Hr & Hr0 & Hrspec).
  rewrite Hr. f_equal. apply (floor_root_unique n k r m); auto.
Qed.

Lemma power_between (m k : Z) : 0 <= m -> 1 <= k -> m ^ k <= m ^ k < (m + 1) ^ k.
Proof.
  intros Hm Hk. split; [lia|].
  destruct (Z.eq_dec m 0) as [->|]; [|apply pow_lt_succ; lia].
  rewrite Z.pow_0_l by lia. simpl. rewrite Z.pow_1_l by lia. lia.
Qed.

Lemma integer_kth_root_power (m k : Z) :
  0 <= m -> 1 <= k -> integer_kth_root (m ^ k) k = Ok m.
Proof.
  intros Hm Hk. apply integer_kth_root_value; [exact Hk | exact Hm |].
  apply power_between; assumption.
Qed.

Lemma integer_sqrt_square (m : Z) : 0 <= m -> integer_sqrt (m * m) = Ok m.
Proof.
  intros Hm. rewrite integer_sqrt_Zsqrt by nia. f_equal.
  apply Z.sqrt_unique. nia.
Qed.

Lemma integer_kth_root_le (n n' k r r' : Z) :
  0 <= n <= n' -> 1 <= k ->
  integer_kth_root n k = Ok r -> integer_kth_root n' k = Ok r' -> r <= r'.
Proof.
  intros Hn Hk Hr Hr'.
  destruct (integer_kth_root_spec n k ltac:(lia) Hk) as (m & Hm & Hm0 & Hspec).
  destruct (integer_kth_root_spec n' k ltac:(lia) Hk) as (m' & Hm' & Hm0' & Hspec').
  rewrite Hm in Hr. rewrite Hm' in Hr'. inversion Hr; inversion Hr'; subst.
  destruct (Z_le_gt_dec r r') as [|Hgt]; [assumption|]. exfalso.
  assert ((r' + 1) ^ k <= r ^ k) by (apply Z.pow_le_mono_l; lia). lia.
Qed.

Lemma integer_kth_root_1 (n : Z) : 0 <= n -> integer_kth_root n 1 = Ok n.
Proof.
  intros Hn. apply integer_kth_root_value; [lia | lia |]. rewrite !Z.pow_1_r. lia.
Qed.

Lemma integer_kth_root_2 (n : Z) : 0 <= n -> integer_kth_root n 2 = integer_sqrt n.
Proof.
  intros Hn. destruct (integer_sqrt_spec n Hn) as (s & Hs & Hs0 & Hspec).
  rewrite Hs. apply integer_kth_root_value; [lia | exact Hs0 | exact Hspec].
Qed.

Lemma integer_kth_root_large_k (n k : Z) :
  1 <= n -> 1 <= k -> bit_length n <= k -> integer_kth_root n k = Ok 1.
Proof.
  intros Hn Hk Hbits. apply integer_kth_root_value; [lia | lia |].
  rewrite Z.pow_1_l by lia. split; [lia|]. change (1 + 1) with 2.
  destruct (bit_length_bounds n ltac:(lia)) as (Hb & _ & Hhi).
  eapply Z.lt_le_trans; [exact Hhi|]. apply Z.pow_le_mono_r; lia.
Qed.

(** * Arguments out of range: the sieves *)

Lemma luo_below_1 (n : Z) :
  n < 1 -> luo n = Raise (if -1 <=? n then IndexError else ValueError).
Proof.
  intros Hn. unfold luo. cbv zeta.
  destruct (Z.eq_dec n 0) as [->|H0]; [reflexivity|].
  destruct (Z.eq_dec n (-1)) as [->|H1]; [reflexivity|].
  destruct (Z.leb_spec (-1) n); [lia|].
  assert (Hneg : (n + 1) / 3 + (if n mod 6 =? 1 then 1 else 0) < 0)
    by (destruct (Z.eqb_spec (n mod 6) 1); mod_lia).
  unfold np_ones. destruct (Z.ltb_spec ((n + 1) / 3 + (if n mod 6 =? 1 then 1 else 0)) 0);
    [reflexivity | lia].
Qed.

Lemma eratosthenes2_below_1 (n : Z) :
  n < 1 -> eratosthenes2 n = Raise (if -1 <=? n then IndexError else ValueError).
Proof.
  intros Hn. unfold eratosthenes2. cbv zeta.
  destruct (Z.eq_dec n 0) as [->|H0]; [reflexivity|].
  destruct (Z.eq_dec n (-1)) as [->|H1]; [reflexivity|].
  destruct (Z.leb_spec (-1) n); [lia|].
  assert (Hneg : (n + 1) / 2 < 0) by mod_lia.
  unfold np_ones. destruct (Z.ltb_spec ((n + 1) / 2) 0); [reflexivity | lia].
Qed.

Lemma primes_below_1 (n : Z) :
  n < 1 -> primes n = Raise (if -1 <=? n then IndexError else ValueError).
Proof.
  intros Hn. unfold primes, np_ones.
  destruct (Z.eq_dec n 0) as [->|H0]; [reflexivity|].
  destruct (Z.eq_dec n (-1)) as [->|H1]; [reflexivity|].
  destruct (Z.leb_spec (-1) n); [lia|].
  destruct (Z.ltb_spec (n + 1) 0); [reflexivity | lia].
Qed.

Lemma sieve_interval_below_1 (block_size a b : Z) :
  b < 1 ->
  sieve_interval_with block_size a b = Raise (if b =? 0 then IndexError else ValueError).
Proof.
  intros Hb. unfold sieve_interval_with.
  destruct (Z.eqb_spec b 0) as [->|Hne]; [reflexivity|].
  rewrite integer_sqrt_negative by lia. reflexivity.
Qed.

Lemma sieve_interval2_below_1 (block_size a b : Z) :
  b < 1 ->
  sieve_interval2_with block_size a b = Raise (if b =? 0 then IndexError else ValueError).
Proof.
  intros Hb. unfold sieve_interval2_with.
  destruct (Z.eqb_spec b 0) as [->|Hne]; [reflexivity|].
  rewrite integer_sqrt_negative by lia. reflexivity.
Qed.

(** * Arguments out of range: the counts *)

Lemma Q_sieve_negative (n : Z) :
  n < 0 -> Q_sieve n = Raise (if n =? -1 then IndexError else ValueError).
Proof.
  intros Hn. unfold Q_sieve, np_ones.
  destruct (Z.eqb_spec n (-1)) as [->|Hne]; [reflexivity|].
  destruct (Z.ltb_spec (n + 1) 0); [reflexivity | lia].
Qed.

Lemma Q_segmented_negative (n : Z) : n < 0 -> Q_segmented n = Raise ValueError.
Proof. intros Hn. unfold Q_segmented. rewrite integer_sqrt_negative by lia. reflexivity. Qed.

Lemma Q_moebius_negative (n : Z) : n < 0 -> Q_moebius n = Raise ValueError.
Proof. intros Hn. unfold Q_moebius. rewrite integer_sqrt_negative by lia. reflexivity. Qed.

(** * Intervals side by side *)

Lemma primes_in_app (a b c : Z) :
  a <= b <= c -> primes_in a c = primes_in a b ++ primes_in b c.
Proof.
  intros H. unfold primes_in. rewrite (range_app a b c) by lia. apply List.filter_app.
Qed.

Lemma primes_in_snoc (a b : Z) :
  a <= b -> primes_in a (b + 1) = primes_in a b ++ (if is_prime b then [b] else []).
Proof.
  intros H. unfold primes_in. rewrite range_snoc by lia.
  rewrite List.filter_app. reflexivity.
Qed.

(** * The shape of the count *)

Lemma squarefree_count_step (x y : Z) :
  0 <= x <= y ->
  squarefree_count y = squarefree_count x
                       + len (List.filter squarefreeb (range (x + 1) (y + 1))).
Proof.
  intros H. unfold squarefree_count.
  rewrite (range_app 1 (x + 1) (y + 1)) by lia.
  rewrite List.filter_app, len_app. reflexivity.
Qed.

Lemma squarefree_count_growth (x y : Z) :
  0 <= x <= y ->
  0 <= squarefree_count x <= x /\
  squarefree_count x <= squarefree_count y <= squarefree_count x + (y - x).
Proof.
  intros H. split.
  - split; [apply squarefree_count_nonneg | apply squarefree_count_le; lia].
  - rewrite (squarefree_count_step x y H).
    pose proof (len_nonneg (List.filter squarefreeb (range (x + 1) (y + 1)))).
    assert (len (List.filter squarefreeb (range (x + 1) (y + 1))) <= y - x); [|lia].
    transitivity (len (range (x + 1) (y + 1))); [|rewrite len_range; lia].
    unfold len. apply inj_le. apply List.filter_length_le.
Qed.

(** * The dictionary of [Q_memo] *)

Lemma sum_calls_grows (f : Z -> gmap Z Z -> result Z * gmap Z Z) (args : list Z)
    (acc : Z) (c : gmap Z Z) :
  (forall a c, c ⊆ snd (f a c)) -> c ⊆ snd (sum_calls f args acc c).
Proof.
  intros Hf. revert acc c. induction args as [|a args IH]; intros acc c; [reflexivity|].
  simpl. pose proof (Hf a c) as Ha.
  destruct (f a c) as [[v| |] c1]; simpl in Ha; try exact Ha.
  etransitivity; [exact Ha | apply IH].
Qed.

(** A call never drops or changes an entry of the dictionary. *)
Lemma Q_memo_rec_grows (fuel : nat) (x : Z) (c : gmap Z Z) :
  c ⊆ snd (Q_memo_rec fuel x c).
Proof.
  revert x c. induction fuel as [|fuel IH]; intros x c; [reflexivity|].
  simpl. destruct (c !! x) as [v|] eqn:Hlook; [reflexivity|].
  destruct (integer_sqrt x) as [s| |]; try reflexivity.
  pose proof (sum_calls_grows (Q_memo_rec fuel)
                (map (fun k => x / k ^ 2) (range 2 (s + 1))) 0 c IH) as Hsum.
  destruct (sum_calls (Q_memo_rec fuel) (map (fun k => x / k ^ 2) (range 2 (s + 1))) 0 c)
    as [[total| |] c1]; simpl in *; try exact Hsum.
  apply insert_subseteq_r; assumption.
Qed.

(** The value a call returns is the value it leaves under its key. *)
Lemma Q_memo_rec_stores (fuel : nat) (x v : Z) (c c' : gmap Z Z) :
  Q_memo_rec fuel x c = (Ok v, c') -> c' !! x = Some v.
Proof.
  destruct fuel as [|fuel]; simpl; [discriminate|].
  destruct (c !! x) as [w|] eqn:Hlook.
  - intros H. inversion H; subst. exact Hlook.
  - destruct (integer_sqrt x) as [s| |]; try discriminate.
    destruct (sum_calls (Q_memo_rec fuel) (map (fun k => x / k ^ 2) (range 2 (s + 1))) 0 c)
      as [[total| |] c1]; try discriminate.
    intros H. inversion H; subst. apply lookup_insert_eq.
Qed.

Lemma Q_memo_hit (x v : Z) (c : gmap Z Z) : c !! x = Some v -> Q_memo x c = (Ok v, c).
Proof. intros H. unfold Q_memo, fuel_from. simpl. rewrite H. reflexivity. Qed.

(** * The order of the list [V] of [Q_dp] *)

Lemma ssorted_app {A : Type} (R : A -> A -> Prop) (l1 l2 : list A) :
  StronglySorted R l1 -> StronglySorted R l2 ->
  (forall x y, In x l1 -> In y l2 -> R x y) -> StronglySorted R (l1 ++ l2).
Proof.
  intros H1 H2 Hlt. induction H1 as [|x l1 Hs IH Hx]; simpl; [exact H2|].
  constructor.
  - apply IH. intros a b Ha Hb. apply Hlt; [right; exact Ha | exact Hb].
  - rewrite List.Forall_forall in *. intros y [Hy|Hy]%in_app_or.
    + apply Hx. exact Hy.
    + apply Hlt; [left; reflexivity | exact Hy].
Qed.

Lemma ssorted_rev {A : Type} (R : A -> A -> Prop) (l : list A) :
  StronglySorted R l -> StronglySorted (fun a b => R b a) (rev l).
Proof.
  intros H. induction H as [|x l Hs IH Hx]; simpl; [constructor|].
  apply ssorted_app; [exact IH | repeat constructor |].
  rewrite List.Forall_forall in Hx.
  intros a b Ha%in_rev [<-|[]]. apply Hx. exact Ha.
Qed.

Lemma ssorted_le_lt (l : list Z) :
  StronglySorted Z.le l -> List.NoDup l -> StronglySorted Z.lt l.
Proof.
  intros H Hnd. induction H as [|x l Hs IH Hx]; [constructor|].
  inversion Hnd as [|? ? Hnin Hnd']; subst. constructor; [apply IH; exact Hnd'|].
  rewrite List.Forall_forall in *. intros y Hy. pose proof (Hx y Hy).
  assert (x <> y) by (intros ->; contradiction). lia.
Qed.

Lemma range_down_sorted (L : Z) :
  StronglySorted (fun a b => b < a) (range_step (L - 1) (-1) (-1)).
Proof.
  rewrite range_step_down. generalize (Z.to_nat L). intros n. generalize 0%nat.
  induction n as [|n IH]; intros s; simpl; constructor; [apply IH|].
  apply List.Forall_forall. intros y (i & <- & Hi%in_seq)%in_map_iff. lia.
Qed.

Lemma range_down_last (L : Z) (d : Z) :
  1 <= L -> List.last (range_step (L - 1) (-1) (-1)) d = 0.
Proof.
  intros HL. rewrite range_step_down.
  replace (Z.to_nat L) with (S (Z.to_nat (L - 1))) by lia.
  rewrite seq_S, map_app. simpl. rewrite last_last. lia.
Qed.

(** [V] goes down strictly, from [x] to 0. *)
Lemma dp_V_sorted (x K : Z) (V : list Z) :
  0 <= x -> dp_shape x K V ->
  StronglySorted (fun a b => b < a) V /\ hd 0 V = x /\ List.last V 1 = 0.
Proof.
  intros Hx (HK & Hdec & ->).
  assert (Hmono : forall a b, 1 <= a < b -> b < K -> x / b ^ 2 < x / a ^ 2).
  { intros a b Hab Hb.
    pose proof (quotient_antitone x (a + 1) b Hx ltac:(lia)).
    pose proof (Hdec a ltac:(lia)). lia. }
  assert (Hq0 : 0 <= x / (K - 1) ^ 2)
    by (apply Z.div_pos; [lia | apply Z.pow_pos_nonneg; lia]).
  split; [|split].
  - apply ssorted_app.
    + assert (Hgen : forall n a, 1 <= a -> Z.to_nat (K - a) = n ->
                StronglySorted (fun u v => v < u) (map (fun j => x / j ^ 2) (range a K))).
      { induction n as [|n IH]; intros a Ha Hn.
        - rewrite range_nil by lia. constructor.
        - rewrite range_cons by lia. simpl. constructor; [apply IH; lia|].
          apply List.Forall_forall. intros y (j & <- & Hj%in_range)%in_map_iff.
          apply Hmono; lia. }
      apply (Hgen (Z.to_nat (K - 1)) 1); lia.
    + apply range_down_sorted.
    + intros u v (j & <- & Hj%in_range)%in_map_iff Hv%in_range_down.
      pose proof (quotient_antitone x j (K - 1) Hx ltac:(lia)). lia.
  - rewrite (range_cons 1 K) by lia. simpl. change (1 ^ 2) with 1. apply Z.div_1_r.
  - destruct (Z.eq_dec (x / (K - 1) ^ 2) 0) as [H0|Hne].
    + rewrite H0. change (range_step (0 - 1) (-1) (-1)) with (@nil Z).
      rewrite app_nil_r.
      assert (Hr : range 1 K = range 1 (K - 1) ++ [K - 1]).
      { rewrite <- (range_snoc 1 (K - 1)) by lia. f_equal. lia. }
      rewrite Hr, map_app. simpl. rewrite last_last. exact H0.
    + rewrite range_step_down.
      replace (Z.to_nat (x / (K - 1) ^ 2))
        with (S (Z.to_nat (x / (K - 1) ^ 2 - 1))) by lia.
      rewrite seq_S, map_app, app_assoc. simpl. rewrite last_last. lia.
Qed.

(** Sorting [V] just reverses it. *)
Lemma dp_V_sort_reverses (x K : Z) (V : list Z) :
  0 <= x -> dp_shape x K V -> merge_sort Z.le V = rev V.
Proof.
  intros Hx Hshape.
  destruct (sorted_keys V (dp_V_NoDup x K V Hx Hshape)) as (Hs & Hnd & Hmem).
  destruct (dp_V_sorted x K V Hx Hshape) as (Hdown & _ & _).
  apply sorted_same_members.
  - apply ssorted_le_lt; assumption.
  - exact (ssorted_rev _ V Hdown).
  - intros v. rewrite Hmem. apply in_rev.
Qed.

(** C1. For every [x] with [0 <= x <= 10^6], [Q_memo] (on any state the
    shared dictionary can be in), [Q_dp], [Q_moebius] and the full sieve
    [Q_sieve] all return the same value. *)
Theorem counting_forms_agree (x : Z) (c : gmap Z Z) :
  0 <= x <= 10 ^ 6 -> memo_reachable c ->
  exists v, fst (Q_memo x c) = Ok v /\ Q_dp x = Ok v /\ Q_moebius x = Ok v /\
            Q_sieve x = Ok v.
Proof.
  intros Hx Hc. exists (squarefree_count x).
  rewrite (Q_memo_result x c (memo_reachable_ok c Hc)).
  destruct (Z.ltb_spec x 0); [lia|].
  split; [reflexivity|]. split; [apply Q_dp_spec; lia|].
  split; [apply Q_moebius_spec; lia | apply Q_sieve_spec; lia].
Qed.

Lemma counting_forms_agree_witness :
  exists v, fst (Q_memo 1000 memo_initial) = Ok v /\ Q_dp 1000 = Ok v /\
            Q_moebius 1000 = Ok v /\ Q_sieve 1000 = Ok v.
Proof.
  apply (counting_forms_agree 1000 memo_initial); [lia | apply reach_initial].
Defined.

(** C2. For every [x >= 0], [Q_memo x] (on any state of the shared
    dictionary) and [Q_sieve x] return the number of squarefree integers in
    [1, x], where [squarefreeb] decides exactly the positive integers that
    no square greater than 1 divides; the count is 0 at 0, 7 at 10 and 13
    at 20. *)
Theorem count_squarefree_correct (x : Z) (c : gmap Z Z) :
  0 <= x -> memo_reachable c ->
  fst (Q_memo x c) = Ok (squarefree_count x) /\
  Q_sieve x = Ok (squarefree_count x) /\
  squarefree_count x = len (List.filter squarefreeb (range 1 (x + 1))) /\
  (forall m, squarefreeb m = true <->
             0 < m /\ forall d, 1 < d -> ~ (d * d | m)) /\
  fst (Q_memo 0 c) = Ok 0 /\ fst (Q_memo 10 c) = Ok 7 /\ fst (Q_memo 20 c) = Ok 13 /\
  Q_sieve 0 = Ok 0 /\ Q_sieve 10 = Ok 7 /\ Q_sieve 20 = Ok 13.
Proof.
  intros Hx Hc. pose proof (memo_reachable_ok c Hc) as Hok.
  split.
  { rewrite (Q_memo_result x c Hok). destruct (Z.ltb_spec x 0); [lia | reflexivity]. }
  split; [apply Q_sieve_spec; lia|].
  split; [reflexivity|].
  split; [exact squarefreeb_spec|].
  rewrite !(Q_memo_result _ c Hok). repeat split; reflexivity.
Qed.

Lemma count_squarefree_correct_witness :
  fst (Q_memo 30 memo_initial) = Ok (squarefree_count 30) /\
  Q_sieve 30 = Ok (squarefree_count 30) /\
  squarefree_count 30 = len (List.filter squarefreeb (range 1 (30 + 1))) /\
  (forall m, squarefreeb m = true <->
             0 < m /\ forall d, 1 < d -> ~ (d * d | m)) /\
  fst (Q_memo 0 memo_initial) = Ok 0 /\ fst (Q_memo 10 memo_initial) = Ok 7 /\
  fst (Q_memo 20 memo_initial) = Ok 13 /\
  Q_sieve 0 = Ok 0 /\ Q_sieve 10 = Ok 7 /\ Q_sieve 20 = Ok 13.
Proof.
  apply (count_squarefree_correct 30 memo_initial); [lia | apply reach_initial].
Defined.



(** C10. A call of [Q_memo] returns the same outcome whatever calls were
    made before it: on every state the shared dictionary can reach, the
    outcome for [x] is the one on the fresh dictionary [{1: 1}], the count
    for [x >= 0] and the [ValueError] of [integer_sqrt] for [x < 0]. The
    other entry points keep no state between calls: in the embedding
    they are functions of their arguments alone. *)
Theorem Q_memo_deterministic (x : Z) (c : gmap Z Z) :
  memo_reachable c ->
  fst (Q_memo x c) = fst (Q_memo x memo_initial) /\
  fst (Q_memo x c) = (if x <? 0 then Raise ValueError else Ok (squarefree_count x)).
Proof.
  intros Hc.
  rewrite (Q_memo_result x c (memo_reachable_ok c Hc)).
  rewrite (Q_memo_result x memo_initial cache_ok_initial). auto.
Qed.

Lemma Q_memo_deterministic_witness :
  fst (Q_memo 10 (snd (Q_memo 20 (snd (Q_memo (-3) memo_initial)))))
    = fst (Q_memo 10 memo_initial) /\
  fst (Q_memo 10 (snd (Q_memo 20 (snd (Q_memo (-3) memo_initial)))))
    = (if 10 <? 0 then Raise ValueError else Ok (squarefree_count 10)).
Proof.
  apply (Q_memo_deterministic 10 (snd (Q_memo 20 (snd (Q_memo (-3) memo_initial))))).
  apply reach_call. apply reach_call. apply reach_initial.
Defined.

(** * Out-of-domain arguments *)

Lemma integer_kth_root_rejects (n k : Z) :
  integer_kth_root n k = Raise ValueError <-> n < 0 \/ k < 1.
Proof.
  split.
  - intros H. destruct (Z_lt_le_dec n 0) as [|Hn]; [left; assumption|].
    destruct (Z_lt_le_dec k 1) as [|Hk]; [right; assumption|].
    destruct (integer_kth_root_spec n k Hn Hk) as (m & Hm & _). congruence.
  - intros H. unfold integer_kth_root.
    destruct (Z.ltb_spec n 0); [reflexivity|].
    destruct (Z.ltb_spec k 1); [reflexivity | lia].
Qed.

Lemma integer_sqrt_rejects (n : Z) : integer_sqrt n = Raise ValueError <-> n < 0.
Proof.
  split.
  - intros H. destruct (Z_lt_le_dec n 0) as [|Hn]; [assumption|].
    rewrite integer_sqrt_Zsqrt in H by exact Hn. discriminate.
  - apply integer_sqrt_negative.
Qed.

Lemma Q_dp_negative (x : Z) : x < 0 -> Q_dp x = Raise IndexError.
Proof.
  intros Hx. unfold Q_dp.
  destruct (Z.eqb_spec x 0); [lia|]. destruct (Z.eqb_spec x 1); [lia|]. simpl.
  unfold Q_dp_V, fuel_from. simpl Q_dp_values.
  change ((1 + 1) ^ 2) with 4. change (1 ^ 2) with 1. rewrite Z.div_1_r.
  assert (x <= x / 4) by (apply Z.div_le_lower_bound; lia).
  destruct (Z.ltb_spec (x / 4) x); [lia|]. reflexivity.
Qed.

Lemma eratosthenes_below_1 (n : Z) :
  n < 1 -> eratosthenes n = Raise (if -1 <=? n then IndexError else ValueError).
Proof.
  intros Hn. unfold eratosthenes, np_ones.
  destruct (Z.eq_dec n 0) as [->|H0]; [reflexivity|].
  destruct (Z.eq_dec n (-1)) as [->|H1]; [reflexivity|].
  destruct (Z.leb_spec (-1) n); [lia|].
  destruct (Z.ltb_spec (n + 1) 0); [reflexivity | lia].
Qed.

Lemma Q_dp_negative_loop (x : Z) :
  x < 0 -> Q_dp_values (fuel_from x) x 1 [] = Ok [] /\ Q_dp_V x = Raise IndexError.
Proof.
  intros Hx. unfold Q_dp_V, fuel_from. simpl Q_dp_values.
  change ((1 + 1) ^ 2) with 4. change (1 ^ 2) with 1. rewrite Z.div_1_r.
  assert (x <= x / 4) by (apply Z.div_le_lower_bound; lia).
  destruct (Z.ltb_spec (x / 4) x); [lia|]. split; reflexivity.
Qed.

Lemma eratosthenes_negative (n : Z) :
  n < 0 -> eratosthenes n = Raise (if n =? -1 then IndexError else ValueError).
Proof.
  intros Hn. rewrite eratosthenes_below_1 by lia.
  destruct (Z.leb_spec (-1) n), (Z.eqb_spec n (-1)); try reflexivity; lia.
Qed.

(** C5, as the code has it. [integer_kth_root] and [integer_sqrt] raise
    [ValueError] on exactly [n < 0] (or [k < 1]) and return a value on every
    other input. The counting and sieve functions check nothing themselves:
    [Q_dp] fails on every [x < 0] with an [IndexError] that comes in the
    middle of the function, its [while] loop having ended with [V] empty and
    [V[-1]] raising, and returns a value for every [x >= 0]; [Q_memo] fails
    on every [x < 0] with the [ValueError] of [integer_sqrt], leaving the
    shared dictionary as it was, and returns a value for every [x >= 0];
    [eratosthenes] fails on every [n < 0], with an [IndexError] at -1 and
    numpy's [ValueError] below, and returns a list for every [n >= 1]. *)
Theorem argument_errors :
  (forall n k, integer_kth_root n k = Raise ValueError <-> n < 0 \/ k < 1) /\
  (forall n k, 0 <= n -> 1 <= k -> exists m, integer_kth_root n k = Ok m) /\
  (forall n, integer_sqrt n = Raise ValueError <-> n < 0) /\
  (forall n, 0 <= n -> exists m, integer_sqrt n = Ok m) /\
  (forall x, x < 0 ->
     Q_dp_values (fuel_from x) x 1 [] = Ok [] /\ Q_dp_V x = Raise IndexError /\
     Q_dp x = Raise IndexError) /\
  (forall x, 0 <= x -> exists v, Q_dp x = Ok v) /\
  (forall x c, memo_reachable c -> x < 0 -> Q_memo x c = (Raise ValueError, c)) /\
  (forall x c, memo_reachable c -> 0 <= x -> exists v, fst (Q_memo x c) = Ok v) /\
  (forall n, n < 0 ->
     eratosthenes n = Raise (if n =? -1 then IndexError else ValueError)) /\
  (forall n, 1 <= n -> exists ps, eratosthenes n = Ok ps).
Proof.
  split; [exact integer_kth_root_rejects|].
  split.
  { intros n k Hn Hk. destruct (integer_kth_root_spec n k Hn Hk) as (m & Hm & _). eauto. }
  split; [exact integer_sqrt_rejects|].
  split; [intros n Hn; rewrite integer_sqrt_Zsqrt by exact Hn; eauto|].
  split.
  { intros x Hx. destruct (Q_dp_negative_loop x Hx) as [H1 H2].
    split; [exact H1|]. split; [exact H2 | apply Q_dp_negative; exact Hx]. }
  split; [intros x Hx; rewrite Q_dp_spec by exact Hx; eauto|].
  split.
  { intros x c Hc Hx. apply Q_memo_negative; [exact Hx | apply memo_reachable_ok, Hc]. }
  split.
  { intros x c Hc Hx. rewrite (Q_memo_result x c (memo_reachable_ok c Hc)).
    destruct (Z.ltb_spec x 0); [lia | eauto]. }
  split; [exact eratosthenes_negative|].
  intros n Hn. rewrite eratosthenes_primes by exact Hn. eauto.
Qed.

(** C5 fails on the error kind: [Q_dp(-1)] and [eratosthenes(-1)] raise
    [IndexError], not the [ValueError] that [integer_kth_root(-1, 2)] and
    [eratosthenes(-2)] raise. *)
Lemma errors_of_two_kinds :
  Q_dp (-1) = Raise IndexError /\ eratosthenes (-1) = Raise IndexError /\
  eratosthenes (-2) = Raise ValueError /\ integer_kth_root (-1) 2 = Raise ValueError /\
  Q_dp (-1) <> integer_kth_root (-1) 2.
Proof. repeat split; try reflexivity. discriminate. Qed.

(** C4, as the code has it. [eratosthenes(n)] returns the primes of
    [[2, n]] in increasing order for every [n >= 1], and [eratosthenes2(n)]
    the same list for every [n >= 2]. At the edge the claim fails: both
    sieves raise [IndexError] at [n = 0], and the odd-only sieve returns
    [[2]] at [n = 1], where the plain one returns the empty list. *)
Theorem sieve_edge_cases :
  (forall n, 1 <= n -> eratosthenes n = Ok (primes_in 2 (n + 1))) /\
  (forall n, 2 <= n -> eratosthenes2 n = Ok (primes_in 2 (n + 1))) /\
  (forall a b, StronglySorted Z.lt (primes_in a b)) /\
  (forall a b p, In p (primes_in a b) <-> a <= p < b /\ Z.prime p) /\
  eratosthenes 0 = Raise IndexError /\ eratosthenes2 0 = Raise IndexError /\
  eratosthenes2 1 = Ok [2] /\ eratosthenes 1 = Ok [].
Proof.
  split; [exact eratosthenes_primes|].
  split.
  { intros n Hn. rewrite eratosthenes2_spec by lia. rewrite Z.max_l by lia. reflexivity. }
  split; [exact sorted_primes_in|].
  split; [intros a b p; apply in_primes_in|].
  repeat split; reflexivity.
Qed.

(** * The segmented sieve against the plain one *)

(** C7. For every [n >= 2] the segmented sieve over the closed interval
    [[2, n]], which the half-open arguments of [sieve_interval] write as
    [sieve_interval(2, n + 1)], yields the list that [eratosthenes(n)]
    returns: the primes of [[2, n]] in increasing order. *)
Theorem segmented_sieve_agrees (n : Z) :
  2 <= n ->
  exists ps, sieve_interval 2 (n + 1) = Ok ps /\ eratosthenes n = Ok ps /\
             ps = primes_in 2 (n + 1).
Proof.
  intros Hn. exists (primes_in 2 (n + 1)). split; [|split; [|reflexivity]].
  - unfold sieve_interval. apply sieve_interval_spec; lia.
  - apply eratosthenes_primes. lia.
Qed.

Lemma segmented_sieve_agrees_witness :
  2 <= 30 /\
  exists ps, sieve_interval 2 (30 + 1) = Ok ps /\ eratosthenes 30 = Ok ps /\
             ps = primes_in 2 (30 + 1).
Proof. split; [lia | apply (segmented_sieve_agrees 30); lia]. Defined.

(** X3. The same for any positive block size, and for any interval [[a, b)]
    with [1 <= b <= 2^63]: [sieve_interval(a, b)] yields the primes [p] with
    [a <= p < b] in increasing order. Up to that bound every value yielded is
    its own 64-bit wrap, so that the int64 sum [start + nonzero] of numpy is
    the sum of the integers. *)
Theorem sieve_interval_returns_primes (block_size a b : Z) :
  0 < block_size -> 1 <= b <= 2 ^ 63 ->
  sieve_interval_with block_size a b = Ok (primes_in a b) /\
  sieve_interval a b = Ok (primes_in a b) /\
  StronglySorted Z.lt (primes_in a b) /\
  (forall p, In p (primes_in a b) <-> a <= p < b /\ Z.prime p) /\
  (forall p, In p (primes_in a b) -> wrap64 p = p).
Proof.
  intros HB Hb. split; [apply sieve_interval_spec; lia|].
  split; [unfold sieve_interval; apply sieve_interval_spec; lia|].
  split; [apply sorted_primes_in|].
  split; [intros p; apply in_primes_in|].
  intros p [Hp Hprime]%in_primes_in. apply wrap64_small.
  pose proof (Z.prime_ge_2 p Hprime). lia.
Qed.

Lemma sieve_interval_returns_primes_witness :
  0 < 7 /\ 1 <= 60 <= 2 ^ 63 /\
  sieve_interval_with 7 10 60 = Ok (primes_in 10 60) /\
  sieve_interval 10 60 = Ok (primes_in 10 60) /\
  StronglySorted Z.lt (primes_in 10 60) /\
  (forall p, In p (primes_in 10 60) <-> 10 <= p < 60 /\ Z.prime p) /\
  (forall p, In p (primes_in 10 60) -> wrap64 p = p).
Proof.
  split; [lia|]. split; [lia|]. apply (sieve_interval_returns_primes 7 10 60); lia.
Defined.

(** The end [b] of [sieve_interval(a, b)] is not part of the interval:
    [sieve_interval(2, 3)] yields 2 only, where [eratosthenes(3)] returns 2
    and 3. *)
Lemma sieve_interval_excludes_end :
  sieve_interval 2 3 = Ok [2] /\ eratosthenes 3 = Ok [2; 3].
Proof. split; reflexivity. Qed.

(** X2. [luo(n)] returns the primes up to [n] for [n >= 3]; for [n = 1] and
    [n = 2] it returns 2 and 3 all the same. *)
Theorem luo_returns_primes (n : Z) :
  1 <= n -> luo n = Ok (primes_in 2 (Z.max n 3 + 1)).
Proof. exact (luo_spec n). Qed.

Lemma luo_returns_primes_witness :
  1 <= 100 /\ luo 100 = Ok (primes_in 2 (Z.max 100 3 + 1)).
Proof. split; [lia | apply (luo_returns_primes 100); lia]. Defined.

(** X1. [eratosthenes(n)] returns the primes of [[2, n]], in increasing order,
    for every [n >= 1]. *)
Theorem eratosthenes_returns_primes (n : Z) :
  1 <= n ->
  eratosthenes n = Ok (primes_in 2 (n + 1)) /\
  StronglySorted Z.lt (primes_in 2 (n + 1)) /\
  (forall p, In p (primes_in 2 (n + 1)) <-> 2 <= p <= n /\ Z.prime p).
Proof.
  intros Hn. split; [apply eratosthenes_primes; exact Hn|].
  split; [apply sorted_primes_in|].
  intros p. rewrite in_primes_in. intuition lia.
Qed.

Lemma eratosthenes_returns_primes_witness :
  1 <= 30 /\
  eratosthenes 30 = Ok (primes_in 2 (30 + 1)) /\
  StronglySorted Z.lt (primes_in 2 (30 + 1)) /\
  (forall p, In p (primes_in 2 (30 + 1)) <-> 2 <= p <= 30 /\ Z.prime p).
Proof. split; [lia | apply (eratosthenes_returns_primes 30); lia]. Defined.

(** X5. [eratosthenes2(n)] returns what [eratosthenes(n)] returns, the primes of
    [[2, n]], for every [n >= 2]. *)
Theorem eratosthenes2_returns_primes (n : Z) :
  2 <= n ->
  eratosthenes2 n = Ok (primes_in 2 (n + 1)) /\ eratosthenes2 n = eratosthenes n.
Proof.
  intros Hn. rewrite eratosthenes2_spec, eratosthenes_primes by lia.
  rewrite Z.max_l by lia. split; reflexivity.
Qed.

Lemma eratosthenes2_returns_primes_witness :
  2 <= 50 /\
  eratosthenes2 50 = Ok (primes_in 2 (50 + 1)) /\ eratosthenes2 50 = eratosthenes 50.
Proof. split; [lia | apply (eratosthenes2_returns_primes 50); lia]. Defined.

(** * Beyond the test range *)

(** X6. The sieve forms and the bottom-up form return the count of squarefree
    integers in [[1, x]] for every [x >= 0], the segmented count included;
    [Q_moebius], whose array numpy keeps in 64-bit integers, for every
    [x < 2^63]. *)
Theorem counting_forms_correct (x : Z) :
  0 <= x ->
  Q_sieve x = Ok (squarefree_count x) /\
  Q_segmented x = Ok (squarefree_count x) /\
  Q_dp x = Ok (squarefree_count x) /\
  (x < 2 ^ 63 -> Q_moebius x = Ok (squarefree_count x)).
Proof.
  intros Hx. split; [apply Q_sieve_spec; exact Hx|].
  split; [apply Q_segmented_spec; exact Hx|].
  split; [apply Q_dp_spec; exact Hx|].
  intros Hlt. apply Q_moebius_spec. lia.
Qed.

Lemma counting_forms_correct_witness :
  0 <= 100 /\
  Q_sieve 100 = Ok (squarefree_count 100) /\
  Q_segmented 100 = Ok (squarefree_count 100) /\
  Q_dp 100 = Ok (squarefree_count 100) /\
  (100 < 2 ^ 63 -> Q_moebius 100 = Ok (squarefree_count 100)).
Proof. split; [lia | apply (counting_forms_correct 100); lia]. Defined.

(** X7. [primes(n)], the sieve the counting notebook uses, returns the primes of
    [[2, n]] for every [n >= 1], although its loop runs to the square root of
    [n + 1]. *)
Theorem primes_returns_primes (n : Z) :
  1 <= n -> primes n = Ok (primes_in 2 (n + 1)) /\ primes n = eratosthenes n.
Proof.
  intros Hn. rewrite primes_spec, eratosthenes_primes by exact Hn. split; reflexivity.
Qed.

Lemma primes_returns_primes_witness :
  1 <= 40 /\ primes 40 = Ok (primes_in 2 (40 + 1)) /\ primes 40 = eratosthenes 40.
Proof. split; [lia | apply (primes_returns_primes 40); lia]. Defined.

(** X8. [is_kth_power(n, k)] holds exactly when [n] is the [k]-th power of a
    non-negative integer, and [is_square(n)] exactly when [n] is a square. *)
Theorem perfect_power_tests (n k : Z) :
  0 <= n -> 1 <= k ->
  (exists b, is_kth_power n k = Ok b /\ (b = true <-> exists m, 0 <= m /\ m ^ k = n)) /\
  (exists b, is_square n = Ok b /\ (b = true <-> exists m, 0 <= m /\ m * m = n)).
Proof.
  intros Hn Hk. split; [apply is_kth_power_spec; assumption | apply is_square_spec; exact Hn].
Qed.

Lemma perfect_power_tests_witness :
  0 <= 81 /\ 1 <= 4 /\
  (exists b, is_kth_power 81 4 = Ok b /\ (b = true <-> exists m, 0 <= m /\ m ^ 4 = 81)) /\
  (exists b, is_square 81 = Ok b /\ (b = true <-> exists m, 0 <= m /\ m * m = 81)).
Proof.
  split; [lia|]. split; [lia|]. apply (perfect_power_tests 81 4); lia.
Defined.

(** * Further properties of the sieves *)

(** X4. Two calls of [sieve_interval] on adjoining intervals yield, one
    after the other, what one call on the whole interval yields, as long as
    the intervals end at [2^63] or below, where the int64 sums of numpy are
    exact. *)
Theorem sieve_interval_splits (a b c : Z) :
  1 <= b -> a <= b <= c -> c <= 2 ^ 63 ->
  exists l1 l2, sieve_interval a b = Ok l1 /\ sieve_interval b c = Ok l2 /\
                sieve_interval a c = Ok (l1 ++ l2) /\
                forall p, In p (l1 ++ l2) -> wrap64 p = p.
Proof.
  intros Hb Habc Hc. exists (primes_in a b), (primes_in b c). unfold sieve_interval.
  rewrite !sieve_interval_spec by lia.
  split; [reflexivity|]. split; [reflexivity|].
  rewrite <- (primes_in_app a b c Habc). split; [reflexivity|].
  intros p [Hp Hprime]%in_primes_in. apply wrap64_small.
  pose proof (Z.prime_ge_2 p Hprime). lia.
Qed.

Lemma sieve_interval_splits_witness :
  exists l1 l2, sieve_interval 2 20 = Ok l1 /\ sieve_interval 20 50 = Ok l2 /\
                sieve_interval 2 50 = Ok (l1 ++ l2) /\
                forall p, In p (l1 ++ l2) -> wrap64 p = p.
Proof. apply (sieve_interval_splits 2 20 50); lia. Defined.

(** X9. For [4 <= b < 2^63], and whatever the block size,
    [sieve_interval2(a, b)] yields the primes [p] with [a <= p <= b] in
    increasing order: its end is part of the interval. Below that bound
    every value yielded is its own 64-bit wrap, so that the int64 sum
    [2*nonzero + (start + 1)] of numpy is the sum of the integers. *)
Theorem sieve_interval2_closed (block_size a b : Z) :
  0 < block_size -> 4 <= b < 2 ^ 63 ->
  sieve_interval2_with block_size a b = Ok (primes_in a (b + 1)) /\
  sieve_interval2 a b = Ok (primes_in a (b + 1)) /\
  StronglySorted Z.lt (primes_in a (b + 1)) /\
  (forall p, In p (primes_in a (b + 1)) <-> a <= p <= b /\ Z.prime p) /\
  (forall p, In p (primes_in a (b + 1)) -> wrap64 p = p).
Proof.
  intros HB Hb. split; [apply sieve_interval2_spec; lia|].
  split; [unfold sieve_interval2; apply sieve_interval2_spec; lia|].
  split; [apply sorted_primes_in|].
  split; [intros p; rewrite in_primes_in; intuition lia|].
  intros p [Hp Hprime]%in_primes_in. apply wrap64_small.
  pose proof (Z.prime_ge_2 p Hprime). lia.
Qed.

Lemma sieve_interval2_closed_witness :
  sieve_interval2_with 5 10 61 = Ok (primes_in 10 (61 + 1)) /\
  sieve_interval2 10 61 = Ok (primes_in 10 (61 + 1)) /\
  StronglySorted Z.lt (primes_in 10 (61 + 1)) /\
  (forall p, In p (primes_in 10 (61 + 1)) <-> 10 <= p <= 61 /\ Z.prime p) /\
  (forall p, In p (primes_in 10 (61 + 1)) -> wrap64 p = p).
Proof. apply (sieve_interval2_closed 5 10 61); lia. Defined.

Lemma sieve_interval2_small (block_size a b : Z) :
  0 < block_size -> 1 <= b <= 3 ->
  sieve_interval2_with block_size a b = Ok (if a <=? 2 then [2] else []).
Proof.
  intros HB Hb. unfold sieve_interval2_with.
  rewrite integer_sqrt_Zsqrt by lia. unfold rbind at 1.
  assert (Hs : Z.sqrt b = 1) by (apply Z.sqrt_unique; lia).
  rewrite Hs. change (luo 1) with (Ok [2; 3]). unfold rbind at 1. cbv zeta.
  change (skipn 1 [2; 3]) with [3].
  set (bb := b + b mod 2). set (m := Z.max (1 + 1) a). set (aa := m - m mod 2).
  assert (Hbb : bb mod 2 = 0 /\ bb <= 4) by (unfold bb; mod_lia).
  assert (Haa : aa mod 2 = 0 /\ 2 <= aa) by (unfold aa, m; mod_lia).
  rewrite sieve_blocks2_spec; try tauto.
  - unfold rbind at 1. f_equal.
    assert (Hfirst : List.filter (fun p => (a <=? p) && (p <? b)) [3] = []).
    { simpl. destruct (Z.ltb_spec 3 b); [lia|]. rewrite andb_false_r. reflexivity. }
    rewrite Hfirst. simpl app.
    rewrite (filter_none _ (range aa bb)); [apply app_nil_r|].
    intros x Hx%in_range.
    assert (Hx23 : x = 2 \/ x = 3) by lia.
    destruct Hx23 as [-> | ->]; reflexivity.
  - intros p [<-|[]]. split; [lia | reflexivity].
Qed.

(** X10. Against [sieve_interval], whose end is left out: for
    [4 <= b < 2^63] the odd-only form yields the same values and then [b]
    itself when [b] is prime. For [1 <= b <= 3] it yields 2 when [a <= 2] and
    nothing else: 2 also for [b = 1] and [b = 2], and not 3 for [b = 3]. *)
Theorem sieve_interval2_end (a b : Z) :
  1 <= b < 2 ^ 63 -> a <= b ->
  exists l, sieve_interval a b = Ok l /\
    sieve_interval2 a b =
      Ok (if 4 <=? b then l ++ (if is_prime b then [b] else [])
          else if a <=? 2 then [2] else []).
Proof.
  intros Hb Hab. exists (primes_in a b). unfold sieve_interval, sieve_interval2.
  split; [apply sieve_interval_spec; lia|].
  destruct (Z.leb_spec 4 b) as [H4|H4].
  - rewrite sieve_interval2_spec by lia. f_equal. apply primes_in_snoc. exact Hab.
  - apply sieve_interval2_small; lia.
Qed.

Lemma sieve_interval2_end_witness :
  exists l, sieve_interval 2 13 = Ok l /\
    sieve_interval2 2 13 =
      Ok (if 4 <=? 13 then l ++ (if is_prime 13 then [13] else [])
          else if 2 <=? 2 then [2] else []).
Proof. apply (sieve_interval2_end 2 13); lia. Defined.

(** X11. What the sieves do with a bound below 1. [luo], [eratosthenes2] and
    [primes] raise [IndexError] at 0 and -1, where the first write to the
    flag array is out of range, and numpy's [ValueError] for the negative
    array size below that. Both interval sieves raise the [ValueError] of
    [integer_sqrt] for [b < 0] and the [IndexError] of [luo(0)] for [b = 0],
    whatever [a] is. *)
Theorem sieve_argument_errors :
  (forall n, n < 1 -> luo n = Raise (if -1 <=? n then IndexError else ValueError)) /\
  (forall n, n < 1 ->
     eratosthenes2 n = Raise (if -1 <=? n then IndexError else ValueError)) /\
  (forall n, n < 1 -> primes n = Raise (if -1 <=? n then IndexError else ValueError)) /\
  (forall a b, b < 1 ->
     sieve_interval a b = Raise (if b =? 0 then IndexError else ValueError)) /\
  (forall a b, b < 1 ->
     sieve_interval2 a b = Raise (if b =? 0 then IndexError else ValueError)).
Proof.
  split; [exact luo_below_1|]. split; [exact eratosthenes2_below_1|].
  split; [exact primes_below_1|]. split.
  - intros a b Hb. apply sieve_interval_below_1. exact Hb.
  - intros a b Hb. apply sieve_interval2_below_1. exact Hb.
Qed.

(** * Further properties of the counts *)

(** X12. What the counts do with a negative bound: [Q_sieve] raises
    [IndexError] at -1 and numpy's [ValueError] below, [Q_segmented] and
    [Q_moebius] the [ValueError] of [integer_sqrt]; [Q_factorizations]
    raises nothing and returns 1. *)
Theorem count_argument_errors (n : Z) :
  n < 0 ->
  Q_sieve n = Raise (if n =? -1 then IndexError else ValueError) /\
  Q_segmented n = Raise ValueError /\
  Q_moebius n = Raise ValueError /\
  Q_factorizations n = Ok 1.
Proof.
  intros Hn. split; [apply Q_sieve_negative; exact Hn|].
  split; [apply Q_segmented_negative; exact Hn|].
  split; [apply Q_moebius_negative; exact Hn|].
  rewrite Q_factorizations_spec. destruct (Z.leb_spec 1 n); [lia | reflexivity].
Qed.

Lemma count_argument_errors_witness :
  Q_sieve (-3) = Raise (if -3 =? -1 then IndexError else ValueError) /\
  Q_segmented (-3) = Raise ValueError /\
  Q_moebius (-3) = Raise ValueError /\
  Q_factorizations (-3) = Ok 1.
Proof. apply (count_argument_errors (-3)); lia. Defined.

(** X13. [factorizations(n)] never fails. Its keys are 1 and the integers
    [1 <= k < n]: [n] itself is not among them. Key 1 holds [{1: 1}]; the
    dictionary of a key [k >= 2] has exactly the primes that divide [k] as
    keys, each with its exact exponent, and the product of the [p**e] over
    its items is [k]. *)
Theorem factorizations_table (n : Z) :
  exists fs, factorizations n = Ok fs /\
    fs !! 1 = Some {[ 1 := 1 ]} /\
    (forall k, is_Some (fs !! k) <-> 1 <= k < n \/ k = 1) /\
    (forall k, 2 <= k < n -> exists f, fs !! k = Some f /\
       (forall p, is_Some (f !! p) <-> Z.prime p /\ (p | k)) /\
       (forall p e, f !! p = Some e -> 1 <= e /\ (p ^ e | k) /\ ~ (p ^ (e + 1) | k)) /\
       factorization_product f = k).
Proof.
  destruct (factorizations_spec n) as (fs & Hrun & H1 & Hdom & Hent).
  exists fs. split; [exact Hrun|]. split; [exact H1|]. split; [exact Hdom|].
  intros k Hk. destruct (Hent k Hk) as (f & Hf & Hfac). exists f. split; [exact Hf|].
  exact Hfac.
Qed.

(** X14. On the table of [factorizations(n)], [is_squarefree] decides
    squarefreeness: for [1 <= k < n] it returns [True] on the entry of [k]
    exactly when no square greater than 1 divides [k]. *)
Theorem is_squarefree_decides (n k : Z) :
  1 <= k < n ->
  exists fs f, factorizations n = Ok fs /\ fs !! k = Some f /\
    (is_squarefree f = true <-> forall d, 1 < d -> ~ (d * d | k)).
Proof.
  intros Hk. destruct (factorizations_spec n) as (fs & Hrun & H1 & Hdom & Hent).
  exists fs. destruct (Z.eq_dec k 1) as [->|Hne].
  - exists {[ 1 := 1 ]}. split; [exact Hrun|]. split; [exact H1|].
    rewrite unit_squarefree. split; [|reflexivity].
    intros _ d Hd Hdiv. apply Z.divide_1_r in Hdiv. nia.
  - destruct (Hent k ltac:(lia)) as (f & Hf & Hfac). exists f.
    split; [exact Hrun|]. split; [exact Hf|].
    rewrite (factorization_squarefree k f ltac:(lia) Hfac), squarefreeb_spec.
    unfold squarefree. intuition lia.
Qed.

Lemma is_squarefree_decides_witness :
  exists fs f, factorizations 20 = Ok fs /\ fs !! 12 = Some f /\
    (is_squarefree f = true <-> forall d, 1 < d -> ~ (d * d | 12)).
Proof. apply (is_squarefree_decides 20 12); lia. Defined.

(** X15. [Q_factorizations(n)] is the number of squarefree integers in
    [[1, n]] for every [n >= 1], where it agrees with [Q_sieve]. For
    [n <= 0] it returns 1, the entry [{1: 1}] that [factorizations] always
    writes: at 0 it is one more than [Q_sieve(0) = 0]. *)
Theorem Q_factorizations_counts :
  (forall n, 1 <= n -> Q_factorizations n = Ok (squarefree_count n)) /\
  (forall n, 1 <= n -> Q_factorizations n = Q_sieve n) /\
  (forall n, n <= 0 -> Q_factorizations n = Ok 1) /\
  Q_sieve 0 = Ok 0.
Proof.
  assert (H1 : forall n, 1 <= n -> Q_factorizations n = Ok (squarefree_count n)).
  { intros n Hn. rewrite Q_factorizations_spec.
    destruct (Z.leb_spec 1 n); [reflexivity | lia]. }
  split; [exact H1|]. split; [|split].
  - intros n Hn. rewrite H1, Q_sieve_spec by lia. reflexivity.
  - intros n Hn. rewrite Q_factorizations_spec.
    destruct (Z.leb_spec 1 n); [lia | reflexivity].
  - reflexivity.
Qed.

(** X16. [divisors(n)] never fails. Its keys are the integers [1 <= k < n],
    and the list of [k] holds the positive divisors of [k], each once, in
    increasing order. *)
Theorem divisors_table (n : Z) :
  exists divs, divisors n = Ok divs /\
    (forall k, is_Some (divs !! k) <-> 1 <= k < n) /\
    (forall k l, divs !! k = Some l ->
       StronglySorted Z.lt l /\ forall d, In d l <-> 1 <= d /\ (d | k)).
Proof.
  destruct (divisors_spec n) as (divs & Hrun & Hlook).
  exists divs. split; [exact Hrun|]. split.
  - intros k. rewrite (Hlook k).
    destruct (Z.leb_spec 1 k); destruct (Z.ltb_spec k n); simpl;
      (split; [intros [v Hv]; try discriminate; lia | intros Hk; try lia; eauto]).
  - intros k l. rewrite (Hlook k).
    destruct (Z.leb_spec 1 k); destruct (Z.ltb_spec k n); simpl; try discriminate.
    intros Hl. inversion Hl; subst l. split.
    + unfold divisors_below. apply sorted_filter. apply sorted_range.
    + intros d. apply in_divisors_below. lia.
Qed.

(** * Further properties of the roots *)

(** X17. Taking the root of a power gives the base back:
    [integer_kth_root(m**k, k) = m] and [integer_sqrt(m*m) = m] for every
    [m >= 0] and [k >= 1], and [is_kth_power] and [is_square] accept these
    powers. *)
Theorem root_of_power (m k : Z) :
  0 <= m -> 1 <= k ->
  integer_kth_root (m ^ k) k = Ok m /\ is_kth_power (m ^ k) k = Ok true /\
  integer_sqrt (m * m) = Ok m /\ is_square (m * m) = Ok true.
Proof.
  intros Hm Hk.
  pose proof (integer_kth_root_power m k Hm Hk) as Hroot.
  pose proof (integer_sqrt_square m Hm) as Hsqrt.
  split; [exact Hroot|]. split; [|split; [exact Hsqrt|]].
  - unfold is_kth_power. rewrite Hroot. simpl. rewrite Z.eqb_refl. reflexivity.
  - unfold is_square. rewrite Hsqrt. simpl. rewrite Z.eqb_refl. reflexivity.
Qed.

Lemma root_of_power_witness :
  integer_kth_root (12 ^ 5) 5 = Ok 12 /\ is_kth_power (12 ^ 5) 5 = Ok true /\
  integer_sqrt (12 * 12) = Ok 12 /\ is_square (12 * 12) = Ok true.
Proof. apply (root_of_power 12 5); lia. Defined.

(** X18. [integer_kth_root] keeps the order of its first argument; for
    [k = 1] it returns [n], for [k = 2] what [integer_sqrt] returns, and for
    every [k] from the bit length of [n >= 1] on it returns 1. *)
Theorem root_order (n n' k : Z) :
  0 <= n <= n' -> 1 <= k ->
  (exists r r', integer_kth_root n k = Ok r /\ integer_kth_root n' k = Ok r' /\
                0 <= r <= r') /\
  integer_kth_root n 1 = Ok n /\
  integer_kth_root n 2 = integer_sqrt n /\
  (1 <= n -> bit_length n <= k -> integer_kth_root n k = Ok 1).
Proof.
  intros Hn Hk. split; [|split; [|split]].
  - destruct (integer_kth_root_spec n k ltac:(lia) Hk) as (r & Hr & Hr0 & _).
    destruct (integer_kth_root_spec n' k ltac:(lia) Hk) as (r' & Hr' & _ & _).
    exists r, r'. split; [exact Hr|]. split; [exact Hr'|].
    split; [exact Hr0|]. apply (integer_kth_root_le n n' k r r'); assumption.
  - apply integer_kth_root_1. lia.
  - apply integer_kth_root_2. lia.
  - intros H1 Hbits. apply integer_kth_root_large_k; assumption.
Qed.

Lemma root_order_witness :
  (exists r r', integer_kth_root 1000 3 = Ok r /\ integer_kth_root 5000 3 = Ok r' /\
                0 <= r <= r') /\
  integer_kth_root 1000 1 = Ok 1000 /\
  integer_kth_root 1000 2 = integer_sqrt 1000 /\
  (1 <= 1000 -> bit_length 1000 <= 3 -> integer_kth_root 1000 3 = Ok 1).
Proof. apply (root_order 1000 5000 3); lia. Defined.

(** * The dictionary of [Q_memo] and the growth of the count *)

(** X19. A call [Q_memo(x)] with [x >= 0] leaves its result under the key
    [x], keeps every entry the dictionary had, and leaves only exact counts
    in it; the same call made again is a single lookup that changes
    nothing. *)
Theorem Q_memo_cache (x : Z) (c : gmap Z Z) :
  0 <= x -> memo_reachable c ->
  snd (Q_memo x c) !! x = Some (squarefree_count x) /\
  c ⊆ snd (Q_memo x c) /\
  (forall k v, snd (Q_memo x c) !! k = Some v -> v = squarefree_count k) /\
  Q_memo x (snd (Q_memo x c)) = (Ok (squarefree_count x), snd (Q_memo x c)).
Proof.
  intros Hx Hc. pose proof (memo_reachable_ok c Hc) as Hok.
  destruct (Q_memo_spec x c Hx Hok) as (c' & Hrun & Hok').
  assert (Hstored : c' !! x = Some (squarefree_count x)).
  { unfold Q_memo in Hrun. apply (Q_memo_rec_stores _ _ _ _ _ Hrun). }
  pose proof (Q_memo_rec_grows (fuel_from x) x c) as Hgrow.
  fold (Q_memo x c) in Hgrow. rewrite Hrun in *. simpl in *.
  split; [exact Hstored|]. split; [exact Hgrow|]. split.
  - intros k v Hk. apply (Hok' k v Hk).
  - apply Q_memo_hit. exact Hstored.
Qed.

Lemma Q_memo_cache_witness :
  snd (Q_memo 50 memo_initial) !! 50 = Some (squarefree_count 50) /\
  memo_initial ⊆ snd (Q_memo 50 memo_initial) /\
  (forall k v, snd (Q_memo 50 memo_initial) !! k = Some v -> v = squarefree_count k) /\
  Q_memo 50 (snd (Q_memo 50 memo_initial))
    = (Ok (squarefree_count 50), snd (Q_memo 50 memo_initial)).
Proof. apply (Q_memo_cache 50 memo_initial); [lia | apply reach_initial]. Defined.

(** X20. The count grows with its argument and by at most one per step: for
    [0 <= x <= y], [Q_dp] and [Q_sieve] return values [vx] and [vy] with
    [0 <= vx <= x] and [vx <= vy <= vx + (y - x)]. *)
Theorem count_growth (x y : Z) :
  0 <= x <= y ->
  exists vx vy,
    Q_dp x = Ok vx /\ Q_dp y = Ok vy /\ Q_sieve x = Ok vx /\ Q_sieve y = Ok vy /\
    0 <= vx <= x /\ vx <= vy <= vx + (y - x).
Proof.
  intros H. exists (squarefree_count x), (squarefree_count y).
  rewrite !Q_dp_spec, !Q_sieve_spec by lia.
  repeat (split; [reflexivity|]). apply squarefree_count_growth. exact H.
Qed.

Lemma count_growth_witness :
  exists vx vy,
    Q_dp 30 = Ok vx /\ Q_dp 45 = Ok vy /\ Q_sieve 30 = Ok vx /\ Q_sieve 45 = Ok vy /\
    0 <= vx <= 30 /\ vx <= vy <= vx + (45 - 30).
Proof. apply (count_growth 30 45); lia. Defined.

(** * The order of [V] in [Q_dp]; the sieves side by side *)

(** X21. For [x >= 2] the list [V] of [Q_dp] is strictly decreasing, starts
    at [x] and ends at 0, so it has no duplicates and [sorted(V)] is [V]
    reversed: the pass visits the keys from 0 up to [x]. *)
Theorem Q_dp_values_decreasing (x : Z) :
  2 <= x ->
  exists V, Q_dp_V x = Ok V /\
    StronglySorted (fun a b => b < a) V /\
    hd 0 V = x /\ List.last V 1 = 0 /\
    merge_sort Z.le V = rev V.
Proof.
  intros Hx. destruct (Q_dp_V_shape x Hx) as (K & V & HV & Hshape).
  exists V. split; [exact HV|].
  destruct (dp_V_sorted x K V ltac:(lia) Hshape) as (Hs & Hh & Hl).
  repeat (split; [assumption|]).
  apply (dp_V_sort_reverses x K V); [lia | exact Hshape].
Qed.

Lemma Q_dp_values_decreasing_witness :
  exists V, Q_dp_V 30 = Ok V /\
    StronglySorted (fun a b => b < a) V /\
    hd 0 V = 30 /\ List.last V 1 = 0 /\
    merge_sort Z.le V = rev V.
Proof. apply (Q_dp_values_decreasing 30); lia. Defined.

(** X22. For [n >= 4] the six sieves return the same list: [eratosthenes(n)],
    [eratosthenes2(n)], [luo(n)], [primes(n)], [sieve_interval(2, n + 1)] and
    [sieve_interval2(2, n)] all give the primes of [[2, n]]. *)
Theorem sieves_agree (n : Z) :
  4 <= n ->
  exists ps,
    eratosthenes n = Ok ps /\ eratosthenes2 n = Ok ps /\ luo n = Ok ps /\
    primes n = Ok ps /\ sieve_interval 2 (n + 1) = Ok ps /\
    sieve_interval2 2 n = Ok ps /\
    forall p, In p ps <-> 2 <= p <= n /\ Z.prime p.
Proof.
  intros Hn. exists (primes_in 2 (n + 1)).
  split; [apply eratosthenes_primes; lia|].
  split; [rewrite eratosthenes2_spec by lia; rewrite Z.max_l by lia; reflexivity|].
  split; [rewrite luo_spec by lia; rewrite Z.max_l by lia; reflexivity|].
  split; [apply primes_spec; lia|].
  split; [unfold sieve_interval; apply sieve_interval_spec; lia|].
  split; [unfold sieve_interval2; apply sieve_interval2_spec; lia|].
  intros p. rewrite in_primes_in. split; intros [H1 H2]; (split; [lia | exact H2]).
Qed.

Lemma sieves_agree_witness :
  exists ps,
    eratosthenes 40 = Ok ps /\ eratosthenes2 40 = Ok ps /\ luo 40 = Ok ps /\
    primes 40 = Ok ps /\ sieve_interval 2 (40 + 1) = Ok ps /\
    sieve_interval2 2 40 = Ok ps /\
    forall p, In p ps <-> 2 <= p <= 40 /\ Z.prime p.
Proof. apply (sieves_agree 40); lia. Defined.
